(** * Discord media scanner: the scan engine of [bot.py]

    A shallow embedding of the media classifier, the history and recovery
    stores, the page fetcher, the analysis loop with its checkpoints, the
    scan and resume commands and the download stage of
    [src/discord_media_downloader/bot.py], with the properties of the
    specification stated and proved over it.

    Modelling conventions.
    - A Python [str] is a [string]: a sequence of code points below 256
      (Latin-1).  [str.lower], [str.isalnum], [str.isspace], [str.isdigit]
      and the regex class [\d] are modelled on that range.
    - A [dict] is a [gmap], a [set] is a [gset].
    - The bot object ([self]) is the record [World]; every effect the
      handlers have on the outside (messages sent, pages fetched, log
      lines, progress writes) is appended to its [trace].
    - Calls of the chat platform and the creation of the download folder
      are taken to succeed; the outcome of each HTTP fetch and file write
      is an input. *)

From Stdlib Require Import String Ascii List NArith Lia.
From stdpp Require Import gmap strings list fin_maps pretty.
Import ListNotations.
Local Open Scope string_scope.
Local Open Scope list_scope.

(** * The program *)

(** ** Characters and strings *)

Definition code (c : ascii) : N := N_of_ascii c.

Definition in_range (lo hi : N) (c : ascii) : bool :=
  ((lo <=? code c) && (code c <=? hi))%N.

Definition newline : ascii := ascii_of_N 10.

(** [\d] and [[0-9]] *)
Definition is_decimal (c : ascii) : bool := in_range 48 57 c.

(** [str.lower] on one code point: A-Z, and the Latin-1 capitals
    U+00C0..U+00DE except the multiplication sign U+00D7. *)
Definition lower_char (c : ascii) : ascii :=
  if in_range 65 90 c || (in_range 192 222 c && negb (code c =? 215)%N)
  then ascii_of_N (code c + 32)
  else c.

Definition lower (s : list ascii) : list ascii := map lower_char s.

(** [str.isalnum]: letters, decimal digits and the other numeric
    characters of Latin-1. *)
Definition isalnum (c : ascii) : bool :=
  in_range 48 57 c || in_range 65 90 c || in_range 97 122 c
  || (code c =? 170)%N || (code c =? 178)%N || (code c =? 179)%N
  || (code c =? 181)%N || (code c =? 185)%N || (code c =? 186)%N
  || in_range 188 190 c
  || in_range 192 214 c || in_range 216 246 c || in_range 248 255 c.

(** [str.isspace] *)
Definition isspace (c : ascii) : bool :=
  in_range 9 13 c || in_range 28 32 c || (code c =? 133)%N || (code c =? 160)%N.

(** [str.isdigit] on one code point: 0-9 and the superscripts 1, 2, 3. *)
Definition isdigit_char (c : ascii) : bool :=
  is_decimal c || (code c =? 178)%N || (code c =? 179)%N || (code c =? 185)%N.

(** ** Regular expressions

    The fragment of Python's [re] syntax the two patterns use: literal
    text, a character class, a starred class, sequence, alternation, an
    optional group and the end anchor [$].  Groups only capture, so they
    leave no trace here. *)

Inductive regex : Type :=
| Lit (l : list ascii)
| Class (p : ascii -> bool)
| Star (p : ascii -> bool)
| Seq (r1 r2 : regex)
| Alt (r1 r2 : regex)
| Opt (r : regex)
| EndAnchor.

Declare Scope regex_scope.
Delimit Scope regex_scope with re.
Bind Scope regex_scope with regex.
Infix "~>" := Seq (at level 60, right associativity) : regex_scope.

Fixpoint strip_prefix (l s : list ascii) : option (list ascii) :=
  match l, s with
  | [], _ => Some s
  | a :: l', b :: s' => if Ascii.eqb a b then strip_prefix l' s' else None
  | _ :: _, [] => None
  end.

(** [$]: at the end of the string, or just before a newline that ends it. *)
Definition at_end (s : list ascii) : bool :=
  match s with
  | [] => true
  | [c] => Ascii.eqb c newline
  | _ => false
  end.

(** Greedy repetition with backtracking: take one more character of the
    class if that leads to a match, otherwise stop here. *)
Fixpoint star_k (p : ascii -> bool) (k : list ascii -> bool) (s : list ascii) : bool :=
  match s with
  | [] => k []
  | c :: s' => (p c && star_k p k s') || k s
  end.

(** The backtracking matcher: [re_k r s k] tries every way [r] can match
    a prefix of [s], in the engine's order, until the continuation [k]
    accepts what is left. *)
Fixpoint re_k (r : regex) (s : list ascii) (k : list ascii -> bool) : bool :=
  match r with
  | Lit l => match strip_prefix l s with Some rest => k rest | None => false end
  | Class p => match s with c :: s' => p c && k s' | [] => false end
  | Star p => star_k p k s
  | Seq r1 r2 => re_k r1 s (fun rest => re_k r2 rest k)
  | Alt r1 r2 => re_k r1 s k || re_k r2 s k
  | Opt r1 => re_k r1 s k || k s
  | EndAnchor => at_end s && k s
  end.

(** [bool(re.match(pattern, s))]: anchored at the start only. *)
Definition re_match (r : regex) (s : list ascii) : bool := re_k r s (fun _ => true).

Fixpoint alts (e : list ascii) (es : list (list ascii)) : regex :=
  match es with
  | [] => Lit e
  | e' :: es' => Alt (Lit e) (alts e' es')
  end.

(** ** The classifier *)

Definition chars (s : string) : list ascii := list_ascii_of_string s.

Definition cdn_prefix : list ascii := chars "https://cdn.discordapp.com/attachments/".

(** [[a-z0-9\_\-\.]] *)
Definition name_char (c : ascii) : bool :=
  in_range 97 122 c || in_range 48 57 c
  || Ascii.eqb c "_" || Ascii.eqb c "-" || Ascii.eqb c ".".

(** [.] without DOTALL *)
Definition not_newline (c : ascii) : bool := negb (Ascii.eqb c newline).

Definition image_exts : list (list ascii) :=
  map chars ["jpg"; "jpeg"; "png"; "gif"; "bmp"; "webp"].
Definition video_exts : list (list ascii) :=
  map chars ["mp4"; "avi"; "mov"; "mkv"; "webm"; "flv"].

Definition media_regex (e : list ascii) (es : list (list ascii)) : regex :=
  (Lit cdn_prefix ~> Star is_decimal ~> Lit (chars "/") ~> Star is_decimal ~>
   Lit (chars "/") ~> Star name_char ~> Lit (chars ".") ~> alts e es ~>
   Opt (Lit (chars "?") ~> Star not_newline) ~> EndAnchor)%re.

Definition IMAGE_REGEX : regex :=
  media_regex (chars "jpg") (map chars ["jpeg"; "png"; "gif"; "bmp"; "webp"]).
Definition VIDEO_REGEX : regex :=
  media_regex (chars "mp4") (map chars ["avi"; "mov"; "mkv"; "webm"; "flv"]).

Definition is_image (content : string) : bool :=
  re_match IMAGE_REGEX (lower (chars content)).

Definition is_video (content : string) : bool :=
  re_match VIDEO_REGEX (lower (chars content)).

Inductive Category : Type := Image | Video | Other.

(** The [if is_image / elif is_video / else] chain of the analysis loop. *)
Definition classify (url : string) : Category :=
  if is_image url then Image
  else if is_video url then Video
  else Other.

(** ** File names *)

Definition underscore : ascii := "_".

(** The character loop of [safe_string]. *)
Definition safe_char (c : ascii) : list ascii :=
  if isalnum c || Ascii.eqb c "-" || Ascii.eqb c "_" || Ascii.eqb c "." then [c]
  else if isspace c then [underscore]
  else [].

(** [re.sub(r"_+", "_", s)] *)
Fixpoint squeeze_underscores (s : list ascii) : list ascii :=
  match s with
  | [] => []
  | c :: s' =>
      if Ascii.eqb c underscore then
        match s' with
        | c' :: _ => if Ascii.eqb c' underscore then squeeze_underscores s'
                     else c :: squeeze_underscores s'
        | [] => [c]
        end
      else c :: squeeze_underscores s'
  end.

Fixpoint lstrip (c : ascii) (s : list ascii) : list ascii :=
  match s with
  | x :: s' => if Ascii.eqb x c then lstrip c s' else s
  | [] => []
  end.

(** [s.strip(c)] *)
Definition strip (c : ascii) (s : list ascii) : list ascii :=
  rev (lstrip c (rev (lstrip c s))).

Definition safe_string (text : string) : string :=
  let result_text := concat (map safe_char (chars text)) in
  let result_text := strip underscore (squeeze_underscores result_text) in
  string_of_list_ascii
    (if (50 <? List.length result_text)%nat then take 50 result_text
     else result_text).

(** A [datetime]: its calendar fields and, when it is aware, the offset
    of its zone in minutes. *)
Record datetime : Type := {
  year : nat; month : nat; day : nat;
  hour : nat; minute : nat; second : nat; microsecond : nat;
  tzinfo : option Z
}.

(** [dt.replace(tzinfo=None)] *)
Definition strip_zone (dt : datetime) : datetime :=
  {| year := year dt; month := month dt; day := day dt;
     hour := hour dt; minute := minute dt; second := second dt;
     microsecond := microsecond dt; tzinfo := None |}.

Definition fields (dt : datetime) : list nat :=
  [year dt; month dt; day dt; hour dt; minute dt; second dt; microsecond dt].

Fixpoint lex_le (a b : list nat) : bool :=
  match a, b with
  | [], _ => true
  | _ :: _, [] => false
  | x :: a', y :: b' => ((x <? y) || ((x =? y) && lex_le a' b'))%nat
  end.

(** [a <= b] on two naive datetimes: field by field, most significant
    first. *)
Definition naive_le (a b : datetime) : bool := lex_le (fields a) (fields b).

(** [str(n).zfill(width)] for a natural number, as the format
    specifications [04d] and [%m], [%d], [%H], [%M], [%S] print it. *)
Definition zfill (width n : nat) : string :=
  let digits := chars (pretty n) in
  string_of_list_ascii
    (replicate (width - List.length digits)%nat "0"%char ++ digits).

(** [strftime("%Y-%m-%d_%H-%M-%S")]; the year is printed on four digits,
    as it is for the years 1000 to 9999. *)
Definition format_date (datetime_instance : datetime) : string :=
  zfill 4 (year datetime_instance) +:+ "-" +:+ zfill 2 (month datetime_instance)
  +:+ "-" +:+ zfill 2 (day datetime_instance) +:+ "_"
  +:+ zfill 2 (hour datetime_instance) +:+ "-" +:+ zfill 2 (minute datetime_instance)
  +:+ "-" +:+ zfill 2 (second datetime_instance).

(** ** Messages *)

Record Attachment : Type := { att_url : string; att_size : N }.

Record Author : Type := {
  author_str : string;  (* str(message.author) *)
  author_name : string;
  author_bot : bool
}.

Record Message : Type := {
  msg_id : N;
  msg_author : Author;
  msg_created_at : datetime;
  msg_attachments : list Attachment
}.

Fixpoint after_last (c : ascii) (s acc : list ascii) : list ascii :=
  match s with
  | [] => acc
  | x :: s' => if Ascii.eqb x c then after_last c s' s' else after_last c s' acc
  end.

Fixpoint before_first (c : ascii) (s : list ascii) : list ascii :=
  match s with
  | [] => []
  | x :: s' => if Ascii.eqb x c then [] else x :: before_first c s'
  end.

(** [url.rsplit(".", maxsplit=1)[-1].split("?")[0]] *)
Definition file_extension (url : string) : string :=
  let s := chars url in
  string_of_list_ascii (before_first "?" (after_last "." s s)).

(** [f"{counter:04d}_{format_date(created_at)}_{author}.{file_extension}"] *)
Definition attachment_name (counter : nat) (message : Message) (url : string) : string :=
  zfill 4 counter +:+ "_" +:+ format_date (msg_created_at message) +:+ "_"
  +:+ safe_string (author_str (msg_author message)) +:+ "." +:+ file_extension url.

(** ** The recovery store ([ScanRecovery]) *)

Inductive ScanType : Type := time_based | number_based.
Inductive Status : Type := in_progress | completed.

(** The [scan_params] dictionary: ['limit'], ['scan_all'] and, for a
    time based scan only, ['since_time']. *)
Record ScanParams : Type := {
  sp_limit : option nat;
  sp_scan_all : bool;
  sp_since_time : option datetime
}.

Record RecoveryEntry : Type := {
  scan_type : ScanType;
  start_time : datetime;
  scan_params : ScanParams;
  status : Status;
  last_processed_message : option N;
  processed_count : nat;
  found_media : nat
}.

(** [str(channel_id)], the key of both stores *)
Definition channel_key (channel_id : N) : string := pretty channel_id.

Module ScanRecovery.

Definition start_scan_session (channel_id : N) (ty : ScanType)
    (start : datetime) (params : ScanParams)
    (recovery_data : gmap string RecoveryEntry) : gmap string RecoveryEntry :=
  <[channel_key channel_id :=
      {| scan_type := ty; start_time := start; scan_params := params;
         status := in_progress; last_processed_message := None;
         processed_count := 0; found_media := 0 |}]> recovery_data.

Definition set_progress (message_id : option N) (processed found : nat)
    (e : RecoveryEntry) : RecoveryEntry :=
  {| scan_type := scan_type e; start_time := start_time e;
     scan_params := scan_params e; status := status e;
     last_processed_message := message_id;
     processed_count := processed; found_media := found |}.

Definition update_scan_progress (channel_id : N) (message_id : option N)
    (processed found : nat)
    (recovery_data : gmap string RecoveryEntry) : gmap string RecoveryEntry :=
  match recovery_data !! channel_key channel_id with
  | Some e => <[channel_key channel_id := set_progress message_id processed found e]> recovery_data
  | None => recovery_data
  end.

Definition set_completed (e : RecoveryEntry) : RecoveryEntry :=
  {| scan_type := scan_type e; start_time := start_time e;
     scan_params := scan_params e; status := completed;
     last_processed_message := last_processed_message e;
     processed_count := processed_count e; found_media := found_media e |}.

Definition complete_scan_session (channel_id : N)
    (recovery_data : gmap string RecoveryEntry) : gmap string RecoveryEntry :=
  match recovery_data !! channel_key channel_id with
  | Some e => <[channel_key channel_id := set_completed e]> recovery_data
  | None => recovery_data
  end.

Definition get_interrupted_scan (channel_id : N)
    (recovery_data : gmap string RecoveryEntry) : option RecoveryEntry :=
  match recovery_data !! channel_key channel_id with
  | Some e => match status e with in_progress => Some e | completed => None end
  | None => None
  end.

Definition clear_recovery_data (channel_id : N)
    (recovery_data : gmap string RecoveryEntry) : gmap string RecoveryEntry :=
  delete (channel_key channel_id) recovery_data.

End ScanRecovery.

(** ** The history store ([ScanHistory])

    The stored list ['scanned_urls'] is always written from a set and
    read back into one, so it is kept as the set; the stored ISO string
    ['last_scan'] is kept as the datetime it denotes. *)

Record HistoryEntry : Type := {
  scanned_urls : gset string;
  last_scan : option datetime;
  total_scans : nat
}.

Module ScanHistory.

Definition get_scanned_urls (channel_id : N)
    (history : gmap string HistoryEntry) : gset string :=
  match history !! channel_key channel_id with
  | Some e => scanned_urls e
  | None => ∅
  end.

Definition get_last_scan_time (channel_id : N)
    (history : gmap string HistoryEntry) : option datetime :=
  match history !! channel_key channel_id with
  | Some e => last_scan e
  | None => None
  end.

Definition add_scanned_urls (now : datetime) (channel_id : N) (urls : gset string)
    (history : gmap string HistoryEntry) : gmap string HistoryEntry :=
  let e := match history !! channel_key channel_id with
           | Some e => e
           | None => {| scanned_urls := ∅; last_scan := None; total_scans := 0 |}
           end in
  <[channel_key channel_id :=
      {| scanned_urls := scanned_urls e ∪ urls;
         last_scan := Some now;
         total_scans := total_scans e + 1 |}]> history.

(** [(total_scanned, last_scan, total_scans)] *)
Definition get_channel_stats (channel_id : N)
    (history : gmap string HistoryEntry) : nat * option datetime * nat :=
  match history !! channel_key channel_id with
  | Some e => (size (scanned_urls e), last_scan e, total_scans e)
  | None => (0, None, 0)
  end.

Definition clear_channel_history (channel_id : N)
    (history : gmap string HistoryEntry) : gmap string HistoryEntry :=
  delete (channel_key channel_id) history.

End ScanHistory.

(** ** The bot and its effects *)

Inductive exn : Type := ValueError | TypeError | KeyError | AttributeError.

Inductive Selection : Type := SelImages | SelVideos | SelOthers | SelAll.

(** What a report embed carries: the number of messages, then the number
    of files and the bytes per category. *)
Record Report : Type := {
  rp_messages : nat;
  rp_images : nat * N;
  rp_videos : nat * N;
  rp_others : nat * N
}.

(** The messages the bot posts, one constructor per text. *)
Inductive Notice : Type :=
| AdminOnly
| ScanAlreadyActive
| UnresolvedRecovery
| NoHistoryAvailable
| Scanning
| NothingToScan
| ScanReport (r : Report)
| NoMediaFound
| ScanFailed (e : exn)
| NoRecoveryToResume
| Resuming
| ResumeAlreadyComplete
| ResumeNothingNew
| ResumeReport (r : Report) (total_processed : nat)
| ResumeFinished
| ResumeFailed (e : exn)
| DownloadOptions (options : list Selection)
| DownloadTimedOut
| Downloading (selection : Selection)
| DownloadComplete (successful total_files : nat) (folder : string)
| DownloadPartial (successful total_files : nat) (folder : string)
| NoFilesToDownload.

Inductive Event : Type :=
| Sent (n : Notice)
| Fetched (limit : option nat)          (* channel.history(limit=...) *)
| LogSkipping (url : string)            (* "Skipping already scanned" *)
| LogFound (counter : nat) (url : string)  (* "{counter} - {author}: {attachment}" *)
| UpdateProgress (channel_id : N) (message_id : option N)
    (processed found : nat).            (* a call of update_scan_progress *)

Record World : Type := {
  recovery_data : gmap string RecoveryEntry;
  history : gmap string HistoryEntry;
  active_scans : gmap N bool;
  files : gmap string string;
  trace : list Event
}.

Inductive outcome (A : Type) : Type :=
| Ret (a : A)
| Raise (e : exn).
Arguments Ret {A} a.
Arguments Raise {A} e.

(** A handler step: it may change the bot, and returns or raises. *)
Definition M (A : Type) : Type := World -> outcome A * World.

Definition ret {A} (a : A) : M A := fun w => (Ret a, w).
Definition raise {A} (e : exn) : M A := fun w => (Raise e, w).
Definition bind {A B} (m : M A) (k : A -> M B) : M B :=
  fun w => match m w with
           | (Ret a, w') => k a w'
           | (Raise e, w') => (Raise e, w')
           end.

(** [try: body / except Exception as e: handler(e) / finally: cleanup] *)
Definition try_except_finally (body : M unit) (handler : exn -> M unit)
    (cleanup : M unit) : M unit :=
  fun w => match body w with
           | (Ret _, w') => cleanup w'
           | (Raise e, w') => bind (handler e) (fun _ => cleanup) w'
           end.

Notation "'do' x <- m ; k" := (bind m (fun x => k))
  (at level 10, x name, m at level 100, k at level 200,
   format "'[v' 'do'  x  <-  m ; '/' k ']'").
Notation "m ;; k" := (bind m (fun _ => k))
  (at level 100, k at level 200, right associativity).

Definition emit (e : Event) : M unit :=
  fun w => (Ret tt,
            {| recovery_data := recovery_data w; history := history w;
               active_scans := active_scans w; files := files w;
               trace := trace w ++ [e] |}).

Definition send (n : Notice) : M unit := emit (Sent n).

Definition get_recovery : M (gmap string RecoveryEntry) :=
  fun w => (Ret (recovery_data w), w).
Definition get_history : M (gmap string HistoryEntry) :=
  fun w => (Ret (history w), w).

Definition modify_recovery
    (f : gmap string RecoveryEntry -> gmap string RecoveryEntry) : M unit :=
  fun w => (Ret tt,
            {| recovery_data := f (recovery_data w); history := history w;
               active_scans := active_scans w; files := files w;
               trace := trace w |}).

Definition modify_history
    (f : gmap string HistoryEntry -> gmap string HistoryEntry) : M unit :=
  fun w => (Ret tt,
            {| recovery_data := recovery_data w; history := f (history w);
               active_scans := active_scans w; files := files w;
               trace := trace w |}).

Definition set_active (channel_id : N) (b : bool) : M unit :=
  fun w => (Ret tt,
            {| recovery_data := recovery_data w; history := history w;
               active_scans := <[channel_id := b]> (active_scans w);
               files := files w; trace := trace w |}).

(** [self.active_scans.get(channel_id, False)] *)
Definition is_active (channel_id : N) : M bool :=
  fun w => (Ret (default false (active_scans w !! channel_id)), w).

Definition write_file (path content : string) : M unit :=
  fun w => (Ret tt,
            {| recovery_data := recovery_data w; history := history w;
               active_scans := active_scans w;
               files := <[path := content]> (files w); trace := trace w |}).

(** The recovery manager's call, as the analysis loop makes it. *)
Definition update_scan_progress (channel_id : N) (message_id : option N)
    (processed found : nat) : M unit :=
  emit (UpdateProgress channel_id message_id processed found) ;;
  modify_recovery (ScanRecovery.update_scan_progress channel_id message_id processed found).

Definition complete_scan_session (channel_id : N) : M unit :=
  modify_recovery (ScanRecovery.complete_scan_session channel_id).

Fixpoint foldM {A B} (f : A -> B -> M A) (a : A) (l : list B) : M A :=
  match l with
  | [] => ret a
  | b :: l' => do a' <- f a b ; foldM f a' l'
  end.

Fixpoint mapM {A B} (f : A -> M B) (l : list A) : M (list B) :=
  match l with
  | [] => ret []
  | a :: l' => do b <- f a ; do bs <- mapM f l' ; ret (b :: bs)
  end.

(** What a command runs against: the channel's messages, newest first,
    the clock, the user's answer to the download prompt, and the outcome
    of each HTTP fetch and of opening each file for writing. *)
Record Env : Type := {
  channel_messages : list Message;
  now : datetime;
  reaction : option Selection;
  http_get : string -> option string;
  can_write : string -> bool
}.

(** The command message: where it was posted and by whom. *)
Record Command : Type := {
  channel_id : N;
  is_admin : bool;
  server_name : string;
  channel_name : string
}.

(** ** The page fetcher *)

(** [channel.history(limit=limit)]: the newest [limit] messages, all of
    them when [limit] is [None]. *)
Definition channel_history (env : Env) (limit : option nat) : M (list Message) :=
  emit (Fetched limit) ;;
  ret (match limit with
       | Some n => take n (channel_messages env)
       | None => channel_messages env
       end).

Definition is_anchor (last_message_id : option N) (message : Message) : bool :=
  bool_decide (last_message_id = Some (msg_id message)).

(** The loop of [get_messages_from_point] over the fetched page. *)
Fixpoint from_point_loop (last_message_id : option N) (limit : nat)
    (page : list Message) (found_start : bool) (messages : list Message)
    : list Message :=
  match page with
  | [] => messages
  | message :: page' =>
      if negb found_start then
        from_point_loop last_message_id limit page'
          (is_anchor last_message_id message) messages
      else
        let messages := messages ++ [message] in
        if (limit <=? List.length messages)%nat then messages
        else from_point_loop last_message_id limit page' found_start messages
  end.

Definition is_None {A} (o : option A) : bool :=
  match o with None => true | Some _ => false end.

Definition get_messages_from_point (env : Env) (last_message_id : option N)
    (limit : nat) : M (list Message) :=
  do page <- channel_history env (Some (limit * 2)%nat) ;
  ret (from_point_loop last_message_id limit page (is_None last_message_id) []).

(** [limit or 500] *)
Definition max_messages (limit : option nat) : nat :=
  match limit with
  | Some (S n) => S n
  | _ => 500
  end.

(** [limit and count >= limit] *)
Definition limit_reached (limit : option nat) (count : nat) : bool :=
  match limit with
  | Some (S n) => (S n <=? count)%nat
  | _ => false
  end.

(** The loop of [get_messages_since_time] over the fetched page. *)
Fixpoint since_time_loop (since_time : datetime) (limit : option nat)
    (last_message_id : option N) (page : list Message) (found_start : bool)
    (messages : list Message) (count : nat) : list Message :=
  match page with
  | [] => messages
  | message :: page' =>
      if negb found_start then
        since_time_loop since_time limit last_message_id page'
          (is_anchor last_message_id message) messages count
      else
        let message_time := strip_zone (msg_created_at message) in
        let since_time_naive := strip_zone since_time in
        if naive_le message_time since_time_naive then messages
        else
          let messages := messages ++ [message] in
          let count := (count + 1)%nat in
          if limit_reached limit count then messages
          else since_time_loop since_time limit last_message_id page'
                 found_start messages count
  end.

Definition get_messages_since_time (env : Env) (since_time : datetime)
    (limit : option nat) (last_message_id : option N) : M (list Message) :=
  do page <- channel_history env (Some (max_messages limit * 2)%nat) ;
  ret (since_time_loop since_time limit last_message_id page
         (is_None last_message_id) [] 0).

(** ** The analysis loop *)

(** The local variables of [analyze_messages_with_recovery]. *)
Record Analysis : Type := {
  an_images : gmap string string;
  an_videos : gmap string string;
  an_others : gmap string string;
  an_new_urls : gset string;
  an_counter : nat;
  an_processed_count : nat;
  an_found_media : nat
}.

Definition start_analysis (start_counter : nat) : Analysis :=
  {| an_images := ∅; an_videos := ∅; an_others := ∅; an_new_urls := ∅;
     an_counter := start_counter + 1;
     an_processed_count := start_counter;
     an_found_media := 0 |}.

(** The body of the attachment loop once the attachment is not skipped. *)
Definition categorize (message : Message) (attachment_url : string)
    (a : Analysis) : Analysis :=
  let name := attachment_name (an_counter a) message attachment_url in
  let cat := classify attachment_url in
  {| an_images := match cat with Image => <[attachment_url := name]> (an_images a)
                  | _ => an_images a end;
     an_videos := match cat with Video => <[attachment_url := name]> (an_videos a)
                  | _ => an_videos a end;
     an_others := match cat with Other => <[attachment_url := name]> (an_others a)
                  | _ => an_others a end;
     an_new_urls := {[attachment_url]} ∪ an_new_urls a;
     an_counter := an_counter a + 1;
     an_processed_count := an_processed_count a;
     an_found_media := an_found_media a + 1 |}.

Definition analyze_attachment (scanned : gset string) (scan_all : bool)
    (message : Message) (a : Analysis) (attachment : Attachment) : M Analysis :=
  let attachment_url := att_url attachment in
  if negb scan_all && bool_decide (attachment_url ∈ scanned) then
    emit (LogSkipping attachment_url) ;; ret a
  else
    emit (LogFound (an_counter a) attachment_url) ;;
    ret (categorize message attachment_url a).

Definition count_message (a : Analysis) : Analysis :=
  {| an_images := an_images a; an_videos := an_videos a; an_others := an_others a;
     an_new_urls := an_new_urls a; an_counter := an_counter a;
     an_processed_count := an_processed_count a + 1;
     an_found_media := an_found_media a |}.

Definition nonempty {A} (l : list A) : bool :=
  match l with [] => false | _ :: _ => true end.

(** One turn of the message loop. *)
Definition analyze_message (scanned : gset string) (scan_all : bool)
    (channel : N) (a : Analysis) (message : Message) : M Analysis :=
  let a := count_message a in
  do a <- (if nonempty (msg_attachments message)
              && negb (author_bot (msg_author message))
           then foldM (analyze_attachment scanned scan_all message) a
                  (msg_attachments message)
           else ret a) ;
  if (an_processed_count a mod 10 =? 0)%nat then
    update_scan_progress channel (Some (msg_id message))
      (an_processed_count a) (an_found_media a) ;;
    ret a
  else ret a.

(** The loop and the final progress write; returns the locals. *)
Definition analysis_run (message_history : list Message) (scanned : gset string)
    (scan_all : bool) (channel : N) (start_counter : nat) : M Analysis :=
  do a <- foldM (analyze_message scanned scan_all channel)
            (start_analysis start_counter) message_history ;
  update_scan_progress channel (msg_id <$> last message_history)
    (an_processed_count a) (an_found_media a) ;;
  ret a.

Definition analyze_messages_with_recovery (message_history : list Message)
    (scanned : gset string) (scan_all : bool) (channel : N) (start_counter : nat)
    : M (gmap string string * gmap string string * gmap string string * gset string) :=
  do a <- analysis_run message_history scanned scan_all channel start_counter ;
  ret (an_images a, an_videos a, an_others a, an_new_urls a).

(** ** Sizes and reports *)

Definition has_key (url : string) (d : gmap string string) : bool :=
  bool_decide (is_Some (d !! url)).

Definition add_size (images videos others : gmap string string)
    (totals : N * N * N) (attachment : Attachment) : N * N * N :=
  let '(total_image_size, total_video_size, total_other_size) := totals in
  let url := att_url attachment in
  if has_key url images then
    ((total_image_size + att_size attachment)%N, total_video_size, total_other_size)
  else if has_key url videos then
    (total_image_size, (total_video_size + att_size attachment)%N, total_other_size)
  else if has_key url others then
    (total_image_size, total_video_size, (total_other_size + att_size attachment)%N)
  else totals.

Definition calculate_media_sizes (message_history : list Message)
    (images videos others : gmap string string) : N * N * N :=
  fold_left
    (fun totals msg =>
       if nonempty (msg_attachments msg) && negb (author_bot (msg_author msg))
       then fold_left (add_size images videos others) (msg_attachments msg) totals
       else totals)
    message_history (0%N, 0%N, 0%N).

Definition make_report (message_count : nat)
    (images videos others : gmap string string) (sizes : N * N * N) : Report :=
  let '(total_image_size, total_video_size, total_other_size) := sizes in
  {| rp_messages := message_count;
     rp_images := (size images, total_image_size);
     rp_videos := (size videos, total_video_size);
     rp_others := (size others, total_other_size) |}.

(** ** The download stage *)

(** The folder [downloads/{server}_{channel}_{date}] under the working
    directory. *)
Definition create_folder (env : Env) (server channel : string) : string :=
  "downloads/" +:+ safe_string server +:+ "_" +:+ safe_string channel
  +:+ "_" +:+ format_date (now env).

(** The [try] block of [download_media]: [None] where it raises. *)
Definition download_attempt (env : Env) (url path : string) : option string :=
  match http_get env url with
  | Some content => if can_write env path then Some content else None
  | None => None
  end.

Definition download_media (env : Env) (folder : string)
    (task : string * string) : M bool :=
  let '(url, file_name) := task in
  let path := folder +:+ "/" +:+ file_name in
  match download_attempt env url path with
  | Some content => write_file path content ;; ret true
  | None => ret false
  end.

Definition selected (wanted selection : Selection) : bool :=
  match selection, wanted with
  | SelAll, _ => true
  | SelImages, SelImages => true
  | SelVideos, SelVideos => true
  | SelOthers, SelOthers => true
  | _, _ => false
  end.

(** The list [download_tasks], one [(url, file_name)] pair per item of
    the selected dictionaries. *)
Definition download_tasks (selection : Selection)
    (images videos others : gmap string string) : list (string * string) :=
  (if selected SelImages selection then map_to_list images else [])
  ++ (if selected SelVideos selection then map_to_list videos else [])
  ++ (if selected SelOthers selection then map_to_list others else []).

Definition total_files (selection : Selection)
    (images videos others : gmap string string) : nat :=
  ((if selected SelImages selection then size images else 0)
   + (if selected SelVideos selection then size videos else 0)
   + (if selected SelOthers selection then size others else 0))%nat.

(** [sum(1 for result in results if result is True)] *)
Definition count_true (results : list bool) : nat :=
  List.length (filter (fun r => r = true) results).

Definition process_download (env : Env) (cmd : Command) (selection : Selection)
    (images videos others : gmap string string) : M unit :=
  send (Downloading selection) ;;
  let folder := create_folder env (server_name cmd) (channel_name cmd) in
  let tasks := download_tasks selection images videos others in
  let total := total_files selection images videos others in
  if nonempty tasks then
    do results <- mapM (download_media env folder) tasks ;
    let successful := count_true results in
    if (successful =? total)%nat then send (DownloadComplete successful total folder)
    else send (DownloadPartial successful total folder)
  else send NoFilesToDownload.

Definition download_options (sizes : N * N * N) : list Selection :=
  let '(total_image_size, total_video_size, total_other_size) := sizes in
  let options :=
    (if (0 <? total_image_size)%N then [SelImages] else [])
    ++ (if (0 <? total_video_size)%N then [SelVideos] else [])
    ++ (if (0 <? total_other_size)%N then [SelOthers] else []) in
  if (1 <? List.length options)%nat then options ++ [SelAll] else options.

Definition selection_eqb (a b : Selection) : bool :=
  match a, b with
  | SelImages, SelImages | SelVideos, SelVideos
  | SelOthers, SelOthers | SelAll, SelAll => true
  | _, _ => false
  end.

(** [react_message] only returns a reaction that is one of the options;
    anything else is never delivered and ends in the timeout. *)
Definition react_message (env : Env) (options : list Selection) : option Selection :=
  match reaction env with
  | Some s => if existsb (selection_eqb s) options then Some s else None
  | None => None
  end.

Definition handle_download_options (env : Env) (cmd : Command)
    (images videos others : gmap string string) (sizes : N * N * N) : M unit :=
  let options := download_options sizes in
  if nonempty options then
    send (DownloadOptions options) ;;
    match react_message env options with
    | None => send DownloadTimedOut
    | Some selection => process_download env cmd selection images videos others
    end
  else ret tt.

Definition any_media (images videos others : gmap string string) : bool :=
  negb (bool_decide (images = ∅)) || negb (bool_decide (videos = ∅))
  || negb (bool_decide (others = ∅)).

Definition record_new_urls (env : Env) (channel : N) (new_urls : gset string) : M unit :=
  if bool_decide (new_urls = ∅) then ret tt
  else modify_history (ScanHistory.add_scanned_urls (now env) channel new_urls).

(** ** The scan command *)

(** [part.isdigit()] *)
Definition isdigit (part : string) : bool :=
  nonempty (chars part) && forallb isdigit_char (chars part).

(** [int(part)] on a string that passed [isdigit]: the superscript digits
    are digits for [isdigit] and a [ValueError] for [int]. *)
Definition int_of_string (part : string) : option nat :=
  if forallb is_decimal (chars part) then
    Some (fold_left (fun acc c => (10 * acc + N.to_nat (code c - 48))%nat) (chars part) 0)
  else None.

(** The parsed arguments: [(number_of_messages, scan_all, scan_from_last)]. *)
Definition ScanArgs : Type := option nat * bool * bool.

Definition parse_part (args : ScanArgs) (part : string) : M ScanArgs :=
  let '(number_of_messages, scan_all, scan_from_last) := args in
  if isdigit part then
    match int_of_string part with
    | Some n => ret (Some (n `min` 500), scan_all, scan_from_last)
    | None => raise ValueError
    end
  else if String.eqb part "--all" then ret (number_of_messages, true, scan_from_last)
  else if String.eqb part "--new" then ret (number_of_messages, scan_all, true)
  else ret args.

Definition perform_scan (env : Env) (cmd : Command)
    (number_of_messages : option nat) (scan_all scan_from_last : bool) : M unit :=
  do h <- get_history ;
  let last_scan_time :=
    if scan_from_last then ScanHistory.get_last_scan_time (channel_id cmd) h else None in
  let scanned := if scan_all then ∅ else ScanHistory.get_scanned_urls (channel_id cmd) h in
  (if scan_from_last && is_None last_scan_time then raise AttributeError else ret tt) ;;
  send Scanning ;;
  do message_history <-
    (if scan_from_last then
       match last_scan_time with
       | Some t => get_messages_since_time env t number_of_messages None
       | None => raise AttributeError
       end
     else channel_history env number_of_messages) ;
  if nonempty message_history then
    do r <- analyze_messages_with_recovery message_history scanned scan_all
              (channel_id cmd) 0 ;
    let '(images, videos, others, new_urls) := r in
    let sizes := calculate_media_sizes message_history images videos others in
    send (ScanReport (make_report (List.length message_history) images videos others sizes)) ;;
    (if any_media images videos others then
       handle_download_options env cmd images videos others sizes ;;
       record_new_urls env (channel_id cmd) new_urls
     else send NoMediaFound) ;;
    complete_scan_session (channel_id cmd)
  else
    send NothingToScan ;;
    complete_scan_session (channel_id cmd).

(** The [try] block of [handle_scan]; [command_parts] is
    [command.split()]. *)
Definition scan_body (env : Env) (cmd : Command) (command_parts : list string) : M unit :=
  do args <- foldM parse_part (None, false, false) (tail command_parts) ;
  let '(number_of_messages, scan_all, scan_from_last) := args in
  let number_of_messages :=
    if negb scan_all && negb scan_from_last && is_None number_of_messages
    then Some 5 else number_of_messages in
  let ty := if scan_from_last then time_based else number_based in
  do h <- get_history ;
  let last_scan_time := ScanHistory.get_last_scan_time (channel_id cmd) h in
  if scan_from_last && is_None last_scan_time then send NoHistoryAvailable
  else
    let params :=
      {| sp_limit := number_of_messages; sp_scan_all := scan_all;
         sp_since_time := if scan_from_last then last_scan_time else None |} in
    modify_recovery
      (ScanRecovery.start_scan_session (channel_id cmd) ty (now env) params) ;;
    perform_scan env cmd number_of_messages scan_all scan_from_last.

Definition handle_scan (env : Env) (cmd : Command) (command_parts : list string) : M unit :=
  if negb (is_admin cmd) then send AdminOnly
  else
    do active <- is_active (channel_id cmd) ;
    if active then send ScanAlreadyActive
    else
      do rec <- get_recovery ;
      match ScanRecovery.get_interrupted_scan (channel_id cmd) rec with
      | Some _ => send UnresolvedRecovery
      | None =>
          set_active (channel_id cmd) true ;;
          try_except_finally
            (scan_body env cmd command_parts)
            (fun e => send (ScanFailed e))
            (set_active (channel_id cmd) false)
      end.

(** ** The resume command *)

(** A read of a field of [recovery_data], the dictionary that
    [get_interrupted_scan] returned: it is the store's own entry, not a
    copy, so the read sees every progress write made since. *)
Definition read_entry (channel : N) : M RecoveryEntry :=
  do rec <- get_recovery ;
  match rec !! channel_key channel with
  | Some e => ret e
  | None => raise KeyError
  end.

Definition resume_fetch (env : Env) (channel : N) (e : RecoveryEntry)
    (last_message_id : option N) : M (option (list Message)) :=
  match scan_type e with
  | time_based =>
      match sp_since_time (scan_params e) with
      | Some since_time =>
          do l <- get_messages_since_time env since_time
                    (sp_limit (scan_params e)) last_message_id ;
          ret (Some l)
      | None => raise KeyError
      end
  | number_based =>
      match sp_limit (scan_params e) with
      | Some limit =>
          (* remaining_limit <= 0 *)
          if (limit <=? processed_count e)%nat then
            send ResumeAlreadyComplete ;;
            complete_scan_session channel ;;
            ret None
          else
            do l <- get_messages_from_point env last_message_id
                      (limit - processed_count e)%nat ;
            ret (Some l)
      | None => raise TypeError
      end
  end.

Definition resume_scanning_process (env : Env) (cmd : Command)
    (last_message_id : option N) : M unit :=
  do e <- read_entry (channel_id cmd) ;
  do h <- get_history ;
  let scanned := ScanHistory.get_scanned_urls (channel_id cmd) h in
  do fetched <- resume_fetch env (channel_id cmd) e last_message_id ;
  match fetched with
  | None => ret tt
  | Some message_history =>
      if nonempty message_history then
        let scan_all := sp_scan_all (scan_params e) in
        do r <- analyze_messages_with_recovery message_history scanned scan_all
                  (channel_id cmd) (processed_count e) ;
        let '(images, videos, others, new_urls) := r in
        let sizes := calculate_media_sizes message_history images videos others in
        do e' <- read_entry (channel_id cmd) ;
        send (ResumeReport
                (make_report (List.length message_history) images videos others sizes)
                (processed_count e' + List.length message_history)) ;;
        (if any_media images videos others then
           handle_download_options env cmd images videos others sizes ;;
           record_new_urls env (channel_id cmd) new_urls
         else ret tt) ;;
        complete_scan_session (channel_id cmd) ;;
        send ResumeFinished
      else
        send ResumeNothingNew ;;
        complete_scan_session (channel_id cmd)
  end.

Definition handle_resume_scan (env : Env) (cmd : Command) : M unit :=
  if negb (is_admin cmd) then send AdminOnly
  else
    do rec <- get_recovery ;
    match ScanRecovery.get_interrupted_scan (channel_id cmd) rec with
    | None => send NoRecoveryToResume
    | Some recovery =>
        do active <- is_active (channel_id cmd) ;
        if active then send ScanAlreadyActive
        else
          set_active (channel_id cmd) true ;;
          try_except_finally
            (send Resuming ;;
             resume_scanning_process env cmd (last_processed_message recovery))
            (fun e => send (ResumeFailed e))
            (set_active (channel_id cmd) false)
    end.

(** ** The history commands *)

Definition handle_clear_history (cmd : Command) : M unit :=
  if negb (is_admin cmd) then send AdminOnly
  else modify_history (ScanHistory.clear_channel_history (channel_id cmd)).

Definition handle_clear_recovery (cmd : Command) : M unit :=
  if negb (is_admin cmd) then send AdminOnly
  else modify_recovery (ScanRecovery.clear_recovery_data (channel_id cmd)).

(** * Vocabulary of the properties *)

(** ** What a pattern matches

    [den r a rest]: the pattern [r] matches the text [a] when [rest] is
    what follows it in the string ([$] looks at what follows). *)

Fixpoint den (r : regex) (a rest : list ascii) : Prop :=
  match r with
  | Lit l => a = l
  | Class p => exists c, a = [c] /\ p c = true
  | Star p => forallb p a = true
  | Seq r1 r2 => exists a1 a2, a = a1 ++ a2 /\ den r1 a1 (a2 ++ rest) /\ den r2 a2 rest
  | Alt r1 r2 => den r1 a rest \/ den r2 a rest
  | Opt r1 => den r1 a rest \/ a = []
  | EndAnchor => a = [] /\ (rest = [] \/ rest = [newline])
  end.

(** The URLs the two patterns accept, for a list [exts] of extensions:
    the CDN prefix, two runs of digits, a file name over the allowed
    characters, a dot and an extension, then optionally a query on the
    same line and optionally one final newline. *)
Definition cdn_media_url (exts : list (list ascii)) (s : list ascii) : Prop :=
  exists d1 d2 name ext query tail,
    s = cdn_prefix ++ d1 ++ chars "/" ++ d2 ++ chars "/" ++ name
        ++ chars "." ++ ext ++ query ++ tail
    /\ forallb is_decimal d1 = true
    /\ forallb is_decimal d2 = true
    /\ forallb name_char name = true
    /\ In ext exts
    /\ (query = [] \/ exists q, query = chars "?" ++ q /\ forallb not_newline q = true)
    /\ (tail = [] \/ tail = [newline]).

(** The reading of the classifier that looks at the file-name segment
    only: any text up to a slash, then a name over the allowed
    characters, a dot, an extension of [exts] and optionally a query. *)
Definition file_name_matches (exts : list (list ascii)) (s : list ascii) : Prop :=
  exists front name ext query,
    s = front ++ chars "/" ++ name ++ chars "." ++ ext ++ query
    /\ forallb name_char name = true
    /\ In ext exts
    /\ (query = [] \/ exists q, query = chars "?" ++ q).

(** [s.lower()] on a string *)
Definition str_lower (s : string) : string :=
  string_of_list_ascii (lower (chars s)).

(** The characters that neither start a query nor end a line. *)
Definition plain (c : ascii) : bool := negb (Ascii.eqb c "?") && not_newline c.

Fixpoint take_while (p : ascii -> bool) (s : list ascii) : list ascii :=
  match s with
  | c :: s' => if p c then c :: take_while p s' else []
  | [] => []
  end.

(** The extension a URL shows: what follows the last dot of the part
    before any query. *)
Definition shown_extension (s : list ascii) : list ascii :=
  let stem := take_while plain s in after_last "." stem stem.

Definition no_dot (c : ascii) : bool := negb (Ascii.eqb c ".").

(** ** Observations on worlds and traces *)

(** The world after one more event. *)
Definition snoc_trace (w : World) (e : Event) : World :=
  {| recovery_data := recovery_data w; history := history w;
     active_scans := active_scans w; files := files w;
     trace := trace w ++ [e] |}.

Definition with_recovery (w : World) (r : gmap string RecoveryEntry) : World :=
  {| recovery_data := r; history := history w;
     active_scans := active_scans w; files := files w; trace := trace w |}.

(** The history after a sequence of [add_scanned_urls] calls, each with
    its own clock reading, channel and URL set. *)
Definition record_all (calls : list (datetime * N * gset string))
    (h : gmap string HistoryEntry) : gmap string HistoryEntry :=
  fold_left (fun h c => ScanHistory.add_scanned_urls c.1.1 c.1.2 c.2 h) calls h.

(** The progress writes of a trace: the message id and the processed
    count each call of [update_scan_progress] passed. *)
Definition progress_call (e : Event) : option (option N * nat) :=
  match e with
  | UpdateProgress _ message_id processed _ => Some (message_id, processed)
  | _ => None
  end.

Definition progress_calls (t : list Event) : list (option N * nat) :=
  omap progress_call t.

(** The ordinals a trace shows being given out. *)
Definition found_counter (e : Event) : option nat :=
  match e with
  | LogFound counter _ => Some counter
  | _ => None
  end.

Definition found_counters (t : list Event) : list nat := omap found_counter t.

(** The pages a trace shows being requested. *)
Definition fetch_limit (e : Event) : option (option nat) :=
  match e with
  | Fetched limit => Some limit
  | _ => None
  end.

Definition fetches (t : list Event) : list (option nat) := omap fetch_limit t.

(** Every tenth processed message, counting on from [processed]: the
    message's id with the count it brings the run to. *)
Fixpoint every_tenth (processed : nat) (messages : list Message)
    : list (option N * nat) :=
  match messages with
  | [] => []
  | m :: rest =>
      (if (S processed mod 10 =? 0)%nat then [(Some (msg_id m), S processed)] else [])
      ++ every_tenth (S processed) rest
  end.

(** [w'] is [w] after the events [t]: nothing but the trace and the
    recovery entries' contents differs. *)
Definition extends (w w' : World) (t : list Event) : Prop :=
  trace w' = trace w ++ t
  /\ history w' = history w
  /\ active_scans w' = active_scans w
  /\ files w' = files w
  /\ dom (recovery_data w') = dom (recovery_data w).

(** A step that gives out no ordinal: the ordinals its trace shows are
    those that were there before. *)
Definition silent {A} (m : M A) : Prop :=
  forall w, found_counters (trace (m w).2) = found_counters (trace w).

(** An argument that [int] accepts whenever [isdigit] does. *)
Definition parses (part : string) : Prop :=
  isdigit part = true -> int_of_string part <> None.

(** Whether downloading one task succeeds: its own fetch and its own
    file. *)
Definition download_ok (env : Env) (folder : string) (task : string * string) : bool :=
  bool_decide (is_Some (download_attempt env task.1 (folder +:+ "/" +:+ task.2))).

(** ** The time anchored fetch, in the words of its description *)

(** The resume skip: everything up to and including the anchor is
    dropped; with no anchor nothing is. *)
Fixpoint drop_through (anchor : option N) (l : list Message) : list Message :=
  match anchor with
  | None => l
  | Some _ =>
      match l with
      | [] => []
      | m :: l' => if is_anchor anchor m then l' else drop_through anchor l'
      end
  end.

(** The zone-stripped timestamp is strictly after the cutoff. *)
Definition newer (since_time : datetime) (m : Message) : bool :=
  negb (naive_le (strip_zone (msg_created_at m)) (strip_zone since_time)).

(** The prefix before the first message at or before the cutoff. *)
Fixpoint newer_prefix (since_time : datetime) (l : list Message) : list Message :=
  match l with
  | [] => []
  | m :: l' => if newer since_time m then m :: newer_prefix since_time l' else []
  end.

Definition up_to (limit : option nat) (l : list Message) : list Message :=
  match limit with
  | Some n => take n l
  | None => l
  end.

Definition time_anchored (since_time : datetime) (limit : option nat)
    (anchor : option N) (stream : list Message) : list Message :=
  up_to limit (newer_prefix since_time (drop_through anchor stream)).

(** ** Sample data *)

Definition sample_time (h m s : nat) : datetime :=
  {| year := 2024; month := 5; day := 17; hour := h; minute := m; second := s;
     microsecond := 0; tzinfo := Some 0%Z |}.

Definition alice : Author :=
  {| author_str := "alice"; author_name := "alice"; author_bot := false |}.

Definition sample_png : string := "https://cdn.discordapp.com/attachments/1/2/a.png".
Definition sample_jpg : string := "https://cdn.discordapp.com/attachments/1/2/b.jpg".
Definition sample_mp4 : string := "https://cdn.discordapp.com/attachments/1/2/c.mp4".

Definition sample_message (id : N) (s : nat) (urls : list string) : Message :=
  {| msg_id := id; msg_author := alice; msg_created_at := sample_time 9 30 s;
     msg_attachments := map (fun u => {| att_url := u; att_size := 1024 |}) urls |}.

Definition empty_world : World :=
  {| recovery_data := ∅; history := ∅; active_scans := ∅; files := ∅; trace := [] |}.

Definition sample_command : Command :=
  {| channel_id := 7; is_admin := true; server_name := "server";
     channel_name := "general" |}.

Definition sample_env (messages : list Message) : Env :=
  {| channel_messages := messages; now := sample_time 10 0 0; reaction := None;
     http_get := fun _ => None; can_write := fun _ => true |}.

(** A checkpoint of a count based scan of five messages. *)
Definition sample_entry (processed found : nat) (last : option N) : RecoveryEntry :=
  {| scan_type := number_based; start_time := sample_time 9 0 0;
     scan_params := {| sp_limit := Some 5%nat; sp_scan_all := false;
                       sp_since_time := None |};
     status := in_progress; last_processed_message := last;
     processed_count := processed; found_media := found |}.

Definition world_with_entry (e : RecoveryEntry) : World :=
  {| recovery_data := {[ channel_key 7 := e ]}; history := ∅; active_scans := ∅;
     files := ∅; trace := [] |}.

(** A scan of the newest message, which carries two attachments, stopped
    between its last progress write and its report. *)
Definition interrupted_scan : World :=
  (analysis_run [sample_message 11 1 [sample_png; sample_jpg]] ∅ false 7 0
     (modify_recovery
        (ScanRecovery.start_scan_session 7 number_based (sample_time 9 0 0)
           {| sp_limit := Some 5%nat; sp_scan_all := false; sp_since_time := None |})
        empty_world).2).2.

(** ** More vocabulary: the stores *)

(** What [update_scan_progress] and [complete_scan_session] never touch
    in a checkpoint, and what the progress write never touches. *)
Definition session_identity (e : RecoveryEntry) : ScanType * datetime * ScanParams :=
  (scan_type e, start_time e, scan_params e).

Definition progress_of (e : RecoveryEntry) : option N * nat * nat :=
  (last_processed_message e, processed_count e, found_media e).

(** The calls of a sequence that are for channel [c]. *)
Definition calls_for (c : N) (calls : list (datetime * N * gset string))
    : list (datetime * N * gset string) :=
  List.filter (fun call => bool_decide (call.1.2 = c)) calls.

Definition urls_of_calls (calls : list (datetime * N * gset string)) : gset string :=
  ⋃ (map (fun call => call.2) calls).

Definition total_scans_of (c : N) (h : gmap string HistoryEntry) : nat :=
  (ScanHistory.get_channel_stats c h).2.

(** ** More vocabulary: the page fetcher *)

(** The limit the time anchored fetch works with: a limit of zero counts
    as none. *)
Definition effective_limit (limit : option nat) : option nat :=
  match limit with
  | Some (S n) => Some (S n)
  | _ => None
  end.

(** The anchor, if there is one, is not the id of any message of the
    list. *)
Definition anchor_missing (anchor : option N) (l : list Message) : Prop :=
  exists id, anchor = Some id /\ Forall (fun m => msg_id m <> id) l.

(** ** More vocabulary: file names *)

(** The alphabet of a safe string: letters and digits, [-], [_] and [.]. *)
Definition safe_alphabet (c : ascii) : bool :=
  isalnum c || Ascii.eqb c "-" || Ascii.eqb c "_" || Ascii.eqb c ".".

(** No two underscores in a row. *)
Fixpoint no_double_underscore (s : list ascii) : Prop :=
  match s with
  | a :: (b :: _) as t => ~ (a = underscore /\ b = underscore) /\ no_double_underscore t
  | _ => True
  end.

(** ** More vocabulary: the analysis loop *)

(** The URLs the message loop reaches, in order: the attachments of the
    messages that have some and are not written by a bot. *)
Definition reached_urls (messages : list Message) : list string :=
  flat_map (fun m => if nonempty (msg_attachments m) && negb (author_bot (msg_author m))
                     then map att_url (msg_attachments m) else [])
           messages.

(** Those of them that are not skipped. *)
Definition kept (scanned : gset string) (scan_all : bool) (url : string) : bool :=
  negb (negb scan_all && bool_decide (url ∈ scanned)).

Definition found_urls (scanned : gset string) (scan_all : bool)
    (messages : list Message) : list string :=
  List.filter (kept scanned scan_all) (reached_urls messages).

(** The locals of the loop after one attachment, one message, and the
    whole sequence, without the log and the progress writes. *)
Definition attachment_step (scanned : gset string) (scan_all : bool)
    (message : Message) (a : Analysis) (attachment : Attachment) : Analysis :=
  if kept scanned scan_all (att_url attachment)
  then categorize message (att_url attachment) a
  else a.

Definition message_step (scanned : gset string) (scan_all : bool)
    (a : Analysis) (message : Message) : Analysis :=
  if nonempty (msg_attachments message) && negb (author_bot (msg_author message))
  then fold_left (attachment_step scanned scan_all message)
         (msg_attachments message) (count_message a)
  else count_message a.

Definition analysis_result (scanned : gset string) (scan_all : bool)
    (start_counter : nat) (messages : list Message) : Analysis :=
  fold_left (message_step scanned scan_all) messages (start_analysis start_counter).

(** The name filed under a URL, whichever bucket holds it. *)
Definition filed_name (a : Analysis) (url : string) : option string :=
  match an_images a !! url with
  | Some name => Some name
  | None => match an_videos a !! url with
            | Some name => Some name
            | None => an_others a !! url
            end
  end.

(** The URL each event of a trace reports as found. *)
Definition found_url (e : Event) : option string :=
  match e with
  | LogFound _ url => Some url
  | _ => None
  end.

(** The number a run of decimal digits writes, read from the left on top
    of [acc]. *)
Definition decimal_value (acc : N) (s : list ascii) : N :=
  fold_left (fun acc c => (10 * acc + (code c - 48))%N) s acc.

(** Every name of a bucket was generated for its URL with an ordinal
    below the counter, and [owner] tells which URL an ordinal went to. *)
Definition names_generated (owner : nat -> string) (a : Analysis)
    (bucket : gmap string string) : Prop :=
  forall url name, bucket !! url = Some name ->
    exists k message, (k < an_counter a)%nat /\ owner k = url
                      /\ name = attachment_name k message url.

(** Each bucket holds exactly the new URLs of its category. *)
Definition buckets_sorted (a : Analysis) : Prop :=
  forall url,
    (is_Some (an_images a !! url) <-> url ∈ an_new_urls a /\ classify url = Image)
    /\ (is_Some (an_videos a !! url) <-> url ∈ an_new_urls a /\ classify url = Video)
    /\ (is_Some (an_others a !! url) <-> url ∈ an_new_urls a /\ classify url = Other).

(** ** More vocabulary: what a handler step may do *)

(** Every run of [m] takes a world to one related to it by [R]. *)
Definition preserves {A} (R : World -> World -> Prop) (m : M A) : Prop :=
  forall w, R w (m w).2.

(** [m] never raises. *)
Definition returns {A} (m : M A) : Prop :=
  forall w, exists a, (m w).1 = Ret a.

(** No page was requested between [w] and [w']. *)
Definition same_fetches (w w' : World) : Prop :=
  fetches (trace w') = fetches (trace w).

(** The stores hold the same in [w'] as in [w]. *)
Definition same_stores (w w' : World) : Prop :=
  recovery_data w' = recovery_data w /\ history w' = history w
  /\ active_scans w' = active_scans w.

(** What a command on channel [c] may leave behind: for every other
    channel the checkpoint, the history record and the lock are as they
    were; no channel loses a seen URL; the trace is only extended. *)
Definition footprint (c : N) (w w' : World) : Prop :=
  (forall b, b <> c ->
     recovery_data w' !! channel_key b = recovery_data w !! channel_key b
     /\ history w' !! channel_key b = history w !! channel_key b
     /\ active_scans w' !! b = active_scans w !! b)
  /\ (forall b, ScanHistory.get_scanned_urls b (history w)
                ⊆ ScanHistory.get_scanned_urls b (history w'))
  /\ (exists t, trace w' = trace w ++ t).

(** The channel has no interrupted scan in [w]. *)
Definition settled (c : N) (w : World) : Prop :=
  ScanRecovery.get_interrupted_scan c (recovery_data w) = None.

(** [m] returns, and leaves the channel without an interrupted scan. *)
Definition settles {A} (c : N) (m : M A) : Prop :=
  forall w, exists a, (m w).1 = Ret a /\ settled c (m w).2.

(** The recovery store is the same in [w'] as in [w]. *)
Definition same_recovery (w w' : World) : Prop :=
  recovery_data w' = recovery_data w.

(** The lock of channel [c] is free. *)
Definition unlocked (c : N) (w : World) : Prop :=
  default false (active_scans w !! c) = false.

(** ** More vocabulary: checkpoints the resume can read *)

(** A checkpoint carries what [resume_scanning_process] reads from it: a
    time based one its ['since_time'], a count based one a ['limit'] that
    is a number. *)
Definition resumable (e : RecoveryEntry) : bool :=
  match scan_type e with
  | time_based => negb (is_None (sp_since_time (scan_params e)))
  | number_based => negb (is_None (sp_limit (scan_params e)))
  end.

(** What the read of a checkpoint that is not [resumable] raises. *)
Definition resume_error (e : RecoveryEntry) : exn :=
  match scan_type e with
  | time_based => KeyError
  | number_based => TypeError
  end.

(** The bot after a resume that failed with [e]: the two notices, the
    lock written back to free, the stores as they were. *)
Definition after_failed_resume (c : N) (e : exn) (w : World) : World :=
  {| recovery_data := recovery_data w; history := history w;
     active_scans := <[c := false]> (active_scans w); files := files w;
     trace := trace w ++ [Sent Resuming; Sent (ResumeFailed e)] |}.

(** The checkpoint that [scan --all], with no number, starts. *)
Definition scan_all_session (c : N) (start : datetime)
    (r : gmap string RecoveryEntry) : gmap string RecoveryEntry :=
  ScanRecovery.start_scan_session c number_based start
    {| sp_limit := None; sp_scan_all := true; sp_since_time := None |} r.

(** ** More vocabulary: the arguments of a scan *)

(** The numbers among the arguments, in order. *)
Definition numeric_args (parts : list string) : list nat :=
  omap (fun part => if isdigit part then int_of_string part else None) parts.

Definition has_flag (flag : string) (parts : list string) : bool :=
  existsb (fun part => String.eqb part flag) parts.

(** An argument that [isdigit] accepts and [int] does not. *)
Definition unparsable (part : string) : bool :=
  isdigit part && is_None (int_of_string part).

(** What the argument loop leaves in its three variables when it starts
    from [args]: the last number, capped at 500, and the two flags. *)
Definition parsed_from (args : ScanArgs) (parts : list string) : ScanArgs :=
  (match last (numeric_args parts) with
   | Some n => Some (n `min` 500)
   | None => args.1.1
   end,
   args.1.2 || has_flag "--all" parts,
   args.2 || has_flag "--new" parts).

Definition parsed_args (parts : list string) : ScanArgs :=
  parsed_from (None, false, false) parts.

(** The [limit] of the one page a scan with these arguments requests. *)
Definition page_limit (args : ScanArgs) : option nat :=
  let '(number_of_messages, scan_all, scan_from_last) := args in
  if scan_from_last then Some (max_messages number_of_messages * 2)%nat
  else if negb scan_all && is_None number_of_messages then Some 5%nat
  else number_of_messages.

(** The superscript two, a digit for [isdigit] only. *)
Definition superscript_two : string := String (ascii_of_N 178) EmptyString.

(** ** More vocabulary: progress writes *)

(** Between [w] and [w'] the recovery store changed at most by progress
    writes to the checkpoint of [c]. *)
Definition progress_only (c : N) (w w' : World) : Prop :=
  match recovery_data w !! channel_key c with
  | Some e =>
      recovery_data w' = recovery_data w
      \/ exists mid p f,
           recovery_data w'
           = <[channel_key c := ScanRecovery.set_progress mid p f e]> (recovery_data w)
  | None => recovery_data w' = recovery_data w
  end.

(** The checkpoint of [c] after a run over [msgs] that started counting
    from [start] and found [found] files. *)
Definition final_checkpoint (c : N) (msgs : list Message) (start found : nat)
    (r : gmap string RecoveryEntry) : gmap string RecoveryEntry :=
  match r !! channel_key c with
  | Some e =>
      <[channel_key c :=
          ScanRecovery.set_progress (msg_id <$> last msgs)
            (start + List.length msgs) found e]> r
  | None => r
  end.

(** ** More vocabulary: the download prompt *)

(** How many of the three totals are not zero. *)
Definition categories_with_bytes (sizes : N * N * N) : nat :=
  let '(total_image_size, total_video_size, total_other_size) := sizes in
  ((if (0 <? total_image_size)%N then 1 else 0)
   + (if (0 <? total_video_size)%N then 1 else 0)
   + (if (0 <? total_other_size)%N then 1 else 0))%nat.

(** The separator of path components. *)
Definition slash : ascii := "/".

(** ** More vocabulary: the bytes of a report *)

(** The attachments the message loop reaches, in order. *)
Definition reached_attachments (messages : list Message) : list Attachment :=
  flat_map (fun m => if nonempty (msg_attachments m) && negb (author_bot (msg_author m))
                     then msg_attachments m else [])
           messages.

Definition same_category (a b : Category) : bool :=
  match a, b with
  | Image, Image | Video, Video | Other, Other => true
  | _, _ => false
  end.

(** The attachment is not skipped and is of category [cat]. *)
Definition found_as (scanned : gset string) (scan_all : bool) (cat : Category)
    (attachment : Attachment) : bool :=
  kept scanned scan_all (att_url attachment)
  && same_category (classify (att_url attachment)) cat.

(** The bytes of the attachments that satisfy [p], each occurrence
    counted. *)
Definition bytes_of (p : Attachment -> bool) (attachments : list Attachment) : N :=
  fold_right (fun a total => if p a then (att_size a + total)%N else total) 0%N
    attachments.

(** * Properties *)

(** ** The matcher *)

Lemma strip_prefix_spec l s rest :
  strip_prefix l s = Some rest <-> s = l ++ rest.
Proof.
  revert s. induction l as [|a l IH]; intros s; simpl.
  - split; congruence.
  - destruct s as [|b s]; [split; discriminate|].
    destruct (Ascii.eqb_spec a b) as [->|Hne].
    + rewrite IH. split; congruence.
    + split; [discriminate | congruence].
Qed.

Lemma star_k_spec p k s :
  star_k p k s = true <->
  exists a rest, s = a ++ rest /\ forallb p a = true /\ k rest = true.
Proof.
  induction s as [|c s IH]; simpl.
  - split.
    + intros H. exists [], []. auto.
    + intros (a & rest & Hs & _ & Hk).
      symmetry in Hs. apply app_eq_nil in Hs as [-> ->]. exact Hk.
  - rewrite orb_true_iff, andb_true_iff, IH. split.
    + intros [[Hc (a & rest & -> & Ha & Hk)] | Hk].
      * exists (c :: a), rest. simpl. rewrite Hc, Ha. auto.
      * exists [], (c :: s). auto.
    + intros (a & rest & Hs & Ha & Hk). destruct a as [|x a]; simpl in *.
      * right. now subst rest.
      * injection Hs as <- ->. apply andb_true_iff in Ha as [Hx Ha].
        left. split; [exact Hx|]. exists a, rest. auto.
Qed.

Lemma at_end_spec s : at_end s = true <-> s = [] \/ s = [newline].
Proof.
  destruct s as [|c [|d s]]; simpl.
  - intuition.
  - rewrite Ascii.eqb_eq. split; [intros ->; auto | intros [H|H]; congruence].
  - split; [discriminate | intros [H|H]; discriminate].
Qed.

Lemma re_k_spec r : forall s k,
  re_k r s k = true <->
  exists a rest, s = a ++ rest /\ den r a rest /\ k rest = true.
Proof.
  induction r as [l|p|p|r1 IH1 r2 IH2|r1 IH1 r2 IH2|r1 IH1|]; intros s k; simpl.
  - destruct (strip_prefix l s) as [rest|] eqn:E.
    + apply strip_prefix_spec in E. subst s. split.
      * intros Hk. exists l, rest. auto.
      * intros (a & rest' & Hs & -> & Hk). apply app_inv_head in Hs. now subst.
    + split; [discriminate|]. intros (a & rest & Hs & -> & _).
      apply strip_prefix_spec in Hs. congruence.
  - destruct s as [|c s].
    + split; [discriminate|]. intros (a & rest & Hs & (c & -> & _) & _). discriminate.
    + rewrite andb_true_iff. split.
      * intros [Hc Hk]. exists [c], s. split; [reflexivity|]. split; [|exact Hk]. eauto.
      * intros (a & rest & Hs & (x & -> & Hx) & Hk). injection Hs as -> ->. auto.
  - apply star_k_spec.
  - rewrite IH1. split.
    + intros (a1 & rest1 & -> & H1 & H2). apply IH2 in H2 as (a2 & rest & -> & H2 & Hk).
      exists (a1 ++ a2), rest. rewrite <- app_assoc. split; [reflexivity|].
      split; [|exact Hk]. exists a1, a2. auto.
    + intros (a & rest & -> & (a1 & a2 & -> & H1 & H2) & Hk).
      exists a1, (a2 ++ rest). rewrite <- app_assoc. split; [reflexivity|].
      split; [exact H1|]. apply IH2. exists a2, rest. auto.
  - rewrite orb_true_iff, IH1, IH2. split.
    + intros [(a & rest & -> & H & Hk)|(a & rest & -> & H & Hk)];
        exists a, rest; auto.
    + intros (a & rest & -> & [H|H] & Hk); [left|right]; exists a, rest; auto.
  - rewrite orb_true_iff, IH1. split.
    + intros [(a & rest & -> & H & Hk)|Hk].
      * exists a, rest. auto.
      * exists [], s. auto.
    + intros (a & rest & -> & [H| ->] & Hk).
      * left. exists a, rest. auto.
      * right. exact Hk.
  - rewrite andb_true_iff, at_end_spec. split.
    + intros [He Hk]. exists [], s. auto.
    + intros (a & rest & -> & [-> He] & Hk). auto.
Qed.

Lemma re_match_spec r s :
  re_match r s = true <-> exists a rest, s = a ++ rest /\ den r a rest.
Proof.
  unfold re_match. rewrite re_k_spec. split.
  - intros (a & rest & Hs & H & _). eauto.
  - intros (a & rest & Hs & H). exists a, rest. auto.
Qed.

Lemma den_alts e es a rest : den (alts e es) a rest <-> In a (e :: es).
Proof.
  revert e. induction es as [|e' es IH]; intros e; simpl.
  - split; [intros ->; auto | intros [H|[]]; auto].
  - rewrite IH. simpl. split; intros [H|H]; auto.
Qed.

Lemma media_regex_spec e es s :
  re_match (media_regex e es) s = true <-> cdn_media_url (e :: es) s.
Proof.
  rewrite re_match_spec. unfold media_regex, cdn_media_url. split.
  - intros (a & rest & -> & H). simpl in H.
    destruct H as (a1 & b1 & -> & -> & H).
    destruct H as (d1 & b2 & -> & Hd1 & H).
    destruct H as (a3 & b3 & -> & -> & H).
    destruct H as (d2 & b4 & -> & Hd2 & H).
    destruct H as (a5 & b5 & -> & -> & H).
    destruct H as (name & b6 & -> & Hname & H).
    destruct H as (a7 & b7 & -> & -> & H).
    destruct H as (ext & b8 & -> & Hext & H).
    destruct H as (query & b9 & -> & Hq & -> & Hend).
    apply den_alts in Hext.
    exists d1, d2, name, ext, query, rest.
    split; [now rewrite ?app_nil_r, <- ?app_assoc|].
    repeat (split; [assumption|]). split; [|exact Hend].
    destruct Hq as [(a & q & -> & -> & Hq)| ->]; [right; eauto | left; reflexivity].
  - intros (d1 & d2 & name & ext & query & tail & -> & Hd1 & Hd2 & Hname & Hext & Hq & Ht).
    exists (cdn_prefix ++ d1 ++ chars "/" ++ d2 ++ chars "/" ++ name
            ++ chars "." ++ ext ++ query), tail.
    split; [now rewrite <- ?app_assoc|].
    simpl den.
    exists cdn_prefix, (d1 ++ chars "/" ++ d2 ++ chars "/" ++ name ++ chars "." ++ ext ++ query).
    split; [reflexivity|]. split; [reflexivity|].
    exists d1, (chars "/" ++ d2 ++ chars "/" ++ name ++ chars "." ++ ext ++ query).
    split; [reflexivity|]. split; [exact Hd1|].
    exists (chars "/"), (d2 ++ chars "/" ++ name ++ chars "." ++ ext ++ query).
    split; [reflexivity|]. split; [reflexivity|].
    exists d2, (chars "/" ++ name ++ chars "." ++ ext ++ query).
    split; [reflexivity|]. split; [exact Hd2|].
    exists (chars "/"), (name ++ chars "." ++ ext ++ query).
    split; [reflexivity|]. split; [reflexivity|].
    exists name, (chars "." ++ ext ++ query).
    split; [reflexivity|]. split; [exact Hname|].
    exists (chars "."), (ext ++ query).
    split; [reflexivity|]. split; [reflexivity|].
    exists ext, query.
    split; [reflexivity|]. split; [now apply den_alts|].
    exists query, []. split; [now rewrite app_nil_r|]. split; [|auto].
    destruct Hq as [->|(q & -> & Hq)]; [right; reflexivity|left].
    exists (chars "?"), q. auto.
Qed.

(** ** The classifier *)

Ltac each_char c :=
  destruct c as [[] [] [] [] [] [] [] []]; vm_compute; intros; congruence.

Lemma is_decimal_plain c : is_decimal c = true -> plain c = true.
Proof. each_char c. Qed.

Lemma name_char_plain c : name_char c = true -> plain c = true.
Proof. each_char c. Qed.

Lemma lower_char_idem c : lower_char (lower_char c) = lower_char c.
Proof. each_char c. Qed.

Lemma forallb_impl (p q : ascii -> bool) l :
  (forall c, p c = true -> q c = true) -> forallb p l = true -> forallb q l = true.
Proof.
  intros Hpq. induction l as [|c l IH]; simpl; [auto|].
  rewrite !andb_true_iff. intros [Hc Hl]. auto.
Qed.

Lemma take_while_app p a rest :
  forallb p a = true ->
  (rest = [] \/ exists c r, rest = c :: r /\ p c = false) ->
  take_while p (a ++ rest) = a.
Proof.
  intros Ha Hrest. induction a as [|x a IH]; simpl in *.
  - destruct Hrest as [->|(c & r & -> & Hc)]; simpl; [reflexivity|now rewrite Hc].
  - apply andb_true_iff in Ha as [Hx Ha]. rewrite Hx. f_equal. auto.
Qed.

Lemma after_last_none c e acc :
  forallb (fun x => negb (Ascii.eqb x c)) e = true -> after_last c e acc = acc.
Proof.
  revert acc. induction e as [|x e IH]; intros acc; simpl; [reflexivity|].
  rewrite andb_true_iff. intros [Hx He].
  apply negb_true_iff in Hx. rewrite Hx. auto.
Qed.

Lemma after_last_app c a e acc :
  forallb (fun x => negb (Ascii.eqb x c)) e = true ->
  after_last c (a ++ c :: e) acc = e.
Proof.
  intros He. revert acc. induction a as [|x a IH]; intros acc; simpl.
  - rewrite Ascii.eqb_refl. now apply after_last_none.
  - destruct (Ascii.eqb x c); apply IH.
Qed.

Lemma media_ext_chars ext :
  In ext (image_exts ++ video_exts) ->
  forallb plain ext = true /\ forallb no_dot ext = true.
Proof.
  revert ext. apply List.Forall_forall. repeat constructor.
Qed.

Lemma cdn_media_url_extension exts s :
  (forall e, In e exts -> In e (image_exts ++ video_exts)) ->
  cdn_media_url exts s -> In (shown_extension s) exts.
Proof.
  intros Hexts (d1 & d2 & name & ext & query & tail & -> & Hd1 & Hd2 & Hname & Hext & Hq & Ht).
  destruct (media_ext_chars ext (Hexts _ Hext)) as [Hplain Hdot].
  set (front := cdn_prefix ++ d1 ++ chars "/" ++ d2 ++ chars "/" ++ name).
  assert (Hs : cdn_prefix ++ d1 ++ chars "/" ++ d2 ++ chars "/" ++ name
               ++ chars "." ++ ext ++ query ++ tail
               = (front ++ "."%char :: ext) ++ (query ++ tail)).
  { unfold front. now rewrite <- ?app_assoc. }
  rewrite Hs. unfold shown_extension.
  rewrite take_while_app.
  - rewrite after_last_app; [exact Hext | exact Hdot].
  - unfold front. rewrite !forallb_app. simpl.
    rewrite (forallb_impl _ _ _ is_decimal_plain Hd1),
            (forallb_impl _ _ _ is_decimal_plain Hd2),
            (forallb_impl _ _ _ name_char_plain Hname), Hplain.
    reflexivity.
  - destruct Hq as [->|(q & -> & _)].
    + destruct Ht as [->| ->]; [left; reflexivity|right].
      exists newline, []. split; reflexivity.
    + right. exists "?"%char, (q ++ tail). split; reflexivity.
Qed.

Lemma image_video_disjoint s :
  cdn_media_url image_exts s -> cdn_media_url video_exts s -> False.
Proof.
  intros Hi Hv.
  apply cdn_media_url_extension in Hi; [|intros e He; apply in_or_app; auto].
  apply cdn_media_url_extension in Hv; [|intros e He; apply in_or_app; auto].
  revert Hi Hv. generalize (shown_extension s). intros x Hi Hv.
  simpl in Hi, Hv.
  repeat (destruct Hi as [<-|Hi]; [intuition discriminate|]). exact Hi.
Qed.

Lemma is_image_spec url :
  is_image url = true <-> cdn_media_url image_exts (lower (chars url)).
Proof. apply media_regex_spec. Qed.

Lemma is_video_spec url :
  is_video url = true <-> cdn_media_url video_exts (lower (chars url)).
Proof. apply media_regex_spec. Qed.

Lemma chars_str_lower url : lower (chars (str_lower url)) = lower (chars url).
Proof.
  unfold str_lower, chars. rewrite list_ascii_of_string_of_list_ascii.
  unfold lower. rewrite map_map. apply map_ext. intros c. apply lower_char_idem.
Qed.

(** C1, as amended: the classifier is total and case-insensitive, and it
    is a match of the whole URL: the result is Image exactly for the
    lower-cased URLs of the CDN form (prefix
    [https://cdn.discordapp.com/attachments/], two digit runs, a file
    name over [a-z0-9_.-], one of the image extensions, an optional query,
    an optional final newline), Video exactly for the same form with a
    video extension, and Other for everything else. *)
Theorem classify_cdn_pattern (url : string) :
  (classify url = Image <-> cdn_media_url image_exts (lower (chars url)))
  /\ (classify url = Video <-> cdn_media_url video_exts (lower (chars url)))
  /\ (classify url = Other <->
        ~ cdn_media_url image_exts (lower (chars url))
        /\ ~ cdn_media_url video_exts (lower (chars url)))
  /\ classify (str_lower url) = classify url
  /\ classify "https://cdn.discordapp.com/attachments/1/2/foo.PNG" = Image
  /\ classify "https://cdn.discordapp.com/attachments/1/2/foo.png?x=1" = Image
  /\ classify "https://cdn.discordapp.com/attachments/1/2/foo.MP4" = Video
  /\ classify "https://cdn.discordapp.com/attachments/1/2/foo.exe" = Other.
Proof.
  assert (Hd := image_video_disjoint (lower (chars url))).
  pose proof (is_image_spec url) as Hi. pose proof (is_video_spec url) as Hv.
  assert (Hl : classify (str_lower url) = classify url).
  { unfold classify, is_image, is_video. now rewrite chars_str_lower. }
  split; [|split; [|split; [|split; [exact Hl|]]]].
  - rewrite <- Hi. unfold classify.
    destruct (is_image url); [tauto|].
    destruct (is_video url); split; discriminate.
  - rewrite <- Hv. unfold classify.
    destruct (is_image url) eqn:Ei.
    + split; [discriminate|]. intros Ev. exfalso. apply Hd; [now apply Hi | now apply Hv].
    + destruct (is_video url); split; congruence.
  - rewrite <- Hi, <- Hv. unfold classify.
    destruct (is_image url); destruct (is_video url);
      split; try discriminate; try (intros [H1 H2]; congruence); try tauto.
    all: intros _; split; discriminate.
  - repeat split; vm_compute; reflexivity.
Qed.

(** C1 as stated fails: the file name [foo.PNG] is over the allowed
    characters and ends in an image extension, but the URL is not on the
    CDN host, and the classifier answers Other. *)
Lemma classify_other_host :
  file_name_matches image_exts (lower (chars "https://host/a/1/2/foo.PNG"))
  /\ classify "https://host/a/1/2/foo.PNG" = Other.
Proof.
  split; [|vm_compute; reflexivity].
  exists (chars "https://host/a/1/2"), (chars "foo"), (chars "png"), [].
  split; [vm_compute; reflexivity|].
  split; [vm_compute; reflexivity|].
  split; [simpl; auto|left; reflexivity].
Qed.

(** ** The history store *)

Lemma channel_key_inj a b : channel_key a = channel_key b -> a = b.
Proof. unfold channel_key. apply (inj pretty). Qed.

Lemma channel_key_ne a b : a <> b -> channel_key a <> channel_key b.
Proof. intros H E. apply H, channel_key_inj, E. Qed.

Lemma get_scanned_urls_add now a b urls h :
  ScanHistory.get_scanned_urls b (ScanHistory.add_scanned_urls now a urls h)
  = if decide (a = b) then ScanHistory.get_scanned_urls b h ∪ urls
    else ScanHistory.get_scanned_urls b h.
Proof.
  unfold ScanHistory.get_scanned_urls, ScanHistory.add_scanned_urls.
  destruct (decide (a = b)) as [->|Hne].
  - rewrite lookup_insert_eq. simpl. destruct (h !! channel_key b); reflexivity.
  - rewrite lookup_insert_ne by now apply channel_key_ne. reflexivity.
Qed.

Lemma record_all_grows calls : forall h c,
  ScanHistory.get_scanned_urls c h ⊆ ScanHistory.get_scanned_urls c (record_all calls h).
Proof.
  induction calls as [|[[now a] urls] calls IH]; intros h c; simpl.
  - reflexivity.
  - etransitivity; [|apply IH]. simpl. rewrite get_scanned_urls_add.
    destruct (decide (a = c)); set_solver.
Qed.

(** C9: [add_scanned_urls] leaves the channel's seen set equal to the
    union of its previous value and the new URLs, sets the last scan time
    to the clock reading, adds one to the scan counter, and over any
    sequence of such calls every channel's seen set only grows. *)
Theorem add_scanned_urls_merges (now : datetime) (c : N) (urls : gset string)
    (h : gmap string HistoryEntry) :
  let h' := ScanHistory.add_scanned_urls now c urls h in
  ScanHistory.get_scanned_urls c h' = ScanHistory.get_scanned_urls c h ∪ urls
  /\ ScanHistory.get_last_scan_time c h' = Some now
  /\ (ScanHistory.get_channel_stats c h').2 = ((ScanHistory.get_channel_stats c h).2 + 1)%nat
  /\ ScanHistory.get_scanned_urls c h ⊆ ScanHistory.get_scanned_urls c h'
  /\ forall calls c',
       ScanHistory.get_scanned_urls c' h
       ⊆ ScanHistory.get_scanned_urls c' (record_all calls h).
Proof.
  simpl. split; [|split; [|split; [|split]]].
  - rewrite get_scanned_urls_add. now rewrite decide_True.
  - unfold ScanHistory.get_last_scan_time, ScanHistory.add_scanned_urls.
    now rewrite lookup_insert_eq.
  - unfold ScanHistory.get_channel_stats, ScanHistory.add_scanned_urls.
    rewrite lookup_insert_eq. simpl. destruct (h !! channel_key c); reflexivity.
  - rewrite get_scanned_urls_add. rewrite decide_True by reflexivity. set_solver.
  - intros calls c'. apply record_all_grows.
Qed.

(** C10: recording URLs for, or clearing, channel [a] leaves the stored
    record of every other channel [b] as it was. *)
Theorem history_frame (now : datetime) (a b : N) (urls : gset string)
    (h : gmap string HistoryEntry) :
  a <> b ->
  ScanHistory.add_scanned_urls now a urls h !! channel_key b = h !! channel_key b
  /\ ScanHistory.clear_channel_history a h !! channel_key b = h !! channel_key b.
Proof.
  intros Hne. apply channel_key_ne in Hne.
  unfold ScanHistory.add_scanned_urls, ScanHistory.clear_channel_history.
  split; [now apply lookup_insert_ne | now apply lookup_delete_ne].
Qed.

Lemma history_frame_witness :
  let now := {| year := 2024; month := 5; day := 17; hour := 9; minute := 30;
                second := 0; microsecond := 0; tzinfo := None |} in
  let h : gmap string HistoryEntry :=
    {[ channel_key 2 := {| scanned_urls := {["https://cdn.discordapp.com/attachments/1/2/a.png"]};
                           last_scan := None; total_scans := 3 |} ]} in
  (1 <> 2)%N
  /\ ScanHistory.add_scanned_urls now 1 {["https://cdn.discordapp.com/attachments/1/2/b.png"]} h
       !! channel_key 2 = h !! channel_key 2
  /\ ScanHistory.clear_channel_history 1 h !! channel_key 2 = h !! channel_key 2.
Proof.
  intros now h. split; [discriminate|].
  apply (history_frame now 1 2); discriminate.
Defined.

(** ** The analysis loop: one attachment *)

Lemma emit_eq e w : emit e w = (Ret tt, snoc_trace w e).
Proof. reflexivity. Qed.

Lemma categorize_counter message url a :
  an_counter (categorize message url a) = (an_counter a + 1)%nat.
Proof. reflexivity. Qed.

Lemma categorize_changes message url a : categorize message url a <> a.
Proof.
  intros H. apply (f_equal an_counter) in H. rewrite categorize_counter in H. lia.
Qed.

Lemma categorize_bucket message url a :
  let name := attachment_name (an_counter a) message url in
  let a' := categorize message url a in
  match classify url with
  | Image => an_images a' !! url = Some name
  | Video => an_videos a' !! url = Some name
  | Other => an_others a' !! url = Some name
  end.
Proof.
  simpl. unfold categorize. destruct (classify url); simpl; apply lookup_insert_eq.
Qed.

(** C2, as amended: with [scan_all] off, an attachment that the loop
    reaches is skipped exactly when its URL is in the set [scanned] that
    was read from the History Store before the loop; nothing found during
    the run is added to that set.  A skipped attachment leaves every local
    of the loop as it was (no ordinal, no name, no bucket); any other one
    takes the current ordinal, is filed under its URL with the generated
    name in the bucket of its category, and is marked as newly found.  The
    attachments of a message written by a bot are not reached: such a
    message is counted and nothing more. *)
Theorem attachment_skipped_iff_in_history (scanned : gset string) (c : N)
    (message : Message) (a : Analysis) (attachment : Attachment) (w : World) :
  let url := att_url attachment in
  let r := analyze_attachment scanned false message a attachment w in
  (url ∈ scanned <-> r = (Ret a, snoc_trace w (LogSkipping url)))
  /\ (url ∉ scanned <->
        r = (Ret (categorize message url a),
             snoc_trace w (LogFound (an_counter a) url)))
  /\ (url ∈ scanned <-> r.1 = Ret a)
  /\ an_counter (categorize message url a) = (an_counter a + 1)%nat
  /\ url ∈ an_new_urls (categorize message url a)
  /\ match classify url with
     | Image => an_images (categorize message url a) !! url
     | Video => an_videos (categorize message url a) !! url
     | Other => an_others (categorize message url a) !! url
     end = Some (attachment_name (an_counter a) message url)
  /\ (author_bot (msg_author message) = true ->
      (analyze_message scanned false c a message w).1 = Ret (count_message a)).
Proof.
  assert (Hbot : author_bot (msg_author message) = true ->
                 (analyze_message scanned false c a message w).1 = Ret (count_message a)).
  { intros Hb. unfold analyze_message. rewrite Hb, andb_false_r.
    unfold bind at 1, ret at 1.
    destruct (an_processed_count (count_message a) mod 10 =? 0)%nat; reflexivity. }
  simpl. unfold analyze_attachment. simpl.
  destruct (decide (att_url attachment ∈ scanned)) as [Hin|Hout].
  - rewrite bool_decide_eq_true_2 by exact Hin. unfold bind. rewrite emit_eq. simpl.
    split; [tauto|]. split; [|split; [tauto|]].
    + split; [tauto|]. intros H. injection H as H _. symmetry in H.
      now apply categorize_changes in H.
    + split; [reflexivity|]. split; [simpl; set_solver|]. split; [|exact Hbot].
      pose proof (categorize_bucket message (att_url attachment) a) as Hb. simpl in Hb.
      destruct (classify (att_url attachment)); exact Hb.
  - rewrite bool_decide_eq_false_2 by exact Hout. unfold bind. rewrite emit_eq. simpl.
    split; [|split; [tauto|split]].
    + split; [tauto|]. intros H. injection H as H _.
      now apply categorize_changes in H.
    + split; [tauto|]. intros H. injection H as H. now apply categorize_changes in H.
    + split; [reflexivity|]. split; [simpl; set_solver|]. split; [|exact Hbot].
      pose proof (categorize_bucket message (att_url attachment) a) as Hb. simpl in Hb.
      destruct (classify (att_url attachment)); exact Hb.
Qed.

(** C2 as stated fails: after the first message the URL is among those
    categorized earlier in the run, so it is in the union of the history's
    seen set and the URLs found so far; the same URL on the second message
    is analysed again all the same: it takes ordinal 2 and replaces the
    name filed under the URL. *)
Lemma duplicate_url_not_skipped :
  let m1 := sample_message 11 0 [sample_png] in
  let m2 := sample_message 10 1 [sample_png] in
  let seen := ScanHistory.get_scanned_urls 7 (history empty_world) in
  let first := foldM (analyze_message seen false 7) (start_analysis 0) [m1] empty_world in
  exists a1,
    first.1 = Ret a1
    /\ sample_png ∈ seen ∪ an_new_urls a1
    /\ analyze_attachment seen false m2 (count_message a1)
         {| att_url := sample_png; att_size := 1024 |} first.2
       = (Ret (categorize m2 sample_png (count_message a1)),
          snoc_trace first.2 (LogFound 2 sample_png))
    /\ an_images (categorize m2 sample_png (count_message a1)) !! sample_png
       = Some "0002_2024-05-17_09-30-01_alice.png".
Proof.
  eexists. split; [vm_compute; reflexivity|].
  split; [vm_compute; set_solver|].
  split; vm_compute; reflexivity.
Qed.

(** ** Resuming a count based scan *)

Lemma from_point_loop_length last limit page : forall found_start messages,
  (List.length (from_point_loop last limit page found_start messages)
   <= Nat.max limit (List.length messages + 1))%nat.
Proof.
  induction page as [|m page IH]; intros found_start messages; simpl.
  - lia.
  - destruct found_start; simpl.
    + destruct (Nat.leb_spec limit (List.length (messages ++ [m]))) as [Hle|Hlt].
      * rewrite length_app in *. simpl in *. lia.
      * specialize (IH true (messages ++ [m])).
        rewrite length_app in *. simpl in *. lia.
    + apply IH.
Qed.

(** C5: a resumed count based scan fetches with the limit
    [limit - processed_count], collecting at most that many messages; when
    the difference is not positive it fetches nothing, analyses nothing,
    and marks the checkpoint completed. *)
Theorem resume_count_based_limit (env : Env) (cmd : Command)
    (last_message_id : option N) (w : World) (e : RecoveryEntry) (limit : nat) :
  recovery_data w !! channel_key (channel_id cmd) = Some e ->
  scan_type e = number_based ->
  sp_limit (scan_params e) = Some limit ->
  let remaining := (limit - processed_count e)%nat in
  ((0 < remaining)%nat ->
     exists message_history,
       resume_fetch env (channel_id cmd) e last_message_id w
       = (Ret (Some message_history),
          snoc_trace w (Fetched (Some (remaining * 2)%nat)))
       /\ get_messages_from_point env last_message_id remaining w
          = (Ret message_history, snoc_trace w (Fetched (Some (remaining * 2)%nat)))
       /\ (List.length message_history <= remaining)%nat)
  /\ ((limit <= processed_count e)%nat ->
       let w' := with_recovery (snoc_trace w (Sent ResumeAlreadyComplete))
                   (<[channel_key (channel_id cmd) := ScanRecovery.set_completed e]>
                      (recovery_data w)) in
       resume_scanning_process env cmd last_message_id w = (Ret tt, w')
       /\ ScanRecovery.get_interrupted_scan (channel_id cmd) (recovery_data w') = None
       /\ status <$> recovery_data w' !! channel_key (channel_id cmd) = Some completed
       /\ history w' = history w).
Proof.
  intros He Hty Hlim remaining. split.
  - intros Hpos. eexists. unfold resume_fetch. rewrite Hty, Hlim.
    destruct (Nat.leb_spec limit (processed_count e)) as [Hle|Hlt]; [unfold remaining in Hpos; lia|].
    split; [reflexivity|]. split; [reflexivity|].
    etransitivity; [apply from_point_loop_length|]. simpl. fold remaining. lia.
  - intros Hle w'.
    assert (Hrun : resume_scanning_process env cmd last_message_id w = (Ret tt, w')).
    { unfold resume_scanning_process, read_entry, get_recovery, get_history, bind at 1 2.
      rewrite He. unfold ret at 1. unfold bind at 1. unfold bind at 1.
      unfold resume_fetch. rewrite Hty, Hlim.
      apply Nat.leb_le in Hle. rewrite Hle.
      unfold bind, send, complete_scan_session, modify_recovery, ret. rewrite emit_eq.
      unfold ScanRecovery.complete_scan_session. simpl. rewrite He. reflexivity. }
    split; [exact Hrun|]. unfold w'. simpl.
    unfold ScanRecovery.get_interrupted_scan. rewrite lookup_insert_eq. simpl.
    auto.
Qed.

(** ** The analysis loop: traces *)

Ltac finish :=
  repeat match goal with |- _ /\ _ => split end;
  try assumption; try reflexivity; try lia.

Lemma extends_refl w : extends w w [].
Proof. unfold extends. now rewrite app_nil_r. Qed.

Lemma extends_trans w1 w2 w3 t1 t2 :
  extends w1 w2 t1 -> extends w2 w3 t2 -> extends w1 w3 (t1 ++ t2).
Proof.
  intros (H1 & H2 & H3 & H4 & H5) (G1 & G2 & G3 & G4 & G5). unfold extends.
  rewrite G1, H1, app_assoc. repeat split; congruence.
Qed.

Lemma extends_snoc w e : extends w (snoc_trace w e) [e].
Proof. unfold extends. simpl. auto. Qed.

Lemma update_scan_progress_run c mid p f w :
  exists w', update_scan_progress c mid p f w = (Ret tt, w')
             /\ extends w w' [UpdateProgress c mid p f].
Proof.
  unfold update_scan_progress, bind. rewrite emit_eq.
  unfold modify_recovery. eexists. split; [reflexivity|].
  unfold extends. simpl. repeat split.
  unfold ScanRecovery.update_scan_progress.
  destruct (recovery_data w !! channel_key c) as [e|] eqn:E; [|reflexivity].
  rewrite dom_insert_L. apply subseteq_union_1_L, singleton_subseteq_l.
  now apply elem_of_dom_2 in E.
Qed.

Lemma attachments_run scanned scan_all message atts : forall a w,
  exists a' w' t,
    foldM (analyze_attachment scanned scan_all message) a atts w = (Ret a', w')
    /\ extends w w' t
    /\ progress_calls t = []
    /\ fetches t = []
    /\ found_counters t = seq (an_counter a) (an_found_media a' - an_found_media a)
    /\ (an_found_media a <= an_found_media a')%nat
    /\ an_counter a' = (an_counter a + (an_found_media a' - an_found_media a))%nat
    /\ an_processed_count a' = an_processed_count a.
Proof.
  induction atts as [|att atts IH]; intros a w; simpl.
  - exists a, w, []. rewrite Nat.sub_diag, Nat.add_0_r.
    split; [reflexivity|]. split; [apply extends_refl|]. finish.
  - unfold bind at 1. unfold analyze_attachment at 1.
    destruct (negb scan_all && bool_decide (att_url att ∈ scanned)).
    + unfold bind at 1. rewrite emit_eq. unfold ret at 1.
      destruct (IH a (snoc_trace w (LogSkipping (att_url att))))
        as (a' & w' & t & Hrun & Hext & Hp & Hf & Hc & Hle & Hcnt & Hpc).
      exists a', w', ([LogSkipping (att_url att)] ++ t).
      split; [exact Hrun|].
      split; [eapply extends_trans; [apply extends_snoc|exact Hext]|].
      unfold progress_calls, fetches, found_counters in *.
      rewrite !omap_app, Hp, Hf, Hc. finish.
    + unfold bind at 1. rewrite emit_eq. unfold ret at 1.
      set (a1 := categorize message (att_url att) a).
      destruct (IH a1 (snoc_trace w (LogFound (an_counter a) (att_url att))))
        as (a' & w' & t & Hrun & Hext & Hp & Hf & Hc & Hle & Hcnt & Hpc).
      exists a', w', ([LogFound (an_counter a) (att_url att)] ++ t).
      split; [exact Hrun|].
      split; [eapply extends_trans; [apply extends_snoc|exact Hext]|].
      unfold progress_calls, fetches, found_counters in *.
      rewrite !omap_app, Hp, Hf, Hc.
      assert (H1 : an_found_media a1 = (an_found_media a + 1)%nat) by reflexivity.
      assert (H2 : an_counter a1 = (an_counter a + 1)%nat) by reflexivity.
      assert (H3 : an_processed_count a1 = an_processed_count a) by reflexivity.
      rewrite H1, H2 in *. rewrite H3 in Hpc.
      replace (an_found_media a' - an_found_media a)%nat
        with (S (an_found_media a' - (an_found_media a + 1)))%nat by lia.
      simpl. rewrite Nat.add_1_r.
      finish.
Qed.

Lemma every_tenth_single p m :
  every_tenth p [m]
  = if (S p mod 10 =? 0)%nat then [(Some (msg_id m), S p)] else [].
Proof. cbn [every_tenth]. apply app_nil_r. Qed.

Lemma every_tenth_cons p m msgs :
  every_tenth p (m :: msgs) = every_tenth p [m] ++ every_tenth (S p) msgs.
Proof. cbn [every_tenth]. now rewrite app_nil_r. Qed.

Lemma message_run scanned scan_all c a m w :
  exists a' w' t,
    analyze_message scanned scan_all c a m w = (Ret a', w')
    /\ extends w w' t
    /\ progress_calls t = every_tenth (an_processed_count a) [m]
    /\ fetches t = []
    /\ found_counters t = seq (an_counter a) (an_found_media a' - an_found_media a)
    /\ (an_found_media a <= an_found_media a')%nat
    /\ an_counter a' = (an_counter a + (an_found_media a' - an_found_media a))%nat
    /\ an_processed_count a' = S (an_processed_count a).
Proof.
  unfold analyze_message.
  assert (Hatt : exists a1 w1 t1,
    (if nonempty (msg_attachments m) && negb (author_bot (msg_author m))
     then foldM (analyze_attachment scanned scan_all m) (count_message a) (msg_attachments m)
     else ret (count_message a)) w = (Ret a1, w1)
    /\ extends w w1 t1 /\ progress_calls t1 = [] /\ fetches t1 = []
    /\ found_counters t1 = seq (an_counter a) (an_found_media a1 - an_found_media a)
    /\ (an_found_media a <= an_found_media a1)%nat
    /\ an_counter a1 = (an_counter a + (an_found_media a1 - an_found_media a))%nat
    /\ an_processed_count a1 = S (an_processed_count a)).
  { destruct (nonempty (msg_attachments m) && negb (author_bot (msg_author m))).
    - destruct (attachments_run scanned scan_all m (msg_attachments m) (count_message a) w)
        as (a1 & w1 & t1 & Hrun & Hext & Hp & Hf & Hc & Hle & Hcnt & Hpc).
      exists a1, w1, t1. simpl in *. rewrite Hpc, Nat.add_1_r. finish.
    - exists (count_message a), w, []. simpl.
      rewrite Nat.sub_diag, Nat.add_0_r, Nat.add_1_r.
      split; [reflexivity|]. split; [apply extends_refl|]. finish. }
  destruct Hatt as (a1 & w1 & t1 & Hrun & Hext & Hp & Hf & Hc & Hle & Hcnt & Hpc).
  unfold bind at 1. rewrite Hrun. rewrite every_tenth_single, <- Hpc.
  destruct (an_processed_count a1 mod 10 =? 0)%nat.
  - destruct (update_scan_progress_run c (Some (msg_id m)) (an_processed_count a1)
                (an_found_media a1) w1) as (w2 & Hup & Hext2).
    unfold bind. rewrite Hup. unfold ret.
    exists a1, w2, (t1 ++ [UpdateProgress c (Some (msg_id m)) (an_processed_count a1)
                            (an_found_media a1)]).
    split; [reflexivity|]. split; [eapply extends_trans; eassumption|].
    unfold progress_calls, fetches, found_counters in *.
    rewrite !omap_app, Hp, Hf, Hc. simpl. rewrite app_nil_r. finish.
  - exists a1, w1, t1. unfold ret. finish.
Qed.

Lemma messages_run scanned scan_all c msgs : forall a w,
  exists a' w' t,
    foldM (analyze_message scanned scan_all c) a msgs w = (Ret a', w')
    /\ extends w w' t
    /\ progress_calls t = every_tenth (an_processed_count a) msgs
    /\ fetches t = []
    /\ found_counters t = seq (an_counter a) (an_found_media a' - an_found_media a)
    /\ (an_found_media a <= an_found_media a')%nat
    /\ an_counter a' = (an_counter a + (an_found_media a' - an_found_media a))%nat
    /\ an_processed_count a' = (an_processed_count a + List.length msgs)%nat.
Proof.
  induction msgs as [|m msgs IH]; intros a w.
  - exists a, w, []. simpl. rewrite Nat.sub_diag, !Nat.add_0_r.
    split; [reflexivity|]. split; [apply extends_refl|]. finish.
  - destruct (message_run scanned scan_all c a m w)
      as (a1 & w1 & t1 & Hrun1 & Hext1 & Hp1 & Hf1 & Hc1 & Hle1 & Hcnt1 & Hpc1).
    destruct (IH a1 w1)
      as (a2 & w2 & t2 & Hrun2 & Hext2 & Hp2 & Hf2 & Hc2 & Hle2 & Hcnt2 & Hpc2).
    exists a2, w2, (t1 ++ t2).
    split; [simpl; unfold bind; now rewrite Hrun1|].
    split; [eapply extends_trans; eassumption|].
    unfold progress_calls, fetches, found_counters in *.
    rewrite !omap_app, Hp1, Hp2, Hf1, Hf2, Hc1, Hc2, Hpc1.
    split; [symmetry; apply every_tenth_cons|].
    split; [reflexivity|].
    split.
    { replace (an_found_media a2 - an_found_media a)%nat
        with ((an_found_media a1 - an_found_media a)
              + (an_found_media a2 - an_found_media a1))%nat by lia.
      rewrite seq_app. f_equal. f_equal. lia. }
    simpl. repeat split; lia.
Qed.

Lemma analysis_run_trace msgs scanned scan_all c start w :
  exists a w' t,
    analysis_run msgs scanned scan_all c start w = (Ret a, w')
    /\ extends w w' t
    /\ progress_calls t
       = every_tenth start msgs ++ [(msg_id <$> last msgs, (start + List.length msgs)%nat)]
    /\ fetches t = []
    /\ found_counters t = seq (start + 1) (an_found_media a)
    /\ an_counter a = (start + 1 + an_found_media a)%nat
    /\ an_processed_count a = (start + List.length msgs)%nat
    /\ last t = Some (UpdateProgress c (msg_id <$> last msgs)
                        (start + List.length msgs) (an_found_media a)).
Proof.
  unfold analysis_run.
  destruct (messages_run scanned scan_all c msgs (start_analysis start) w)
    as (a & w1 & t1 & Hrun & Hext & Hp & Hf & Hc & Hle & Hcnt & Hpc).
  simpl in Hp, Hc, Hcnt, Hpc. rewrite Nat.sub_0_r in *.
  destruct (update_scan_progress_run c (msg_id <$> last msgs) (an_processed_count a)
              (an_found_media a) w1) as (w2 & Hup & Hext2).
  unfold bind at 1. rewrite Hrun. unfold bind. rewrite Hup. unfold ret.
  exists a, w2, (t1 ++ [UpdateProgress c (msg_id <$> last msgs) (an_processed_count a)
                          (an_found_media a)]).
  split; [reflexivity|]. split; [eapply extends_trans; eassumption|].
  unfold progress_calls, fetches, found_counters in *.
  rewrite !omap_app, Hp, Hf, Hc, Hpc, last_snoc. simpl. rewrite app_nil_r.
  finish.
Qed.

Lemma elem_of_every_tenth x processed msgs :
  x ∈ every_tenth processed msgs <->
  exists k m, msgs !! k = Some m
              /\ x = (Some (msg_id m), (processed + k + 1)%nat)
              /\ ((processed + k + 1) mod 10 = 0)%nat.
Proof.
  revert processed. induction msgs as [|m msgs IH]; intros processed; cbn [every_tenth].
  - split; [intros H; inversion H | intros (k & m & H & _); discriminate].
  - rewrite elem_of_app, IH. split.
    + intros [H|(k & m' & Hk & -> & Hmod)].
      * destruct (Nat.eqb_spec (S processed mod 10) 0) as [E|E]; [|inversion H].
        apply list_elem_of_singleton in H as ->.
        exists 0%nat, m. rewrite Nat.add_0_r, Nat.add_1_r. auto.
      * exists (S k), m'. replace (processed + S k + 1)%nat with (S processed + k + 1)%nat by lia.
        auto.
    + intros ([|k] & m' & Hk & -> & Hmod); simpl in Hk.
      * injection Hk as ->. left. rewrite Nat.add_0_r, Nat.add_1_r in *.
        rewrite Hmod. simpl. apply list_elem_of_singleton. reflexivity.
      * right. exists k, m'. replace (S processed + k + 1)%nat with (processed + S k + 1)%nat by lia.
        auto.
Qed.

(** C4: over a non-empty message sequence the loop calls
    [update_scan_progress] for exactly the messages that bring the
    processed count to a multiple of ten, each time with that message's id
    and that count, and then once more, whatever the count, with the id of
    the last message and the total. *)
Theorem progress_every_tenth_and_final (msgs : list Message) (scanned : gset string)
    (scan_all : bool) (c : N) (start : nat) (w : World) :
  msgs <> [] ->
  exists a w' t final,
    analysis_run msgs scanned scan_all c start w = (Ret a, w')
    /\ trace w' = trace w ++ t
    /\ last msgs = Some final
    /\ progress_calls t
       = every_tenth start msgs ++ [(Some (msg_id final), (start + List.length msgs)%nat)]
    /\ last t = Some (UpdateProgress c (Some (msg_id final))
                        (start + List.length msgs) (an_found_media a))
    /\ forall x, x ∈ every_tenth start msgs <->
         exists k m, msgs !! k = Some m
                     /\ x = (Some (msg_id m), (start + k + 1)%nat)
                     /\ ((start + k + 1) mod 10 = 0)%nat.
Proof.
  intros Hne.
  destruct (analysis_run_trace msgs scanned scan_all c start w)
    as (a & w' & t & Hrun & Hext & Hp & _ & _ & _ & _ & Hlast).
  destruct (last msgs) as [final|] eqn:El.
  - exists a, w', t, final. simpl in *.
    split; [exact Hrun|]. split; [apply Hext|]. split; [reflexivity|].
    split; [exact Hp|]. split; [exact Hlast|].
    intros x. apply elem_of_every_tenth.
  - apply last_None in El. contradiction.
Qed.

(** ** Steps that give out no ordinal *)

Lemma silent_ret {A} (a : A) : silent (ret a).
Proof. intros w. reflexivity. Qed.

Lemma silent_raise {A} e : silent (@raise A e).
Proof. intros w. reflexivity. Qed.

Lemma silent_bind {A B} (m : M A) (k : A -> M B) :
  silent m -> (forall a, silent (k a)) -> silent (bind m k).
Proof.
  intros Hm Hk w. unfold bind. specialize (Hm w).
  destruct (m w) as [[a|e] w1]; simpl in *.
  - now rewrite Hk.
  - exact Hm.
Qed.

Lemma silent_emit e : found_counter e = None -> silent (emit e).
Proof.
  intros He w. rewrite emit_eq. simpl. unfold found_counters.
  rewrite omap_app. simpl. rewrite He. apply app_nil_r.
Qed.

Lemma silent_send n : silent (send n).
Proof. now apply silent_emit. Qed.

Lemma silent_modify_recovery f : silent (modify_recovery f).
Proof. intros w. reflexivity. Qed.

Lemma silent_modify_history f : silent (modify_history f).
Proof. intros w. reflexivity. Qed.

Lemma silent_get_recovery : silent get_recovery.
Proof. intros w. reflexivity. Qed.

Lemma silent_get_history : silent get_history.
Proof. intros w. reflexivity. Qed.

Lemma silent_write_file path content : silent (write_file path content).
Proof. intros w. reflexivity. Qed.

Lemma silent_mapM {A B} (f : A -> M B) l :
  (forall a, silent (f a)) -> silent (mapM f l).
Proof.
  intros Hf. induction l as [|a l IH]; simpl.
  - apply silent_ret.
  - apply silent_bind; [apply Hf|]. intros b.
    apply silent_bind; [exact IH|]. intros bs. apply silent_ret.
Qed.

Create HintDb silent.
#[local] Hint Resolve silent_ret silent_raise silent_send silent_modify_recovery
  silent_modify_history silent_get_recovery silent_get_history
  silent_write_file : silent.

Ltac silence :=
  repeat first
    [ solve [auto with silent nocore]
    | apply silent_emit; reflexivity
    | apply silent_bind; [|intros ?]
    | match goal with
      | |- silent (if ?b then _ else _) => destruct b
      | |- silent (match ?x with _ => _ end) => destruct x
      end ].

Lemma silent_download_media env folder task : silent (download_media env folder task).
Proof. unfold download_media. destruct task as [url name]. silence. Qed.
#[local] Hint Resolve silent_download_media : silent.

Lemma silent_process_download env cmd selection images videos others :
  silent (process_download env cmd selection images videos others).
Proof.
  unfold process_download. silence.
  apply silent_mapM. intros task. apply silent_download_media.
Qed.
#[local] Hint Resolve silent_process_download : silent.

Lemma silent_handle_download_options env cmd images videos others sizes :
  silent (handle_download_options env cmd images videos others sizes).
Proof. unfold handle_download_options. silence. Qed.

Lemma silent_record_new_urls env c urls : silent (record_new_urls env c urls).
Proof. unfold record_new_urls. silence. Qed.

Lemma silent_complete_scan_session c : silent (complete_scan_session c).
Proof. apply silent_modify_recovery. Qed.

Lemma silent_read_entry c : silent (read_entry c).
Proof. unfold read_entry. silence. Qed.

Lemma silent_channel_history env limit : silent (channel_history env limit).
Proof. unfold channel_history. silence. Qed.
#[local] Hint Resolve silent_handle_download_options silent_record_new_urls
  silent_complete_scan_session silent_read_entry silent_channel_history : silent.

Lemma silent_resume_fetch env c e last : silent (resume_fetch env c e last).
Proof.
  unfold resume_fetch, get_messages_since_time, get_messages_from_point.
  silence.
Qed.

Lemma analysis_counters msgs scanned scan_all c start w :
  exists k r w',
    analyze_messages_with_recovery msgs scanned scan_all c start w = (Ret r, w')
    /\ found_counters (trace w') = found_counters (trace w) ++ seq (start + 1) k.
Proof.
  destruct (analysis_run_trace msgs scanned scan_all c start w)
    as (a & w' & t & Hrun & Hext & _ & _ & Hc & _).
  exists (an_found_media a). eexists. exists w'.
  unfold analyze_messages_with_recovery, bind. rewrite Hrun. unfold ret.
  split; [reflexivity|].
  destruct Hext as [-> _]. unfold found_counters in *. now rewrite omap_app, Hc.
Qed.

(** C3, as amended: on the resume path the ordinals given to newly found
    media are [processed_count + 1], [processed_count + 2], ... in order,
    where [processed_count] is the checkpoint's count of processed
    messages; nothing is said about the ordinals given out before the
    interruption. *)
Theorem resume_ordinals_continue (env : Env) (cmd : Command)
    (last_message_id : option N) (w : World) (e : RecoveryEntry) :
  recovery_data w !! channel_key (channel_id cmd) = Some e ->
  exists k,
    found_counters (trace (resume_scanning_process env cmd last_message_id w).2)
    = found_counters (trace w) ++ seq (processed_count e + 1) k.
Proof.
  intros He. unfold resume_scanning_process.
  unfold bind at 1. unfold read_entry, get_recovery. unfold bind at 1. rewrite He.
  unfold ret at 1. unfold bind at 1. unfold get_history at 1. unfold bind at 1.
  pose proof (silent_resume_fetch env (channel_id cmd) e last_message_id w) as Hf.
  destruct (resume_fetch env (channel_id cmd) e last_message_id w)
    as [[[msgs|]|x] w1]; simpl in Hf.
  - destruct (nonempty msgs).
    + destruct (analysis_counters msgs (ScanHistory.get_scanned_urls (channel_id cmd) (history w))
                  (sp_scan_all (scan_params e)) (channel_id cmd) (processed_count e) w1)
        as (k & r & w2 & Hrun & Hc).
      exists k. unfold bind at 1. rewrite Hrun. rewrite <- Hf, <- Hc.
      destruct r as [[[images videos] others] new_urls].
      match goal with |- found_counters (trace (?m w2).2) = _ =>
        assert (Hs : silent m); [|apply Hs] end.
      silence.
    + exists 0%nat. cbn [seq]. rewrite app_nil_r, <- Hf.
      match goal with |- found_counters (trace (?m w1).2) = _ =>
        assert (Hs : silent m); [|apply Hs] end.
      silence.
    - exists 0%nat. simpl. now rewrite app_nil_r.
    - exists 0%nat. simpl. now rewrite app_nil_r.
Qed.

(** ** The time anchored fetch *)

Lemma since_time_skip since limit anchor page messages count :
  since_time_loop since limit anchor page (is_None anchor) messages count
  = since_time_loop since limit anchor (drop_through anchor page) true messages count.
Proof.
  destruct anchor as [id|]; simpl.
  - induction page as [|m page IH]; simpl; [reflexivity|].
    destruct (is_anchor (Some id) m); simpl; [|exact IH].
    destruct page; reflexivity.
  - destruct page; reflexivity.
Qed.

Lemma since_time_collect_limited since n anchor page : forall messages,
  (List.length messages <= n)%nat ->
  since_time_loop since (Some (S n)) anchor page true messages (List.length messages)
  = messages ++ take (S n - List.length messages) (newer_prefix since page).
Proof.
  induction page as [|m page IH]; intros messages Hlen.
  - simpl. rewrite take_nil. now rewrite app_nil_r.
  - cbn [since_time_loop newer_prefix negb]. unfold newer.
    destruct (naive_le (strip_zone (msg_created_at m)) (strip_zone since)); cbn [negb].
    + rewrite take_nil. now rewrite app_nil_r.
    + cbn [limit_reached].
      replace (List.length messages + 1)%nat with (List.length (messages ++ [m]))
        by (rewrite length_app; reflexivity).
      destruct (Nat.leb_spec (S n) (List.length (messages ++ [m]))) as [Hge|Hlt].
      * rewrite length_app in Hge. simpl in Hge.
        replace (S n - List.length messages)%nat with 1%nat by lia.
        simpl. now rewrite take_0.
      * rewrite IH by (rewrite length_app in *; simpl in *; lia).
        rewrite length_app. simpl.
        replace (S n - List.length messages)%nat
          with (S (n - List.length messages))%nat by (rewrite length_app in Hlt; simpl in Hlt; lia).
        simpl. rewrite <- app_assoc. simpl. do 3 f_equal. lia.
Qed.

Lemma since_time_collect_unlimited since limit anchor page : forall messages count,
  (limit = None \/ limit = Some 0%nat) ->
  since_time_loop since limit anchor page true messages count
  = messages ++ newer_prefix since page.
Proof.
  intros messages count Hl.
  assert (Hr : forall c, limit_reached limit c = false)
    by (intros c; destruct Hl as [-> | ->]; reflexivity).
  revert messages count. induction page as [|m page IH]; intros messages count.
  - simpl. now rewrite app_nil_r.
  - cbn [since_time_loop newer_prefix negb]. unfold newer.
    destruct (naive_le (strip_zone (msg_created_at m)) (strip_zone since)); cbn [negb].
    + now rewrite app_nil_r.
    + rewrite Hr, IH, <- app_assoc. reflexivity.
Qed.

(** C6, as amended: for an absent or positive limit, the time anchored
    fetch looks at the first [2 * (limit or 500)] messages the source
    delivers; over that page it drops everything up to and including the
    anchor, then returns the messages whose zone-stripped timestamps are
    strictly after the cutoff, up to the first one at or before it or
    until [limit] messages are collected.  When the channel is no longer
    than the page, that is the same over the whole stream. *)
Theorem time_anchored_fetch (env : Env) (since_time : datetime)
    (limit : option nat) (last_message_id : option N) (w : World) :
  limit <> Some 0%nat ->
  let page_size := (max_messages limit * 2)%nat in
  get_messages_since_time env since_time limit last_message_id w
  = (Ret (time_anchored since_time limit last_message_id
            (take page_size (channel_messages env))),
     snoc_trace w (Fetched (Some page_size)))
  /\ ((List.length (channel_messages env) <= page_size)%nat ->
      (get_messages_since_time env since_time limit last_message_id w).1
      = Ret (time_anchored since_time limit last_message_id (channel_messages env))).
Proof.
  intros Hl page_size.
  assert (H : get_messages_since_time env since_time limit last_message_id w
    = (Ret (time_anchored since_time limit last_message_id
              (take page_size (channel_messages env))),
       snoc_trace w (Fetched (Some page_size)))).
  { unfold get_messages_since_time, channel_history, bind. rewrite emit_eq.
    unfold ret. fold page_size. f_equal. f_equal.
    rewrite since_time_skip. unfold time_anchored.
    destruct limit as [[|n]|].
    - congruence.
    - change 0%nat with (@List.length Message []).
      rewrite since_time_collect_limited by (simpl; lia).
      simpl. reflexivity.
    - rewrite since_time_collect_unlimited by auto. reflexivity. }
  split; [exact H|]. intros Hlen. rewrite H. simpl.
  now rewrite take_ge.
Qed.

(** C6 as stated fails: the anchor is the third of four messages, all of
    them after the cutoff, and the limit is 1.  The page holds the first
    two messages only, the anchor is not on it, and the fetch returns
    nothing, where the description over the stream gives the fourth
    message. *)
Lemma time_anchored_fetch_misses_anchor :
  let stream := [sample_message 14 4 []; sample_message 13 3 [];
                 sample_message 12 2 []; sample_message 11 1 []] in
  let since_time := sample_time 8 0 0 in
  (get_messages_since_time (sample_env stream) since_time (Some 1%nat) (Some 12%N)
     empty_world).1 = Ret []
  /\ time_anchored since_time (Some 1%nat) (Some 12%N) stream = [sample_message 11 1 []].
Proof. split; vm_compute; reflexivity. Qed.

(** ** Scanning from the last scan *)

Lemma parse_part_run args part w :
  exists r, parse_part args part w = (r, w)
    /\ (parses part -> exists args', r = Ret args')
    /\ forall args', r = Ret args' ->
         (args.2 = true \/ part = "--new") -> args'.2 = true.
Proof.
  destruct args as [[number scan_all] scan_from_last]. unfold parse_part, parses.
  destruct (isdigit part) eqn:Ed.
  - destruct (int_of_string part) as [n|].
    + eexists. split; [reflexivity|]. split; [eauto|].
      intros args' [= <-] [H| ->]; [exact H|]. vm_compute in Ed. discriminate.
    + eexists. split; [reflexivity|]. split; [intros H; now destruct H|]. discriminate.
  - destruct (String.eqb_spec part "--all") as [->|Hall].
    + eexists. split; [reflexivity|]. split; [eauto|].
      intros args' [= <-] [H|H]; [exact H|discriminate].
    + destruct (String.eqb_spec part "--new") as [->|Hnew].
      * eexists. split; [reflexivity|]. split; [eauto|]. now intros args' [= <-] _.
      * eexists. split; [reflexivity|]. split; [eauto|].
        intros args' [= <-] [H|H]; [exact H|contradiction].
Qed.

Lemma parse_run parts : forall args w,
  exists r, foldM parse_part args parts w = (r, w)
    /\ (Forall parses parts -> exists args', r = Ret args')
    /\ forall args', r = Ret args' ->
         (args.2 = true \/ In "--new" parts) -> args'.2 = true.
Proof.
  induction parts as [|part parts IH]; intros args w; simpl.
  - exists (Ret args). split; [reflexivity|]. split; [eauto|].
    intros args' [= <-] [H|[]]. exact H.
  - destruct (parse_part_run args part w) as (r1 & Hrun1 & Hok1 & Hnew1).
    unfold bind. rewrite Hrun1. destruct r1 as [args1|e].
    + destruct (IH args1 w) as (r & Hrun & Hok & Hnew).
      exists r. split; [exact Hrun|]. split.
      * intros Hall. apply Hok. now inversion Hall.
      * intros args' Hr Hor. apply (Hnew args' Hr).
        destruct Hor as [H|[H|H]]; auto.
    + exists (Raise e). split; [reflexivity|]. split; [|discriminate].
      intros Hall. inversion Hall as [|? ? Hp _]. destruct (Hok1 Hp). discriminate.
Qed.

Lemma scan_body_no_history env cmd parts w :
  In "--new" (tail parts) ->
  ScanHistory.get_last_scan_time (channel_id cmd) (history w) = None ->
  exists r n, scan_body env cmd parts w = (r, if r is Ret _ then snoc_trace w (Sent n) else w)
    /\ (forall u, r = Ret u -> n = NoHistoryAvailable)
    /\ (Forall parses (tail parts) -> r = Ret tt).
Proof.
  intros Hin Hlast. unfold scan_body.
  destruct (parse_run (tail parts) (None, false, false) w) as (r & Hrun & Hok & Hnew).
  unfold bind at 1. rewrite Hrun. destruct r as [[[number scan_all] scan_from_last]|e].
  - specialize (Hnew _ eq_refl (or_intror Hin)). simpl in Hnew. subst scan_from_last.
    unfold get_history, bind. rewrite Hlast. simpl.
    exists (Ret tt), NoHistoryAvailable. split; [reflexivity|]. auto.
  - exists (Raise e), NoHistoryAvailable. split; [reflexivity|]. split; [discriminate|].
    intros Hall. destruct (Hok Hall). discriminate.
Qed.

Lemma handle_scan_no_history env cmd parts w :
  In "--new" (tail parts) ->
  ScanHistory.get_last_scan_time (channel_id cmd) (history w) = None ->
  exists n active,
    handle_scan env cmd parts w
    = (Ret tt, {| recovery_data := recovery_data w; history := history w;
                  active_scans := active; files := files w;
                  trace := trace w ++ [Sent n] |})
    /\ (is_admin cmd = true ->
        default false (active_scans w !! channel_id cmd) = false ->
        ScanRecovery.get_interrupted_scan (channel_id cmd) (recovery_data w) = None ->
        Forall parses (tail parts) ->
        n = NoHistoryAvailable).
Proof.
  intros Hin Hlast. unfold handle_scan.
  destruct (is_admin cmd); cbn [negb].
  2:{ eexists _, _. split; [reflexivity|discriminate]. }
  unfold bind at 1, is_active at 1.
  destruct (default false (active_scans w !! channel_id cmd)).
  { eexists _, _. split; [reflexivity|discriminate]. }
  unfold bind at 1, get_recovery at 1.
  destruct (ScanRecovery.get_interrupted_scan (channel_id cmd) (recovery_data w)).
  { eexists _, _. split; [reflexivity|discriminate]. }
  unfold bind at 1, set_active at 1, try_except_finally.
  match goal with |- context [scan_body env cmd parts ?w0] =>
    destruct (scan_body_no_history env cmd parts w0 Hin Hlast)
      as (r & n & Hrun & Hn & Hok) end.
  rewrite Hrun. destruct r as [[]|e].
  - exists n. eexists. split; [reflexivity|]. intros. now apply (Hn tt).
  - exists (ScanFailed e). eexists. split; [reflexivity|].
    intros _ _ _ Hall. specialize (Hok Hall). discriminate.
Qed.

(** C7: a scan from the last scan on a channel without a recorded last
    scan time returns after one message to the channel, with no page
    fetched, no checkpoint created and the recovery and history stores as
    they were; when it gets as far as looking for the last scan time (an
    admin, no scan active, nothing to recover, arguments that parse) that
    message is the "no history" one. *)
Theorem scan_new_without_history (env : Env) (cmd : Command)
    (command_parts : list string) (w : World) :
  In "--new" (tail command_parts) ->
  ScanHistory.get_last_scan_time (channel_id cmd) (history w) = None ->
  let w' := (handle_scan env cmd command_parts w).2 in
  (handle_scan env cmd command_parts w).1 = Ret tt
  /\ recovery_data w' = recovery_data w
  /\ history w' = history w
  /\ files w' = files w
  /\ (exists n, trace w' = trace w ++ [Sent n])
  /\ fetches (trace w') = fetches (trace w)
  /\ (is_admin cmd = true ->
      default false (active_scans w !! channel_id cmd) = false ->
      ScanRecovery.get_interrupted_scan (channel_id cmd) (recovery_data w) = None ->
      Forall parses (tail command_parts) ->
      trace w' = trace w ++ [Sent NoHistoryAvailable]).
Proof.
  intros Hin Hlast.
  destruct (handle_scan_no_history env cmd command_parts w Hin Hlast)
    as (n & active & Hrun & Hn).
  rewrite Hrun. simpl.
  repeat (split; [reflexivity|]).
  split; [eauto|]. split.
  - unfold fetches. rewrite omap_app. simpl. apply app_nil_r.
  - intros H1 H2 H3 H4. now rewrite (Hn H1 H2 H3 H4).
Qed.

(** ** The download stage *)

Lemma download_media_run env folder task w :
  exists w', download_media env folder task w = (Ret (download_ok env folder task), w')
    /\ trace w' = trace w
    /\ recovery_data w' = recovery_data w
    /\ history w' = history w.
Proof.
  destruct task as [url name]. unfold download_media, download_ok. simpl.
  destruct (download_attempt env url (folder +:+ "/" +:+ name)) as [content|].
  - eexists. split; [reflexivity|]. auto.
  - exists w. split; [reflexivity|]. auto.
Qed.

Lemma downloads_run env folder tasks : forall w,
  exists w', mapM (download_media env folder) tasks w
             = (Ret (map (download_ok env folder) tasks), w')
    /\ trace w' = trace w
    /\ recovery_data w' = recovery_data w
    /\ history w' = history w.
Proof.
  induction tasks as [|task tasks IH]; intros w; simpl.
  - exists w. auto.
  - destruct (download_media_run env folder task w) as (w1 & Hrun1 & Ht1 & Hr1 & Hh1).
    destruct (IH w1) as (w2 & Hrun2 & Ht2 & Hr2 & Hh2).
    exists w2. unfold bind. rewrite Hrun1, Hrun2. unfold ret.
    split; [reflexivity|]. repeat split; congruence.
Qed.

Lemma count_true_map_ok env folder tasks :
  count_true (map (download_ok env folder) tasks)
  = List.length (List.filter (download_ok env folder) tasks).
Proof.
  unfold count_true. induction tasks as [|task tasks IH]; simpl; [reflexivity|].
  rewrite filter_cons. destruct (download_ok env folder task); simpl.
  - now rewrite IH.
  - exact IH.
Qed.

Lemma total_files_tasks selection images videos others :
  total_files selection images videos others
  = List.length (download_tasks selection images videos others).
Proof.
  unfold total_files, download_tasks. rewrite !length_app.
  destruct (selected SelImages selection), (selected SelVideos selection),
    (selected SelOthers selection);
    rewrite ?length_map_to_list; simpl; lia.
Qed.

Lemma process_download_run env cmd selection images videos others w :
  let folder := create_folder env (server_name cmd) (channel_name cmd) in
  let tasks := download_tasks selection images videos others in
  let successful := List.length (List.filter (download_ok env folder) tasks) in
  let total := List.length tasks in
  exists w',
    process_download env cmd selection images videos others w = (Ret tt, w')
    /\ trace w'
       = trace w ++ [Sent (Downloading selection);
                     Sent (if nonempty tasks then
                             if (successful =? total)%nat
                             then DownloadComplete successful total folder
                             else DownloadPartial successful total folder
                           else NoFilesToDownload)].
Proof.
  intros folder tasks successful total.
  unfold process_download. fold folder. fold tasks.
  rewrite total_files_tasks. fold tasks. fold total.
  unfold bind at 1, send at 1. rewrite emit_eq.
  destruct (nonempty tasks).
  - destruct (downloads_run env folder tasks (snoc_trace w (Sent (Downloading selection))))
      as (w' & Hrun & Ht & _).
    unfold bind. rewrite Hrun. rewrite count_true_map_ok. fold successful.
    destruct (successful =? total)%nat; unfold send; rewrite emit_eq;
      (eexists; split; [reflexivity|]); simpl; rewrite Ht; simpl;
      now rewrite <- app_assoc.
  - unfold send. rewrite emit_eq. eexists. split; [reflexivity|].
    simpl. now rewrite <- app_assoc.
Qed.

(** C8: each download task returns its own verdict and never raises: the
    verdict is whether that item's fetch and that item's file write
    succeed, whatever happens to the others; the batch therefore runs to
    its end and reports as successful exactly the number of tasks that
    succeeded, out of the number of tasks submitted. *)
Theorem download_results (env : Env) (cmd : Command) (selection : Selection)
    (images videos others : gmap string string) (w : World) :
  let folder := create_folder env (server_name cmd) (channel_name cmd) in
  let tasks := download_tasks selection images videos others in
  let successful := List.length (List.filter (download_ok env folder) tasks) in
  let total := List.length tasks in
  (forall task w0, (download_media env folder task w0).1
                   = Ret (download_ok env folder task))
  /\ (forall w0, (mapM (download_media env folder) tasks w0).1
                 = Ret (map (download_ok env folder) tasks))
  /\ (process_download env cmd selection images videos others w).1 = Ret tt
  /\ trace (process_download env cmd selection images videos others w).2
     = trace w ++ [Sent (Downloading selection);
                   Sent (if nonempty tasks then
                           if (successful =? total)%nat
                           then DownloadComplete successful total folder
                           else DownloadPartial successful total folder
                         else NoFilesToDownload)].
Proof.
  intros folder tasks successful total.
  split; [|split].
  - intros task w0. destruct (download_media_run env folder task w0) as (w' & -> & _).
    reflexivity.
  - intros w0. destruct (downloads_run env folder tasks w0) as (w' & -> & _).
    reflexivity.
  - destruct (process_download_run env cmd selection images videos others w)
      as (w' & -> & Ht).
    split; [reflexivity|exact Ht].
Qed.

(** ** The statements at work *)

Lemma progress_every_tenth_and_final_witness :
  let msgs := [sample_message 11 0 [sample_png]] in
  msgs <> []
  /\ exists a w' t final,
       analysis_run msgs ∅ false 7 9 empty_world = (Ret a, w')
       /\ trace w' = trace empty_world ++ t
       /\ last msgs = Some final
       /\ progress_calls t
          = every_tenth 9 msgs ++ [(Some (msg_id final), (9 + List.length msgs)%nat)]
       /\ last t = Some (UpdateProgress 7 (Some (msg_id final))
                           (9 + List.length msgs) (an_found_media a))
       /\ forall x, x ∈ every_tenth 9 msgs <->
            exists k m, msgs !! k = Some m
                        /\ x = (Some (msg_id m), (9 + k + 1)%nat)
                        /\ ((9 + k + 1) mod 10 = 0)%nat.
Proof.
  intros msgs. split; [discriminate|].
  apply (progress_every_tenth_and_final msgs ∅ false 7 9 empty_world). discriminate.
Defined.

Lemma resume_count_based_limit_witness :
  let e := sample_entry 5 2 (Some 11%N) in
  let w := world_with_entry e in
  recovery_data w !! channel_key (channel_id sample_command) = Some e
  /\ scan_type e = number_based
  /\ sp_limit (scan_params e) = Some 5%nat
  /\ resume_scanning_process (sample_env []) sample_command (Some 11%N) w
     = (Ret tt,
        with_recovery (snoc_trace w (Sent ResumeAlreadyComplete))
          (<[channel_key (channel_id sample_command) := ScanRecovery.set_completed e]>
             (recovery_data w))).
Proof.
  intros e w.
  assert (He : recovery_data w !! channel_key (channel_id sample_command) = Some e)
    by (vm_compute; reflexivity).
  split; [exact He|]. split; [reflexivity|]. split; [reflexivity|].
  apply (resume_count_based_limit (sample_env []) sample_command (Some 11%N) w e 5
           He eq_refl eq_refl).
  simpl. lia.
Defined.

Lemma resume_ordinals_continue_witness :
  let e := sample_entry 1 2 (Some 11%N) in
  let w := world_with_entry e in
  let env := sample_env [sample_message 11 1 [sample_png; sample_jpg];
                         sample_message 10 0 [sample_mp4]] in
  recovery_data w !! channel_key (channel_id sample_command) = Some e
  /\ exists k,
       found_counters (trace (resume_scanning_process env sample_command (Some 11%N) w).2)
       = found_counters (trace w) ++ seq (processed_count e + 1) k.
Proof.
  intros e w env.
  assert (He : recovery_data w !! channel_key (channel_id sample_command) = Some e)
    by (vm_compute; reflexivity).
  split; [exact He|].
  apply (resume_ordinals_continue env sample_command (Some 11%N) w e He).
Defined.

(** C3 as stated fails: the interrupted scan gave the ordinals 1 and 2 to
    the two attachments of its one processed message; the resumed scan
    starts from the processed count 1, and gives ordinal 2 again. *)
Lemma resume_ordinal_overlap :
  let env := sample_env [sample_message 11 1 [sample_png; sample_jpg];
                         sample_message 10 0 [sample_mp4]] in
  (processed_count <$> ScanRecovery.get_interrupted_scan 7 (recovery_data interrupted_scan))
  = Some 1%nat
  /\ trace interrupted_scan
     = [LogFound 1 sample_png; LogFound 2 sample_jpg; UpdateProgress 7 (Some 11%N) 1 2]
  /\ found_counters (trace (handle_resume_scan env sample_command interrupted_scan).2)
     = [1; 2; 2]%nat
  /\ filter (fun e => found_counter e = Some 2%nat)
       (trace (handle_resume_scan env sample_command interrupted_scan).2)
     = [LogFound 2 sample_jpg; LogFound 2 sample_mp4].
Proof. repeat split; vm_compute; reflexivity. Qed.

Lemma time_anchored_fetch_witness :
  let env := sample_env [sample_message 12 2 []; sample_message 11 1 []] in
  let since_time := sample_time 9 30 1 in
  Some 1%nat <> Some 0%nat
  /\ get_messages_since_time env since_time (Some 1%nat) None empty_world
     = (Ret (time_anchored since_time (Some 1%nat) None
               (take (max_messages (Some 1%nat) * 2) (channel_messages env))),
        snoc_trace empty_world (Fetched (Some (max_messages (Some 1%nat) * 2)%nat))).
Proof.
  intros env since_time. split; [discriminate|].
  apply (time_anchored_fetch env since_time (Some 1%nat) None empty_world). discriminate.
Defined.

Lemma scan_new_without_history_witness :
  let parts := ["scan"; "--new"] in
  let env := sample_env [sample_message 11 1 [sample_png]] in
  In "--new" (tail parts)
  /\ ScanHistory.get_last_scan_time (channel_id sample_command) (history empty_world) = None
  /\ (handle_scan env sample_command parts empty_world).1 = Ret tt
  /\ recovery_data (handle_scan env sample_command parts empty_world).2 = ∅
  /\ fetches (trace (handle_scan env sample_command parts empty_world).2) = [].
Proof.
  intros parts env.
  assert (Hin : In "--new" (tail parts)) by (simpl; auto).
  assert (Hno : ScanHistory.get_last_scan_time (channel_id sample_command)
                  (history empty_world) = None) by reflexivity.
  split; [exact Hin|]. split; [exact Hno|].
  destruct (scan_new_without_history env sample_command parts empty_world Hin Hno)
    as (H1 & H2 & _ & _ & _ & H3 & _).
  split; [exact H1|]. split; [exact H2|exact H3].
Defined.

(** * Further properties *)

(** ** The recovery store *)

Lemma recovery_lookup_update c mid p f r k :
  ScanRecovery.update_scan_progress c mid p f r !! k
  = if decide (k = channel_key c)
    then ScanRecovery.set_progress mid p f <$> r !! k
    else r !! k.
Proof.
  unfold ScanRecovery.update_scan_progress.
  destruct (decide (k = channel_key c)) as [->|Hne].
  - destruct (r !! channel_key c) as [e|] eqn:E.
    + now rewrite lookup_insert_eq.
    + now rewrite E.
  - destruct (r !! channel_key c); [now rewrite lookup_insert_ne|reflexivity].
Qed.

Lemma recovery_lookup_complete c r k :
  ScanRecovery.complete_scan_session c r !! k
  = if decide (k = channel_key c)
    then ScanRecovery.set_completed <$> r !! k
    else r !! k.
Proof.
  unfold ScanRecovery.complete_scan_session.
  destruct (decide (k = channel_key c)) as [->|Hne].
  - destruct (r !! channel_key c) as [e|] eqn:E.
    + now rewrite lookup_insert_eq.
    + now rewrite E.
  - destruct (r !! channel_key c); [now rewrite lookup_insert_ne|reflexivity].
Qed.

(** X1: the life of a checkpoint.  Starting a session replaces whatever
    the channel had by a fresh in-progress checkpoint with zero counts; a
    progress write then shows through [get_interrupted_scan] with the
    session's type, start time and parameters intact; completing it makes
    [get_interrupted_scan] answer nothing while the entry, with its last
    progress, stays in the store. *)
Theorem checkpoint_lifecycle (c : N) (ty : ScanType) (start : datetime)
    (params : ScanParams) (mid : option N) (p f : nat)
    (r : gmap string RecoveryEntry) :
  let r1 := ScanRecovery.start_scan_session c ty start params r in
  let r2 := ScanRecovery.update_scan_progress c mid p f r1 in
  let r3 := ScanRecovery.complete_scan_session c r2 in
  ScanRecovery.get_interrupted_scan c r1
  = Some {| scan_type := ty; start_time := start; scan_params := params;
            status := in_progress; last_processed_message := None;
            processed_count := 0; found_media := 0 |}
  /\ ScanRecovery.get_interrupted_scan c r2
     = Some {| scan_type := ty; start_time := start; scan_params := params;
               status := in_progress; last_processed_message := mid;
               processed_count := p; found_media := f |}
  /\ ScanRecovery.get_interrupted_scan c r3 = None
  /\ r3 !! channel_key c
     = Some {| scan_type := ty; start_time := start; scan_params := params;
               status := completed; last_processed_message := mid;
               processed_count := p; found_media := f |}.
Proof.
  simpl. unfold ScanRecovery.get_interrupted_scan.
  rewrite recovery_lookup_complete, !recovery_lookup_update.
  rewrite !decide_True by reflexivity.
  unfold ScanRecovery.start_scan_session. rewrite lookup_insert_eq. simpl. auto.
Qed.

(** X2: a progress write for a channel without a checkpoint changes
    nothing (it creates none); for any channel it keeps the set of
    checkpoints, and every checkpoint's type, start time, parameters and
    status, so it never turns a completed scan into an interrupted one. *)
Theorem update_scan_progress_keeps_sessions (c : N) (mid : option N) (p f : nat)
    (r : gmap string RecoveryEntry) :
  let r' := ScanRecovery.update_scan_progress c mid p f r in
  (r !! channel_key c = None -> r' = r)
  /\ dom r' = dom r
  /\ (forall k, session_identity <$> r' !! k = session_identity <$> r !! k)
  /\ (forall k, status <$> r' !! k = status <$> r !! k)
  /\ (forall c', is_Some (ScanRecovery.get_interrupted_scan c' r')
                 <-> is_Some (ScanRecovery.get_interrupted_scan c' r)).
Proof.
  simpl. split; [|split; [|split; [|split]]].
  - intros Hnone. unfold ScanRecovery.update_scan_progress. now rewrite Hnone.
  - unfold ScanRecovery.update_scan_progress.
    destruct (r !! channel_key c) as [e|] eqn:E; [|reflexivity].
    rewrite dom_insert_L. apply subseteq_union_1_L, singleton_subseteq_l.
    now apply elem_of_dom_2 in E.
  - intros k. rewrite recovery_lookup_update.
    destruct (decide (k = channel_key c)); [|reflexivity].
    now destruct (r !! k).
  - intros k. rewrite recovery_lookup_update.
    destruct (decide (k = channel_key c)); [|reflexivity].
    now destruct (r !! k).
  - intros c'. unfold ScanRecovery.get_interrupted_scan.
    rewrite recovery_lookup_update.
    destruct (decide (channel_key c' = channel_key c)) as [Heq|Hne]; [|reflexivity].
    destruct (r !! channel_key c') as [e|]; [|reflexivity]. simpl.
    now destruct (status e).
Qed.

(** X3: completing a session is idempotent, does nothing for a channel
    without a checkpoint, leaves no interrupted scan on the channel, and
    retires the checkpoint without deleting it: the set of checkpoints and
    every recorded progress stay. *)
Theorem complete_scan_session_retires (c : N) (r : gmap string RecoveryEntry) :
  let r' := ScanRecovery.complete_scan_session c r in
  ScanRecovery.get_interrupted_scan c r' = None
  /\ ScanRecovery.complete_scan_session c r' = r'
  /\ (r !! channel_key c = None -> r' = r)
  /\ dom r' = dom r
  /\ (forall k, progress_of <$> r' !! k = progress_of <$> r !! k)
  /\ (forall k, session_identity <$> r' !! k = session_identity <$> r !! k).
Proof.
  simpl. split; [|split; [|split; [|split; [|split]]]].
  - unfold ScanRecovery.get_interrupted_scan. rewrite recovery_lookup_complete.
    rewrite decide_True by reflexivity. now destruct (r !! channel_key c).
  - apply map_eq. intros k. rewrite !recovery_lookup_complete.
    destruct (decide (k = channel_key c)); [|reflexivity].
    now destruct (r !! k).
  - intros Hnone. unfold ScanRecovery.complete_scan_session. now rewrite Hnone.
  - unfold ScanRecovery.complete_scan_session.
    destruct (r !! channel_key c) as [e|] eqn:E; [|reflexivity].
    rewrite dom_insert_L. apply subseteq_union_1_L, singleton_subseteq_l.
    now apply elem_of_dom_2 in E.
  - intros k. rewrite recovery_lookup_complete.
    destruct (decide (k = channel_key c)); [|reflexivity]. now destruct (r !! k).
  - intros k. rewrite recovery_lookup_complete.
    destruct (decide (k = channel_key c)); [|reflexivity]. now destruct (r !! k).
Qed.

(** X4: clearing the recovery data of a channel removes its checkpoint
    whatever its status, is idempotent, and makes later progress writes
    and completions for the channel no-ops until a new session starts. *)
Theorem clear_recovery_data_discards (c : N) (mid : option N) (p f : nat)
    (r : gmap string RecoveryEntry) :
  let r' := ScanRecovery.clear_recovery_data c r in
  r' !! channel_key c = None
  /\ ScanRecovery.get_interrupted_scan c r' = None
  /\ ScanRecovery.clear_recovery_data c r' = r'
  /\ ScanRecovery.update_scan_progress c mid p f r' = r'
  /\ ScanRecovery.complete_scan_session c r' = r'
  /\ dom r' = dom r ∖ {[channel_key c]}.
Proof.
  simpl. unfold ScanRecovery.clear_recovery_data.
  assert (Hnone : delete (channel_key c) r !! channel_key c = None)
    by apply lookup_delete_eq.
  split; [exact Hnone|]. split; [|split; [|split; [|split]]].
  - unfold ScanRecovery.get_interrupted_scan. now rewrite Hnone.
  - apply map_eq. intros k.
    destruct (decide (k = channel_key c)) as [->|Hne].
    + now rewrite !lookup_delete_eq.
    + now rewrite !lookup_delete_ne.
  - unfold ScanRecovery.update_scan_progress. now rewrite Hnone.
  - unfold ScanRecovery.complete_scan_session. now rewrite Hnone.
  - apply dom_delete_L.
Qed.

(** X5: every operation of the recovery store on channel [a] leaves the
    checkpoint of any other channel [b] as it was. *)
Theorem recovery_frame (a b : N) (ty : ScanType) (start : datetime)
    (params : ScanParams) (mid : option N) (p f : nat)
    (r : gmap string RecoveryEntry) :
  a <> b ->
  ScanRecovery.start_scan_session a ty start params r !! channel_key b = r !! channel_key b
  /\ ScanRecovery.update_scan_progress a mid p f r !! channel_key b = r !! channel_key b
  /\ ScanRecovery.complete_scan_session a r !! channel_key b = r !! channel_key b
  /\ ScanRecovery.clear_recovery_data a r !! channel_key b = r !! channel_key b
  /\ ScanRecovery.get_interrupted_scan b (ScanRecovery.start_scan_session a ty start params r)
     = ScanRecovery.get_interrupted_scan b r.
Proof.
  intros Hne. apply channel_key_ne in Hne.
  assert (Hne' : channel_key b <> channel_key a) by congruence.
  rewrite recovery_lookup_update, recovery_lookup_complete.
  rewrite !decide_False by exact Hne'.
  unfold ScanRecovery.start_scan_session, ScanRecovery.clear_recovery_data,
    ScanRecovery.get_interrupted_scan.
  rewrite lookup_insert_ne by exact Hne. rewrite lookup_delete_ne by exact Hne. auto.
Qed.

Lemma recovery_frame_witness :
  let e := sample_entry 3 1 (Some 12%N) in
  let r : gmap string RecoveryEntry := {[ channel_key 8 := e ]} in
  (7 <> 8)%N
  /\ ScanRecovery.start_scan_session 7 time_based (sample_time 9 0 0)
       {| sp_limit := None; sp_scan_all := true; sp_since_time := None |} r
       !! channel_key 8 = r !! channel_key 8
  /\ ScanRecovery.clear_recovery_data 7 r !! channel_key 8 = r !! channel_key 8.
Proof.
  intros e r. split; [discriminate|].
  destruct (recovery_frame 7 8 time_based (sample_time 9 0 0)
              {| sp_limit := None; sp_scan_all := true; sp_since_time := None |}
              None 0 0 r) as (H1 & _ & _ & H4 & _); [discriminate|].
  split; [exact H1|exact H4].
Defined.

(** ** The history store, further *)

Lemma history_lookup_add now a urls h k :
  ScanHistory.add_scanned_urls now a urls h !! k
  = if decide (k = channel_key a)
    then Some {| scanned_urls := ScanHistory.get_scanned_urls a h ∪ urls;
                 last_scan := Some now;
                 total_scans := total_scans_of a h + 1 |}
    else h !! k.
Proof.
  unfold ScanHistory.add_scanned_urls, ScanHistory.get_scanned_urls, total_scans_of,
    ScanHistory.get_channel_stats.
  destruct (decide (k = channel_key a)) as [->|Hne].
  - rewrite lookup_insert_eq. now destruct (h !! channel_key a).
  - now rewrite lookup_insert_ne.
Qed.

(** X6: clearing a channel's history is idempotent and brings the channel
    back to the state of a channel never scanned: no seen URL, no last
    scan time, zero statistics; the next recording then stores exactly its
    own URLs as the first scan. *)
Theorem clear_channel_history_resets (now : datetime) (c : N) (urls : gset string)
    (h : gmap string HistoryEntry) :
  let h' := ScanHistory.clear_channel_history c h in
  ScanHistory.get_scanned_urls c h' = ∅
  /\ ScanHistory.get_last_scan_time c h' = None
  /\ ScanHistory.get_channel_stats c h' = (0%nat, None, 0%nat)
  /\ ScanHistory.clear_channel_history c h' = h'
  /\ ScanHistory.get_scanned_urls c (ScanHistory.add_scanned_urls now c urls h') = urls
  /\ total_scans_of c (ScanHistory.add_scanned_urls now c urls h') = 1%nat.
Proof.
  simpl. unfold ScanHistory.clear_channel_history.
  assert (Hnone : delete (channel_key c) h !! channel_key c = None)
    by apply lookup_delete_eq.
  unfold ScanHistory.get_scanned_urls, ScanHistory.get_last_scan_time,
    ScanHistory.get_channel_stats, total_scans_of.
  rewrite !history_lookup_add, !decide_True by reflexivity.
  unfold ScanHistory.get_scanned_urls, ScanHistory.get_channel_stats, total_scans_of.
  rewrite !Hnone. simpl.
  repeat split; try reflexivity.
  - apply map_eq. intros k. destruct (decide (k = channel_key c)) as [->|Hne].
    + now rewrite !lookup_delete_eq.
    + now rewrite !lookup_delete_ne.
  - apply (left_id_L ∅ (∪)).
  - rewrite history_lookup_add, decide_True by reflexivity.
    unfold total_scans_of, ScanHistory.get_channel_stats. now rewrite Hnone.
Qed.

(** X7: the statistics count the seen set; a recording never lowers that
    count, raises it by at most the number of URLs recorded, and leaves it
    as it was exactly when every recorded URL had been seen before (the
    scan counter and the last scan time move all the same). *)
Theorem recording_and_statistics (now : datetime) (c : N) (urls : gset string)
    (h : gmap string HistoryEntry) :
  let h' := ScanHistory.add_scanned_urls now c urls h in
  let count h0 := (ScanHistory.get_channel_stats c h0).1.1 in
  count h = size (ScanHistory.get_scanned_urls c h)
  /\ (count h <= count h')%nat
  /\ (count h' <= count h + size urls)%nat
  /\ (count h' = count h <-> urls ⊆ ScanHistory.get_scanned_urls c h)
  /\ (ScanHistory.get_channel_stats c h').1.2 = Some now.
Proof.
  simpl.
  assert (Hc : forall h0, (ScanHistory.get_channel_stats c h0).1.1
                          = size (ScanHistory.get_scanned_urls c h0)).
  { intros h0. unfold ScanHistory.get_channel_stats, ScanHistory.get_scanned_urls.
    destruct (h0 !! channel_key c); [reflexivity|]. cbn [fst snd].
    symmetry. apply size_empty. }
  rewrite !Hc.
  assert (Hs : ScanHistory.get_scanned_urls c (ScanHistory.add_scanned_urls now c urls h)
               = ScanHistory.get_scanned_urls c h ∪ urls).
  { unfold ScanHistory.get_scanned_urls at 1. rewrite history_lookup_add.
    now rewrite decide_True. }
  rewrite Hs. set (old := ScanHistory.get_scanned_urls c h).
  split; [reflexivity|]. split; [|split; [|split]].
  - apply subseteq_size, union_subseteq_l.
  - rewrite size_union_alt.
    assert (size (urls ∖ old) <= size urls)%nat
      by (apply subseteq_size, subseteq_difference_l; reflexivity).
    lia.
  - split.
    + intros Hsz. assert (Heq : old ≡ old ∪ urls).
      { apply set_subseteq_size_equiv; [apply union_subseteq_l|lia]. }
      rewrite Heq. apply union_subseteq_r.
    + intros Hsub. f_equal. apply leibniz_equiv.
      apply subseteq_union_1, Hsub || (rewrite (comm (∪)); apply subseteq_union_1, Hsub).
  - unfold ScanHistory.get_channel_stats. rewrite history_lookup_add.
    now rewrite decide_True.
Qed.

Lemma history_stats_add now a urls h c :
  ScanHistory.get_scanned_urls c (ScanHistory.add_scanned_urls now a urls h)
  = (if decide (a = c) then ScanHistory.get_scanned_urls c h ∪ urls
     else ScanHistory.get_scanned_urls c h)
  /\ total_scans_of c (ScanHistory.add_scanned_urls now a urls h)
     = (if decide (a = c) then total_scans_of c h + 1 else total_scans_of c h)%nat
  /\ ScanHistory.get_last_scan_time c (ScanHistory.add_scanned_urls now a urls h)
     = (if decide (a = c) then Some now else ScanHistory.get_last_scan_time c h).
Proof.
  unfold ScanHistory.get_scanned_urls at 1, total_scans_of at 1,
    ScanHistory.get_channel_stats at 1, ScanHistory.get_last_scan_time at 1.
  rewrite history_lookup_add.
  destruct (decide (a = c)) as [->|Hne].
  - rewrite decide_True by reflexivity. auto.
  - rewrite decide_False by (intros E; apply channel_key_inj in E; congruence).
    unfold ScanHistory.get_scanned_urls, total_scans_of, ScanHistory.get_channel_stats,
      ScanHistory.get_last_scan_time.
    destruct (h !! channel_key c); auto.
Qed.

(** X8: the history is an account of the recordings made: after any
    sequence of [add_scanned_urls] calls, a channel's seen set is its
    initial set with the URLs of the calls made for that channel, its scan
    counter has gone up by the number of those calls, and its last scan
    time is the clock reading of the last of them (unchanged when there
    was none). *)
Theorem history_accounts_for_recordings
    (calls : list (datetime * N * gset string)) (h : gmap string HistoryEntry) (c : N) :
  ScanHistory.get_scanned_urls c (record_all calls h)
  = ScanHistory.get_scanned_urls c h ∪ urls_of_calls (calls_for c calls)
  /\ total_scans_of c (record_all calls h)
     = (total_scans_of c h + List.length (calls_for c calls))%nat
  /\ ScanHistory.get_last_scan_time c (record_all calls h)
     = match last (calls_for c calls) with
       | Some call => Some call.1.1
       | None => ScanHistory.get_last_scan_time c h
       end.
Proof.
  revert h. induction calls as [|[[now a] urls] calls IH]; intros h.
  - simpl. unfold urls_of_calls. simpl.
    split; [now rewrite (right_id_L ∅ (∪))|]. split; [lia|reflexivity].
  - change (record_all ((now, a, urls) :: calls) h)
      with (record_all calls (ScanHistory.add_scanned_urls now a urls h)).
    destruct (IH (ScanHistory.add_scanned_urls now a urls h)) as (H1 & H2 & H3).
    destruct (history_stats_add now a urls h c) as (G1 & G2 & G3).
    rewrite H1, H2, H3, G1, G2, G3.
    unfold calls_for. cbn [List.filter fst snd].
    destruct (decide (a = c)) as [->|Hne].
    + rewrite bool_decide_eq_true_2 by reflexivity.
      fold (calls_for c calls). unfold urls_of_calls. cbn [map union_list foldr snd length].
      split; [now rewrite (assoc_L (∪))|]. split; [lia|].
      destruct (calls_for c calls) as [|call rest] eqn:E; [reflexivity|].
      rewrite last_cons_cons.
      destruct (last (call :: rest)) eqn:El; [reflexivity|].
      apply last_None in El. discriminate.
    + rewrite bool_decide_eq_false_2 by exact Hne.
      fold (calls_for c calls). auto.
Qed.

(** ** The page fetcher, further *)

Lemma from_point_skip anchor limit page messages :
  from_point_loop anchor limit page (is_None anchor) messages
  = from_point_loop anchor limit (drop_through anchor page) true messages.
Proof.
  destruct anchor as [id|]; simpl.
  - induction page as [|m page IH]; simpl; [reflexivity|].
    destruct (is_anchor (Some id) m); simpl; [|exact IH].
    destruct page; reflexivity.
  - destruct page; reflexivity.
Qed.

Lemma from_point_collect anchor limit page : forall messages,
  (List.length messages < limit)%nat ->
  from_point_loop anchor limit page true messages
  = messages ++ take (limit - List.length messages) page.
Proof.
  induction page as [|m page IH]; intros messages Hlen.
  - simpl. rewrite take_nil. now rewrite app_nil_r.
  - cbn [from_point_loop negb].
    destruct (Nat.leb_spec limit (List.length (messages ++ [m]))) as [Hge|Hlt];
      rewrite length_app in *; cbn [List.length] in *.
    + replace (limit - List.length messages)%nat with 1%nat by lia.
      simpl. now rewrite take_0.
    + rewrite IH by (rewrite length_app; simpl; lia).
      rewrite length_app. cbn [List.length].
      replace (limit - List.length messages)%nat
        with (S (limit - (List.length messages + 1)))%nat by lia.
      simpl. now rewrite <- app_assoc.
Qed.

Lemma drop_through_missing anchor l : anchor_missing anchor l -> drop_through anchor l = [].
Proof.
  intros (id & -> & Hall). induction Hall as [|m l Hm _ IH]; simpl; [reflexivity|].
  unfold is_anchor. rewrite bool_decide_eq_false_2 by congruence. exact IH.
Qed.

Lemma count_anchored_result env anchor limit w :
  get_messages_from_point env anchor limit w
  = (Ret (take limit (drop_through anchor (take (limit * 2) (channel_messages env)))),
     snoc_trace w (Fetched (Some (limit * 2)%nat))).
Proof.
  unfold get_messages_from_point, channel_history, bind. rewrite emit_eq.
  unfold ret. f_equal. f_equal. rewrite from_point_skip.
  destruct limit as [|n].
  - simpl. rewrite take_0. now destruct anchor.
  - rewrite from_point_collect by (simpl; lia). reflexivity.
Qed.

(** X9: the count anchored fetch asks the source for [2 * limit]
    messages and returns, in the source's order, the first [limit]
    messages of that page that come after the anchor; with no anchor
    these are the first [limit] messages of the channel. *)
Theorem count_anchored_fetch (env : Env) (anchor : option N) (limit : nat) (w : World) :
  get_messages_from_point env anchor limit w
  = (Ret (take limit (drop_through anchor (take (limit * 2) (channel_messages env)))),
     snoc_trace w (Fetched (Some (limit * 2)%nat)))
  /\ (get_messages_from_point env None limit w).1
     = Ret (take limit (channel_messages env)).
Proof.
  split; [apply count_anchored_result|].
  rewrite count_anchored_result. cbn [fst]. f_equal.
  replace (drop_through None (take (limit * 2) (channel_messages env)))
    with (take (limit * 2) (channel_messages env))
    by (now destruct (take (limit * 2) (channel_messages env))).
  rewrite take_take. f_equal. lia.
Qed.

(** X10: when the anchor is not among the [2 * limit] messages the
    source delivers, the count anchored fetch returns no message at all,
    however many messages the channel has. *)
Theorem count_anchored_fetch_anchor_off_page (env : Env) (anchor : option N)
    (limit : nat) (w : World) :
  anchor_missing anchor (take (limit * 2) (channel_messages env)) ->
  (get_messages_from_point env anchor limit w).1 = Ret [].
Proof.
  intros Hmiss. rewrite count_anchored_result. simpl.
  rewrite drop_through_missing by exact Hmiss. now rewrite take_nil.
Qed.

Lemma count_anchored_fetch_anchor_off_page_witness :
  let env := sample_env [sample_message 14 4 []; sample_message 13 3 [];
                         sample_message 12 2 []; sample_message 11 1 []] in
  anchor_missing (Some 12%N) (take (1 * 2) (channel_messages env))
  /\ (get_messages_from_point env (Some 12%N) 1 empty_world).1 = Ret [].
Proof.
  intros env.
  assert (H : anchor_missing (Some 12%N) (take (1 * 2) (channel_messages env))).
  { exists 12%N. split; [reflexivity|]. simpl. repeat constructor; discriminate. }
  split; [exact H|].
  apply (count_anchored_fetch_anchor_off_page env (Some 12%N) 1 empty_world H).
Defined.

Lemma newer_prefix_newer since l : Forall (fun m => newer since m = true) (newer_prefix since l).
Proof.
  induction l as [|m l IH]; simpl; [constructor|].
  destruct (newer since m) eqn:E; [|constructor]. constructor; assumption.
Qed.

Lemma up_to_Forall {P : Message -> Prop} limit l : Forall P l -> Forall P (up_to limit l).
Proof. destruct limit; simpl; [apply Forall_take|auto]. Qed.

(** X11: the time anchored fetch for every limit, zero included: a limit
    of zero counts as no limit (the page is then 1000 messages and nothing
    caps the result), every message returned is strictly newer than the
    cutoff, and a positive limit bounds the number returned. *)
Theorem time_anchored_fetch_any_limit (env : Env) (since_time : datetime)
    (limit : option nat) (anchor : option N) (w : World) :
  let page := take (max_messages limit * 2) (channel_messages env) in
  let result := up_to (effective_limit limit)
                  (newer_prefix since_time (drop_through anchor page)) in
  get_messages_since_time env since_time limit anchor w
  = (Ret result, snoc_trace w (Fetched (Some (max_messages limit * 2)%nat)))
  /\ get_messages_since_time env since_time (Some 0%nat) anchor w
     = get_messages_since_time env since_time None anchor w
  /\ Forall (fun m => newer since_time m = true) result
  /\ (forall n, limit = Some (S n) -> (List.length result <= S n)%nat).
Proof.
  intros page result.
  assert (Hrun : forall l,
    get_messages_since_time env since_time l anchor w
    = (Ret (up_to (effective_limit l)
              (newer_prefix since_time
                 (drop_through anchor (take (max_messages l * 2) (channel_messages env))))),
       snoc_trace w (Fetched (Some (max_messages l * 2)%nat)))).
  { intros l. unfold get_messages_since_time, channel_history, bind. rewrite emit_eq.
    unfold ret. f_equal. f_equal. rewrite since_time_skip.
    destruct l as [[|n]|].
    - now rewrite since_time_collect_unlimited by auto.
    - change 0%nat with (@List.length Message []).
      rewrite since_time_collect_limited by (simpl; lia). reflexivity.
    - now rewrite since_time_collect_unlimited by auto. }
  split; [apply Hrun|]. split; [now rewrite !Hrun|]. split.
  - apply up_to_Forall, newer_prefix_newer.
  - intros n ->. unfold result. simpl. rewrite length_take. lia.
Qed.

(** ** Safe strings *)

Lemma safe_chars_raw s : Forall (fun c => safe_alphabet c = true) (concat (map safe_char s)).
Proof.
  induction s as [|c s IH]; simpl; [constructor|].
  apply Forall_app. split; [|exact IH].
  unfold safe_char. fold (safe_alphabet c).
  destruct (safe_alphabet c) eqn:E; [repeat constructor; exact E|].
  destruct (isspace c); repeat constructor.
Qed.

Lemma squeeze_Forall (P : ascii -> Prop) s : Forall P s -> Forall P (squeeze_underscores s).
Proof.
  induction 1 as [|c s Hc Hs IH]; [constructor|].
  cbn [squeeze_underscores].
  destruct (Ascii.eqb c underscore); [|constructor; assumption].
  destruct s as [|c' s']; [repeat constructor; assumption|].
  destruct (Ascii.eqb c' underscore); [exact IH|constructor; assumption].
Qed.

Lemma squeeze_head s :
  head (squeeze_underscores s) = head s.
Proof.
  induction s as [|c s IH]; [reflexivity|]. cbn [squeeze_underscores].
  destruct (Ascii.eqb_spec c underscore) as [->|Hne]; [|reflexivity].
  destruct s as [|c' s']; [reflexivity|].
  destruct (Ascii.eqb_spec c' underscore) as [->|Hne']; [|reflexivity].
  rewrite IH. reflexivity.
Qed.

Lemma squeeze_no_double s : no_double_underscore (squeeze_underscores s).
Proof.
  induction s as [|c s IH]; [exact I|]. cbn [squeeze_underscores].
  destruct (Ascii.eqb_spec c underscore) as [->|Hne].
  - destruct s as [|c' s']; [exact I|].
    destruct (Ascii.eqb_spec c' underscore) as [->|Hne']; [exact IH|].
    pose proof (squeeze_head (c' :: s')) as Hh.
    destruct (squeeze_underscores (c' :: s')) as [|b t] eqn:E; [exact I|].
    simpl in Hh. injection Hh as ->. split; [|exact IH]. intros [_ H]. contradiction.
  - destruct (squeeze_underscores s) as [|b t] eqn:E; [exact I|].
    split; [|exact IH]. intros [H _]. contradiction.
Qed.

Lemma lstrip_spec c s : exists k, s = replicate k c ++ lstrip c s.
Proof.
  induction s as [|x s IH]; [exists 0%nat; reflexivity|]. simpl.
  destruct (Ascii.eqb_spec x c) as [->|Hne]; [|exists 0%nat; reflexivity].
  destruct IH as [k Hk]. exists (S k). simpl. now rewrite <- Hk.
Qed.

Lemma lstrip_head c s : head (lstrip c s) <> Some c.
Proof.
  induction s as [|x s IH]; [discriminate|]. simpl.
  destruct (Ascii.eqb_spec x c) as [->|Hne]; [exact IH|]. simpl. congruence.
Qed.

Lemma strip_spec c s :
  exists j k, s = replicate j c ++ strip c s ++ replicate k c.
Proof.
  unfold strip. destruct (lstrip_spec c s) as [j Hj].
  destruct (lstrip_spec c (rev (lstrip c s))) as [k Hk].
  exists j, k. rewrite Hj at 1. f_equal.
  rewrite <- (rev_involutive (lstrip c s)) at 1. rewrite Hk at 1.
  rewrite rev_app_distr. f_equal.
  clear. induction k as [|k IH]; [reflexivity|].
  cbn [replicate rev]. rewrite IH. clear.
  induction k as [|k IH]; [reflexivity|]. simpl. now rewrite IH.
Qed.

Lemma last_rev_head {A} (l : list A) : last (rev l) = head l.
Proof. rewrite rev_alt. apply last_reverse. Qed.

Lemma strip_ends c s : head (strip c s) <> Some c /\ last (strip c s) <> Some c.
Proof.
  unfold strip. set (t := lstrip c s).
  pose proof (lstrip_head c s) as Ht. fold t in Ht.
  pose proof (lstrip_head c (rev t)) as Hu.
  destruct (lstrip_spec c (rev t)) as [k Hk].
  set (u := lstrip c (rev t)) in *.
  split.
  - destruct u as [|x u'] using rev_ind; [discriminate|].
    rewrite rev_app_distr. simpl. intros [= ->].
    assert (Hr : t = rev (replicate k c ++ u' ++ [c])) by (rewrite <- Hk; now rewrite rev_involutive).
    rewrite !rev_app_distr in Hr. simpl in Hr. rewrite Hr in Ht. simpl in Ht. congruence.
  - rewrite last_rev_head. exact Hu.
Qed.

Lemma no_double_app_l a b : no_double_underscore (a ++ b) -> no_double_underscore a.
Proof.
  induction a as [|x a IH]; [intros; exact I|]. destruct a as [|y a]; [intros; exact I|].
  simpl. intros [H1 H2]. split; [exact H1|]. apply IH. exact H2.
Qed.

Lemma no_double_app_r a b : no_double_underscore (a ++ b) -> no_double_underscore b.
Proof.
  induction a as [|x a IH]; [auto|]. intros H. apply IH.
  destruct a as [|y a]; simpl in *.
  - destruct b; [exact I|apply H].
  - apply H.
Qed.

Lemma take_no_double n s : no_double_underscore s -> no_double_underscore (take n s).
Proof. intros H. apply (no_double_app_l _ (drop n s)). now rewrite take_drop. Qed.

Lemma stripped_chars_safe s :
  Forall (fun c => safe_alphabet c = true)
    (strip underscore (squeeze_underscores (concat (map safe_char s)))).
Proof.
  set (raw := concat (map safe_char s)).
  pose proof (squeeze_Forall _ _ (safe_chars_raw s)) as H. fold raw in H.
  destruct (strip_spec underscore (squeeze_underscores raw)) as (j & k & E).
  rewrite E in H. apply Forall_app in H as [_ H]. now apply Forall_app in H as [H _].
Qed.

Lemma safe_string_safe text :
  Forall (fun c => safe_alphabet c = true) (chars (safe_string text)).
Proof.
  unfold safe_string, chars. rewrite list_ascii_of_string_of_list_ascii.
  pose proof (stripped_chars_safe (list_ascii_of_string text)) as Hs.
  destruct (_ <? _)%nat; [now apply Forall_take|exact Hs].
Qed.

(** X12: a safe string is at most 50 characters long and is written in
    the safe alphabet only (letters, digits, [-], [_], [.]): no
    whitespace, no path separator and no other character of the input
    gets through. *)
Theorem safe_string_alphabet_and_length (text : string) :
  (List.length (chars (safe_string text)) <= 50)%nat
  /\ Forall (fun c => safe_alphabet c = true) (chars (safe_string text)).
Proof.
  split; [|apply safe_string_safe].
  unfold safe_string, chars. rewrite list_ascii_of_string_of_list_ascii.
  set (t := strip underscore
              (squeeze_underscores (concat (map safe_char (list_ascii_of_string text))))).
  destruct (Nat.ltb_spec 50 (List.length t)); [|lia].
  rewrite length_take. lia.
Qed.

(** X13: a safe string never starts with an underscore and never has two
    underscores in a row; it can end with one only when it was cut at 50
    characters. *)
Theorem safe_string_underscores (text : string) :
  let s := chars (safe_string text) in
  head s <> Some underscore
  /\ no_double_underscore s
  /\ ((List.length s < 50)%nat -> last s <> Some underscore).
Proof.
  unfold safe_string, chars. rewrite list_ascii_of_string_of_list_ascii.
  set (raw := concat (map safe_char (list_ascii_of_string text))).
  set (t := strip underscore (squeeze_underscores raw)).
  destruct (strip_ends underscore (squeeze_underscores raw)) as [Hh Hl]. fold t in Hh, Hl.
  assert (Hd : no_double_underscore t).
  { pose proof (squeeze_no_double raw) as H.
    destruct (strip_spec underscore (squeeze_underscores raw)) as (j & k & E).
    fold t in E. rewrite E in H. apply no_double_app_r in H. now apply no_double_app_l in H. }
  cbv zeta.
  destruct (Nat.ltb_spec 50 (List.length t)) as [Hlong|Hshort].
  - split; [|split].
    + destruct t; simpl in *; [discriminate|exact Hh].
    + now apply take_no_double.
    + rewrite length_take. lia.
  - auto.
Qed.

(** ** The analysis loop: what it computes *)

Lemma attachments_locals scanned scan_all message atts : forall a w,
  exists w', foldM (analyze_attachment scanned scan_all message) a atts w
             = (Ret (fold_left (attachment_step scanned scan_all message) atts a), w')
    /\ omap found_url (trace w')
       = omap found_url (trace w)
         ++ List.filter (kept scanned scan_all) (map att_url atts).
Proof.
  induction atts as [|att atts IH]; intros a w; simpl.
  - exists w. split; [reflexivity|]. now rewrite app_nil_r.
  - unfold bind at 1. unfold analyze_attachment at 1.
    destruct (negb scan_all && bool_decide (att_url att ∈ scanned)) eqn:E.
    + assert (Ek : kept scanned scan_all (att_url att) = false)
        by (unfold kept; now rewrite E).
      replace (attachment_step scanned scan_all message a att) with a
        by (unfold attachment_step; now rewrite Ek).
      rewrite Ek.
      unfold bind at 1. rewrite emit_eq. unfold ret at 1.
      destruct (IH a (snoc_trace w (LogSkipping (att_url att)))) as (w' & Hrun & Ht).
      exists w'. split; [exact Hrun|]. rewrite Ht. simpl.
      rewrite omap_app. simpl. now rewrite app_nil_r.
    + assert (Ek : kept scanned scan_all (att_url att) = true)
        by (unfold kept; now rewrite E).
      replace (attachment_step scanned scan_all message a att)
        with (categorize message (att_url att) a)
        by (unfold attachment_step; now rewrite Ek).
      rewrite Ek.
      unfold bind at 1. rewrite emit_eq. unfold ret at 1.
      destruct (IH (categorize message (att_url att) a)
                  (snoc_trace w (LogFound (an_counter a) (att_url att))))
        as (w' & Hrun & Ht).
      exists w'. split; [exact Hrun|]. rewrite Ht. simpl.
      rewrite omap_app. simpl. now rewrite <- app_assoc.
Qed.

Lemma message_locals scanned scan_all c a m w :
  exists w', analyze_message scanned scan_all c a m w
             = (Ret (message_step scanned scan_all a m), w')
    /\ omap found_url (trace w')
       = omap found_url (trace w) ++ found_urls scanned scan_all [m].
Proof.
  unfold analyze_message, message_step, found_urls, reached_urls.
  cbn [flat_map]. rewrite app_nil_r.
  destruct (nonempty (msg_attachments m) && negb (author_bot (msg_author m))).
  - destruct (attachments_locals scanned scan_all m (msg_attachments m) (count_message a) w)
      as (w1 & Hrun & Ht).
    unfold bind at 1. rewrite Hrun.
    match goal with |- context [if ?b then _ else _] => destruct b end.
    + unfold bind, update_scan_progress, bind. rewrite emit_eq. unfold modify_recovery, ret.
      eexists. split; [reflexivity|]. simpl. rewrite omap_app, Ht. simpl.
      now rewrite app_nil_r.
    + exists w1. split; [reflexivity|exact Ht].
  - unfold bind at 1, ret at 1.
    match goal with |- context [if ?b then _ else _] => destruct b end.
    + unfold bind, update_scan_progress, bind. rewrite emit_eq. unfold modify_recovery, ret.
      eexists. split; [reflexivity|]. simpl. rewrite omap_app. simpl.
      now rewrite !app_nil_r.
    + exists w. split; [reflexivity|]. simpl. now rewrite app_nil_r.
Qed.

Lemma found_urls_app scanned scan_all l1 l2 :
  found_urls scanned scan_all (l1 ++ l2)
  = found_urls scanned scan_all l1 ++ found_urls scanned scan_all l2.
Proof.
  unfold found_urls, reached_urls. rewrite flat_map_app. apply List.filter_app.
Qed.

Lemma messages_locals scanned scan_all c msgs : forall a w,
  exists w', foldM (analyze_message scanned scan_all c) a msgs w
             = (Ret (fold_left (message_step scanned scan_all) msgs a), w')
    /\ omap found_url (trace w')
       = omap found_url (trace w) ++ found_urls scanned scan_all msgs.
Proof.
  induction msgs as [|m msgs IH]; intros a w; simpl.
  - exists w. split; [reflexivity|]. now rewrite app_nil_r.
  - destruct (message_locals scanned scan_all c a m w) as (w1 & Hrun1 & Ht1).
    destruct (IH (message_step scanned scan_all a m) w1) as (w2 & Hrun2 & Ht2).
    exists w2. unfold bind. rewrite Hrun1. split; [exact Hrun2|].
    rewrite Ht2, Ht1, <- app_assoc. f_equal.
    change (m :: msgs) with ([m] ++ msgs). now rewrite found_urls_app.
Qed.

Lemma analysis_run_locals msgs scanned scan_all c start w :
  exists w', analysis_run msgs scanned scan_all c start w
             = (Ret (analysis_result scanned scan_all start msgs), w')
    /\ omap found_url (trace w')
       = omap found_url (trace w) ++ found_urls scanned scan_all msgs.
Proof.
  unfold analysis_run, analysis_result.
  destruct (messages_locals scanned scan_all c msgs (start_analysis start) w)
    as (w1 & Hrun & Ht).
  unfold bind at 1. rewrite Hrun.
  unfold bind, update_scan_progress, bind. rewrite emit_eq. unfold modify_recovery, ret.
  eexists. split; [reflexivity|]. simpl. rewrite omap_app, Ht. simpl.
  now rewrite app_nil_r.
Qed.

(** ** Ordinals in file names *)

Lemma chars_app a b : chars (a +:+ b) = chars a ++ chars b.
Proof. unfold chars. induction a as [|c a IH]; simpl; [reflexivity|now rewrite IH]. Qed.

Lemma decimal_value_app acc s1 s2 :
  decimal_value acc (s1 ++ s2) = decimal_value (decimal_value acc s1) s2.
Proof. apply fold_left_app. Qed.

Lemma pretty_N_char_digit x :
  (x < 10)%N ->
  is_decimal (pretty_N_char x) = true /\ (code (pretty_N_char x) - 48 = x)%N.
Proof.
  intros Hx.
  assert (x = 0 \/ x = 1 \/ x = 2 \/ x = 3 \/ x = 4 \/ x = 5 \/ x = 6 \/ x = 7
          \/ x = 8 \/ x = 9)%N as H by lia.
  repeat (destruct H as [->|H]; [split; reflexivity|]). subst. split; reflexivity.
Qed.

Lemma pretty_N_go_digits x : forall s,
  exists d, chars (pretty_N_go x s) = d ++ chars s
    /\ Forall (fun c => is_decimal c = true) d
    /\ forall acc, decimal_value acc d = (acc * 10 ^ N.of_nat (List.length d) + x)%N.
Proof.
  induction (N.lt_wf_0 x) as [x _ IH]. intros s.
  destruct (N.eq_dec x 0%N) as [->|Hx].
  - exists []. rewrite pretty_N_go_0. split; [reflexivity|]. split; [constructor|].
    intros acc. simpl. lia.
  - rewrite pretty_N_go_step by lia.
    destruct (IH (x `div` 10)%N (N.div_lt x 10%N ltac:(lia) eq_refl)
                 (String (pretty_N_char (x `mod` 10)) s)) as (d & Hd & Hdig & Hval).
    destruct (pretty_N_char_digit (x `mod` 10)%N) as [Hc Hv];
      [apply N.mod_lt; lia|].
    exists (d ++ [pretty_N_char (x `mod` 10)]).
    split; [rewrite Hd; simpl; now rewrite <- app_assoc|].
    split; [apply Forall_app; split; [exact Hdig|repeat constructor; exact Hc]|].
    intros acc. rewrite decimal_value_app, Hval. simpl. rewrite Hv.
    rewrite length_app. simpl. rewrite Nat2N.inj_add. simpl.
    rewrite N.pow_add_r, N.pow_1_r.
    pose proof (N.div_mod x 10%N ltac:(lia)) as Hdm. lia.
Qed.

Lemma pretty_nat_digits (n : nat) :
  Forall (fun c => is_decimal c = true) (chars (pretty n))
  /\ decimal_value 0 (chars (pretty n)) = N.of_nat n.
Proof.
  unfold pretty, pretty_nat, pretty, pretty_N.
  destruct (decide (N.of_nat n = 0)%N) as [E|E].
  - rewrite E. split; [repeat constructor|reflexivity].
  - destruct (pretty_N_go_digits (N.of_nat n) "") as (d & Hd & Hdig & Hval).
    simpl in Hd. rewrite app_nil_r in Hd. rewrite Hd. split; [exact Hdig|].
    rewrite Hval. lia.
Qed.

Lemma chars_zfill width n :
  chars (zfill width n)
  = replicate (width - List.length (chars (pretty n))) "0"%char ++ chars (pretty n).
Proof. unfold zfill. unfold chars at 1. apply list_ascii_of_string_of_list_ascii. Qed.

Lemma zfill_digits width n :
  Forall (fun c => is_decimal c = true) (chars (zfill width n))
  /\ decimal_value 0 (chars (zfill width n)) = N.of_nat n
  /\ (width <= List.length (chars (zfill width n)))%nat.
Proof.
  rewrite chars_zfill.
  destruct (pretty_nat_digits n) as [Hdig Hval].
  set (k := (width - List.length (chars (pretty n)))%nat).
  split; [|split].
  - apply Forall_app. split; [|exact Hdig].
    apply Forall_replicate. reflexivity.
  - rewrite decimal_value_app.
    replace (decimal_value 0 (replicate k "0"%char)) with 0%N; [exact Hval|].
    clear. induction k as [|k IH]; [reflexivity|]. simpl. exact IH.
  - rewrite length_app, length_replicate. unfold k. lia.
Qed.

Lemma digits_prefix_unique d d' r r' :
  Forall (fun c => is_decimal c = true) d ->
  Forall (fun c => is_decimal c = true) d' ->
  d ++ underscore :: r = d' ++ underscore :: r' -> d = d'.
Proof.
  intros Hd. revert d'. induction Hd as [|c d Hc _ IH]; intros d' Hd' E.
  - destruct Hd' as [|c' d' Hc' _]; [reflexivity|].
    simpl in E. injection E as <- _. discriminate.
  - destruct Hd' as [|c' d' Hc' Hd'].
    + simpl in E. injection E as -> _. discriminate.
    + simpl in E. injection E as <- E. f_equal. now apply IH.
Qed.

Lemma attachment_name_ordinal k k' m m' u u' :
  attachment_name k m u = attachment_name k' m' u' -> k = k'.
Proof.
  intros E. apply (f_equal chars) in E. unfold attachment_name in E.
  rewrite !chars_app in E.
  destruct (zfill_digits 4 k) as (Hd & Hv & _).
  destruct (zfill_digits 4 k') as (Hd' & Hv' & _).
  assert (Hz : chars (zfill 4 k) = chars (zfill 4 k')).
  { eapply digits_prefix_unique; [exact Hd|exact Hd'|]. exact E. }
  rewrite Hz in Hv. rewrite Hv in Hv'. lia.
Qed.

(** ** The analysis loop: its results *)

Lemma attachments_outputs scanned scan_all m atts : forall a,
  let L := List.filter (kept scanned scan_all) (map att_url atts) in
  let a' := fold_left (attachment_step scanned scan_all m) atts a in
  an_new_urls a' = an_new_urls a ∪ list_to_set L
  /\ an_found_media a' = (an_found_media a + List.length L)%nat
  /\ an_counter a' = (an_counter a + List.length L)%nat
  /\ an_processed_count a' = an_processed_count a.
Proof.
  induction atts as [|att atts IH]; intros a; cbn [fold_left map List.filter].
  - simpl. rewrite (right_id_L ∅ (∪)). repeat split; lia.
  - unfold attachment_step at 2 4 6 8.
    destruct (kept scanned scan_all (att_url att)).
    + destruct (IH (categorize m (att_url att) a)) as (H1 & H2 & H3 & H4).
      cbv zeta in *. rewrite H1, H2, H3, H4. cbn [list_to_set List.length].
      unfold categorize; cbn [an_new_urls an_found_media an_counter an_processed_count].
      split; [|repeat split; lia].
      rewrite (assoc_L (∪)). f_equal. apply (comm_L (∪)).
    + apply IH.
Qed.

Lemma message_outputs scanned scan_all a m :
  let L := found_urls scanned scan_all [m] in
  let a' := message_step scanned scan_all a m in
  an_new_urls a' = an_new_urls a ∪ list_to_set L
  /\ an_found_media a' = (an_found_media a + List.length L)%nat
  /\ an_counter a' = (an_counter a + List.length L)%nat
  /\ an_processed_count a' = (an_processed_count a + 1)%nat.
Proof.
  unfold message_step, found_urls, reached_urls. cbn [flat_map]. rewrite app_nil_r.
  destruct (nonempty (msg_attachments m) && negb (author_bot (msg_author m))).
  - apply (attachments_outputs scanned scan_all m (msg_attachments m) (count_message a)).
  - simpl. rewrite (right_id_L ∅ (∪)). repeat split; lia.
Qed.

Lemma messages_outputs scanned scan_all msgs : forall a,
  let L := found_urls scanned scan_all msgs in
  let a' := fold_left (message_step scanned scan_all) msgs a in
  an_new_urls a' = an_new_urls a ∪ list_to_set L
  /\ an_found_media a' = (an_found_media a + List.length L)%nat
  /\ an_counter a' = (an_counter a + List.length L)%nat
  /\ an_processed_count a' = (an_processed_count a + List.length msgs)%nat.
Proof.
  induction msgs as [|m msgs IH]; intros a.
  - simpl. rewrite (right_id_L ∅ (∪)). repeat split; lia.
  - change (m :: msgs) with ([m] ++ msgs) at 1. rewrite found_urls_app.
    cbn [fold_left List.length].
    destruct (message_outputs scanned scan_all a m) as (G1 & G2 & G3 & G4).
    destruct (IH (message_step scanned scan_all a m)) as (H1 & H2 & H3 & H4).
    cbv zeta in *. rewrite H1, H2, H3, H4, G1, G2, G3, G4.
    rewrite list_to_set_app_L, length_app, (assoc_L (∪)). repeat split; lia.
Qed.

Lemma size_list_to_set_le (l : list string) :
  (size (list_to_set l : gset string) <= List.length l)%nat.
Proof.
  induction l as [|u l IH]; cbn [list_to_set List.length].
  - rewrite size_empty. lia.
  - rewrite size_union_alt, size_singleton.
    assert (size (list_to_set l ∖ {[u]} : gset string) <= size (list_to_set l : gset string))%nat
      by (apply subseteq_size, subseteq_difference_l; reflexivity).
    lia.
Qed.

(** X14: what one analysis run computes.  The run returns; the URLs it
    logs as found are, in order, the attachments of the messages not
    written by a bot that are not skipped; [found_media] is their number
    with repetitions, the set of new URLs is their set, the counter ends
    one past the last ordinal given, and the processed count has gone up
    by the number of messages. *)
Theorem analysis_outputs (msgs : list Message) (scanned : gset string)
    (scan_all : bool) (c : N) (start : nat) (w : World) :
  let found := found_urls scanned scan_all msgs in
  exists a w',
    analysis_run msgs scanned scan_all c start w = (Ret a, w')
    /\ omap found_url (trace w') = omap found_url (trace w) ++ found
    /\ an_new_urls a = list_to_set found
    /\ an_found_media a = List.length found
    /\ an_counter a = (start + 1 + List.length found)%nat
    /\ an_processed_count a = (start + List.length msgs)%nat
    /\ (size (an_new_urls a) <= an_found_media a)%nat.
Proof.
  intros found.
  destruct (analysis_run_locals msgs scanned scan_all c start w) as (w' & Hrun & Ht).
  exists (analysis_result scanned scan_all start msgs), w'.
  split; [exact Hrun|]. split; [exact Ht|].
  destruct (messages_outputs scanned scan_all msgs (start_analysis start))
    as (H1 & H2 & H3 & H4).
  unfold analysis_result. cbv zeta in *. fold found in H1, H2, H3.
  rewrite H1, H2, H3, H4. simpl. rewrite (left_id_L ∅ (∪)).
  repeat split; try lia.
  apply size_list_to_set_le.
Qed.

Lemma analysis_result_invariant (Inv : Analysis -> Prop) scanned scan_all :
  (forall a, Inv a -> Inv (count_message a)) ->
  (forall a m u, Inv a -> kept scanned scan_all u = true -> Inv (categorize m u a)) ->
  forall msgs a, Inv a -> Inv (fold_left (message_step scanned scan_all) msgs a).
Proof.
  intros Hcount Hcat.
  assert (Hatt : forall m atts a, Inv a ->
            Inv (fold_left (attachment_step scanned scan_all m) atts a)).
  { intros m atts. induction atts as [|att atts IH]; intros a Ha; simpl; [exact Ha|].
    apply IH. unfold attachment_step.
    destruct (kept scanned scan_all (att_url att)) eqn:E; [now apply Hcat|exact Ha]. }
  induction msgs as [|m msgs IH]; intros a Ha; simpl; [exact Ha|].
  apply IH. unfold message_step.
  destruct (nonempty (msg_attachments m) && negb (author_bot (msg_author m)));
    [apply Hatt|]; now apply Hcount.
Qed.

Lemma analysis_run_result msgs scanned scan_all c start w :
  (analysis_run msgs scanned scan_all c start w).1
  = Ret (analysis_result scanned scan_all start msgs).
Proof.
  destruct (analysis_run_locals msgs scanned scan_all c start w) as (w' & -> & _).
  reflexivity.
Qed.

Lemma buckets_sorted_categorize a m u : buckets_sorted a -> buckets_sorted (categorize m u a).
Proof.
  intros Ha url. specialize (Ha url) as (Hi & Hv & Ho).
  unfold categorize. cbn [an_images an_videos an_others an_new_urls].
  assert (Hin : forall x : string, x ∈ {[u]} ∪ an_new_urls a <-> x = u \/ x ∈ an_new_urls a).
  { intros x. rewrite elem_of_union, elem_of_singleton. reflexivity. }
  rewrite !Hin.
  destruct (classify u) eqn:Eu;
    rewrite ?lookup_insert_is_Some', ?Hi, ?Hv, ?Ho;
    (split; [|split]); split; intros H;
    repeat match goal with
           | H : _ /\ _ |- _ => destruct H
           | H : _ \/ _ |- _ => destruct H
           end; subst; try congruence; auto.
Qed.

Lemma analysis_buckets_sorted scanned scan_all start msgs :
  buckets_sorted (analysis_result scanned scan_all start msgs).
Proof.
  unfold analysis_result. apply analysis_result_invariant.
  - intros a Ha. exact Ha.
  - intros a m u Ha _. now apply buckets_sorted_categorize.
  - intros url. simpl. rewrite !lookup_empty.
    assert (He : forall k : Category,
              is_Some (@None string) <-> url ∈ (∅ : gset string) /\ classify url = k).
    { intros k. split; [intros [? [=]]|intros [Hin _]; now apply not_elem_of_empty in Hin]. }
    auto.
Qed.

(** X15: after an analysis run the three buckets sort the new URLs by
    category: a URL is filed under Image, Video or Other exactly when it
    was found in this run and the classifier gives it that category; so
    every new URL is in exactly one bucket and no bucket holds anything
    else.  With [scan_all] off, no new URL was in the seen set. *)
Theorem buckets_sort_new_urls (msgs : list Message) (scanned : gset string)
    (scan_all : bool) (c : N) (start : nat) (w : World) :
  exists a,
    (analysis_run msgs scanned scan_all c start w).1 = Ret a
    /\ buckets_sorted a
    /\ (forall url, url ∈ an_new_urls a <-> is_Some (filed_name a url))
    /\ (scan_all = false -> forall url, url ∈ an_new_urls a -> url ∉ scanned).
Proof.
  exists (analysis_result scanned scan_all start msgs).
  split; [apply analysis_run_result|].
  pose proof (analysis_buckets_sorted scanned scan_all start msgs) as Hs.
  split; [exact Hs|]. split.
  - intros url. destruct (Hs url) as (Hi & Hv & Ho). unfold filed_name.
    destruct (an_images _ !! url) eqn:Ei.
    { split; [eauto|]. intros _. apply Hi. eauto. }
    destruct (an_videos _ !! url) eqn:Ev.
    { split; [eauto|]. intros _. apply Hv. eauto. }
    rewrite Ho. split; [|tauto]. intros Hin. split; [exact Hin|].
    destruct (classify url) eqn:Ec; [| |reflexivity].
    + destruct (proj2 Hi (conj Hin eq_refl)) as [? [=]].
    + destruct (proj2 Hv (conj Hin eq_refl)) as [? [=]].
  - intros -> url.
    destruct (messages_outputs scanned false msgs (start_analysis start)) as (H1 & _).
    unfold analysis_result. cbv zeta in H1. rewrite H1. simpl.
    rewrite (left_id_L ∅ (∪)), elem_of_list_to_set.
    unfold found_urls. rewrite list_elem_of_In, filter_In. intros [_ Hk].
    unfold kept in Hk. simpl in Hk. apply negb_true_iff in Hk.
    now apply bool_decide_eq_false in Hk.
Qed.

Lemma names_generated_step owner a m u bucket :
  names_generated owner a bucket ->
  names_generated (fun k => if (k =? an_counter a)%nat then u else owner k)
    (categorize m u a) bucket.
Proof.
  intros H url name Hl. destruct (H url name Hl) as (k & msg & Hk & Ho & Hn).
  exists k, msg. rewrite categorize_counter.
  split; [lia|]. split; [|exact Hn].
  destruct (Nat.eqb_spec k (an_counter a)); [lia|exact Ho].
Qed.

Lemma names_generated_insert owner a m u bucket :
  names_generated owner a bucket ->
  names_generated (fun k => if (k =? an_counter a)%nat then u else owner k)
    (categorize m u a) (<[u := attachment_name (an_counter a) m u]> bucket).
Proof.
  intros H url name Hl. destruct (decide (url = u)) as [->|Hne].
  - rewrite lookup_insert_eq in Hl. injection Hl as <-.
    exists (an_counter a), m. rewrite categorize_counter, Nat.eqb_refl.
    split; [lia|]. auto.
  - rewrite lookup_insert_ne in Hl by congruence.
    now apply (names_generated_step owner a m u bucket H).
Qed.

(** X16: the file names of one analysis run never collide: over the
    three buckets together, two different URLs never carry the same
    generated name, and every name carries an ordinal of this run (from
    [start_counter + 1] up to the number of media found). *)
Theorem generated_names_distinct (msgs : list Message) (scanned : gset string)
    (scan_all : bool) (c : N) (start : nat) (w : World) :
  exists a,
    (analysis_run msgs scanned scan_all c start w).1 = Ret a
    /\ (forall url1 url2 name,
          filed_name a url1 = Some name -> filed_name a url2 = Some name -> url1 = url2)
    /\ (forall url name, filed_name a url = Some name ->
          exists k message, (start < k <= start + an_found_media a)%nat
                            /\ name = attachment_name k message url).
Proof.
  exists (analysis_result scanned scan_all start msgs).
  split; [apply analysis_run_result|].
  assert (Hinv : exists owner,
    let a := analysis_result scanned scan_all start msgs in
    names_generated owner a (an_images a) /\ names_generated owner a (an_videos a)
    /\ names_generated owner a (an_others a)
    /\ (forall url name, an_images a !! url = Some name \/ an_videos a !! url = Some name
                         \/ an_others a !! url = Some name ->
          exists k message, (start < k)%nat /\ name = attachment_name k message url)
    /\ (start < an_counter a)%nat).
  { unfold analysis_result. cbv zeta.
    apply (analysis_result_invariant
             (fun a => exists owner,
                names_generated owner a (an_images a) /\ names_generated owner a (an_videos a)
                /\ names_generated owner a (an_others a)
                /\ (forall url name, an_images a !! url = Some name
                                     \/ an_videos a !! url = Some name
                                     \/ an_others a !! url = Some name ->
                      exists k message, (start < k)%nat /\ name = attachment_name k message url)
                /\ (start < an_counter a)%nat) scanned scan_all).
    - intros a Ha. exact Ha.
    - intros a m u (owner & Hi & Hv & Ho & Hlow & Hc) _.
      exists (fun k => if (k =? an_counter a)%nat then u else owner k).
      pose proof (names_generated_step owner a m u _ Hi) as Hi'.
      pose proof (names_generated_step owner a m u _ Hv) as Hv'.
      pose proof (names_generated_step owner a m u _ Ho) as Ho'.
      pose proof (names_generated_insert owner a m u _ Hi) as Hi2.
      pose proof (names_generated_insert owner a m u _ Hv) as Hv2.
      pose proof (names_generated_insert owner a m u _ Ho) as Ho2.
      assert (Hlow' : forall (b b' : gmap string string) url name,
                (b' = b \/ b' = <[u := attachment_name (an_counter a) m u]> b) ->
                (forall url name, b !! url = Some name ->
                   exists k message, (start < k)%nat /\ name = attachment_name k message url) ->
                b' !! url = Some name ->
                exists k message, (start < k)%nat /\ name = attachment_name k message url).
      { intros b b' url name [-> | ->] Hb Hl; [eauto|].
        destruct (decide (url = u)) as [->|Hne].
        - rewrite lookup_insert_eq in Hl. injection Hl as <-. eauto.
        - rewrite lookup_insert_ne in Hl by congruence. eauto. }
      rewrite categorize_counter.
      unfold categorize at 2 4 6 7 8 9; cbn [an_images an_videos an_others].
      split; [destruct (classify u); assumption|].
      split; [destruct (classify u); assumption|].
      split; [destruct (classify u); assumption|].
      split; [|lia].
      intros url name [Hl|[Hl|Hl]].
      + eapply (Hlow' (an_images a)); [|intros ? ? ?; apply Hlow; eauto|exact Hl].
        destruct (classify u); auto.
      + eapply (Hlow' (an_videos a)); [|intros ? ? ?; apply Hlow; eauto|exact Hl].
        destruct (classify u); auto.
      + eapply (Hlow' (an_others a)); [|intros ? ? ?; apply Hlow; eauto|exact Hl].
        destruct (classify u); auto.
    - exists (fun _ => ""). simpl.
      repeat split; try (intros url name Hl; rewrite lookup_empty in Hl; discriminate);
        try lia.
      intros url name [Hl|[Hl|Hl]]; rewrite lookup_empty in Hl; discriminate. }
  destruct Hinv as (owner & Hi & Hv & Ho & Hlow & Hc). cbv zeta in *.
  set (a := analysis_result scanned scan_all start msgs) in *.
  assert (Hfiled : forall url name, filed_name a url = Some name ->
            an_images a !! url = Some name \/ an_videos a !! url = Some name
            \/ an_others a !! url = Some name).
  { intros url name. unfold filed_name.
    destruct (an_images a !! url); [intros [= ->]; auto|].
    destruct (an_videos a !! url); [intros [= ->]; auto|]. auto. }
  assert (Hgen : forall url name, filed_name a url = Some name ->
            exists k message, (k < an_counter a)%nat /\ owner k = url
                              /\ name = attachment_name k message url).
  { intros url name Hf. destruct (Hfiled url name Hf) as [H|[H|H]];
      [apply (Hi _ _ H)|apply (Hv _ _ H)|apply (Ho _ _ H)]. }
  split.
  - intros url1 url2 name H1 H2.
    destruct (Hgen _ _ H1) as (k1 & m1 & _ & O1 & N1).
    destruct (Hgen _ _ H2) as (k2 & m2 & _ & O2 & N2).
    rewrite N1 in N2. apply attachment_name_ordinal in N2. congruence.
  - intros url name Hf.
    destruct (Hgen _ _ Hf) as (k & m & Hk & _ & Hn).
    destruct (Hlow url name (Hfiled _ _ Hf)) as (k' & m' & Hk' & Hn').
    assert (k = k') by (rewrite Hn in Hn'; now apply attachment_name_ordinal in Hn').
    subst k'. exists k, m. split; [|exact Hn].
    destruct (messages_outputs scanned scan_all msgs (start_analysis start))
      as (_ & H2 & H3 & _).
    fold (analysis_result scanned scan_all start msgs) in H2, H3. fold a in H2, H3.
    cbv zeta in *. simpl in H2, H3. lia.
Qed.

(** ** Steps of a handler, composed *)

Section Preserves.
Variable R : World -> World -> Prop.
Hypothesis R_refl : forall w, R w w.
Hypothesis R_trans : forall w1 w2 w3, R w1 w2 -> R w2 w3 -> R w1 w3.

Lemma preserves_ret {A} (a : A) : preserves R (ret a).
Proof. intros w. apply R_refl. Qed.

Lemma preserves_raise {A} e : preserves R (@raise A e).
Proof. intros w. apply R_refl. Qed.

Lemma preserves_bind {A B} (m : M A) (k : A -> M B) :
  preserves R m -> (forall a, preserves R (k a)) -> preserves R (bind m k).
Proof.
  intros Hm Hk w. unfold bind. specialize (Hm w).
  destruct (m w) as [[a|e] w1]; simpl in *; [|exact Hm].
  eapply R_trans; [exact Hm|apply Hk].
Qed.

Lemma preserves_mapM {A B} (f : A -> M B) l :
  (forall a, preserves R (f a)) -> preserves R (mapM f l).
Proof.
  intros Hf. induction l as [|a l IH]; simpl; [apply preserves_ret|].
  apply preserves_bind; [apply Hf|]. intros b.
  apply preserves_bind; [exact IH|]. intros bs. apply preserves_ret.
Qed.

Lemma preserves_foldM {A B} (f : A -> B -> M A) l :
  (forall a b, preserves R (f a b)) -> forall a, preserves R (foldM f a l).
Proof.
  intros Hf. induction l as [|b l IH]; intros a; simpl; [apply preserves_ret|].
  apply preserves_bind; [apply Hf|]. intros a'. apply IH.
Qed.

Lemma preserves_try body handler cleanup :
  preserves R body -> (forall e, preserves R (handler e)) -> preserves R cleanup ->
  preserves R (try_except_finally body handler cleanup).
Proof.
  intros Hb Hh Hc w. unfold try_except_finally. specialize (Hb w).
  destruct (body w) as [[u|e] w1]; simpl in *.
  - eapply R_trans; [exact Hb|apply Hc].
  - eapply R_trans; [exact Hb|]. apply preserves_bind; [apply Hh|intros _; exact Hc].
Qed.

End Preserves.

Lemma returns_ret {A} (a : A) : returns (ret a).
Proof. intros w. exists a. reflexivity. Qed.

Lemma returns_bind {A B} (m : M A) (k : A -> M B) :
  returns m -> (forall a, returns (k a)) -> returns (bind m k).
Proof.
  intros Hm Hk w. unfold bind. destruct (Hm w) as [a Ha].
  destruct (m w) as [[a'|e] w1]; simpl in Ha; [|discriminate]. apply Hk.
Qed.

Lemma returns_emit e : returns (emit e).
Proof. intros w. exists tt. reflexivity. Qed.

Lemma returns_modify_recovery f : returns (modify_recovery f).
Proof. intros w. exists tt. reflexivity. Qed.

Lemma returns_modify_history f : returns (modify_history f).
Proof. intros w. exists tt. reflexivity. Qed.

Lemma returns_write_file p c : returns (write_file p c).
Proof. intros w. exists tt. reflexivity. Qed.

Lemma returns_mapM {A B} (f : A -> M B) l : (forall a, returns (f a)) -> returns (mapM f l).
Proof.
  intros Hf. induction l as [|a l IH]; simpl; [apply returns_ret|].
  apply returns_bind; [apply Hf|]. intros b.
  apply returns_bind; [exact IH|]. intros bs. apply returns_ret.
Qed.

Lemma returns_foldM {A B} (f : A -> B -> M A) l :
  (forall a b, returns (f a b)) -> forall a, returns (foldM f a l).
Proof.
  intros Hf. induction l as [|b l IH]; intros a; simpl; [apply returns_ret|].
  apply returns_bind; [apply Hf|]. intros a'. apply IH.
Qed.

Create HintDb returns.
#[local] Hint Resolve returns_ret returns_emit returns_modify_recovery
  returns_modify_history returns_write_file : returns.

Ltac returning :=
  repeat first
    [ solve [auto with returns nocore]
    | apply returns_bind; [|intros ?]
    | apply returns_mapM; intros ?
    | apply returns_foldM; intros ? ?
    | match goal with
      | |- returns (send _) => apply returns_emit
      | |- returns (let '(_, _) := ?x in _) => destruct x
      | |- returns (if ?b then _ else _) => destruct b
      | |- returns (match ?x with _ => _ end) => destruct x
      end ].

Lemma returns_download_media env folder task : returns (download_media env folder task).
Proof. unfold download_media. returning. Qed.
#[local] Hint Resolve returns_download_media : returns.

Lemma returns_process_download env cmd selection images videos others :
  returns (process_download env cmd selection images videos others).
Proof. unfold process_download. returning. Qed.
#[local] Hint Resolve returns_process_download : returns.

Lemma returns_handle_download_options env cmd images videos others sizes :
  returns (handle_download_options env cmd images videos others sizes).
Proof. unfold handle_download_options. returning. Qed.

Lemma returns_record_new_urls env c urls : returns (record_new_urls env c urls).
Proof. unfold record_new_urls. returning. Qed.

Lemma returns_complete_scan_session c : returns (complete_scan_session c).
Proof. apply returns_modify_recovery. Qed.

Lemma returns_update_scan_progress c mid p f : returns (update_scan_progress c mid p f).
Proof. unfold update_scan_progress. returning. Qed.

Lemma returns_channel_history env limit : returns (channel_history env limit).
Proof. unfold channel_history. returning. Qed.
#[local] Hint Resolve returns_handle_download_options returns_record_new_urls
  returns_complete_scan_session returns_update_scan_progress
  returns_channel_history : returns.

Lemma returns_get_messages_since_time env since limit anchor :
  returns (get_messages_since_time env since limit anchor).
Proof. unfold get_messages_since_time. returning. Qed.

Lemma returns_get_messages_from_point env anchor limit :
  returns (get_messages_from_point env anchor limit).
Proof. unfold get_messages_from_point. returning. Qed.

Lemma returns_analyze_messages msgs scanned scan_all c start :
  returns (analyze_messages_with_recovery msgs scanned scan_all c start).
Proof.
  unfold analyze_messages_with_recovery, analysis_run, analyze_message,
    analyze_attachment.
  returning.
Qed.
#[local] Hint Resolve returns_get_messages_since_time returns_get_messages_from_point
  returns_analyze_messages : returns.

(** ** The footprint of a command *)

Lemma footprint_refl c w : footprint c w w.
Proof.
  split; [auto|]. split; [reflexivity|]. exists []. now rewrite app_nil_r.
Qed.

Lemma footprint_trans c w1 w2 w3 :
  footprint c w1 w2 -> footprint c w2 w3 -> footprint c w1 w3.
Proof.
  intros (F1 & G1 & t1 & T1) (F2 & G2 & t2 & T2). split; [|split].
  - intros b Hb. destruct (F1 b Hb) as (A1 & B1 & C1).
    destruct (F2 b Hb) as (A2 & B2 & C2). repeat split; congruence.
  - intros b. etransitivity; [apply G1|apply G2].
  - exists (t1 ++ t2). rewrite T2, T1. now rewrite app_assoc.
Qed.

Lemma foot_ret c {A} (a : A) : preserves (footprint c) (ret a).
Proof. apply preserves_ret, footprint_refl. Qed.

Lemma foot_raise c {A} e : preserves (footprint c) (@raise A e).
Proof. apply preserves_raise, footprint_refl. Qed.

Lemma foot_bind c {A B} (m : M A) (k : A -> M B) :
  preserves (footprint c) m -> (forall a, preserves (footprint c) (k a)) ->
  preserves (footprint c) (bind m k).
Proof. apply preserves_bind, footprint_trans. Qed.

Lemma foot_emit c e : preserves (footprint c) (emit e).
Proof.
  intros w. rewrite emit_eq. split; [auto|]. split; [reflexivity|]. now exists [e].
Qed.

Lemma foot_send c n : preserves (footprint c) (send n).
Proof. apply foot_emit. Qed.

Lemma foot_get_recovery c : preserves (footprint c) get_recovery.
Proof. intros w. apply footprint_refl. Qed.

Lemma foot_get_history c : preserves (footprint c) get_history.
Proof. intros w. apply footprint_refl. Qed.

Lemma foot_is_active c b : preserves (footprint c) (is_active b).
Proof. intros w. apply footprint_refl. Qed.

Lemma foot_write_file c path content : preserves (footprint c) (write_file path content).
Proof.
  intros w. split; [auto|]. split; [reflexivity|]. exists []. simpl. now rewrite app_nil_r.
Qed.

Lemma foot_set_active c b : preserves (footprint c) (set_active c b).
Proof.
  intros w. split; [|split; [reflexivity|exists []; simpl; now rewrite app_nil_r]].
  intros b' Hb. simpl. rewrite lookup_insert_ne by congruence. auto.
Qed.

Lemma foot_modify_recovery c f :
  (forall r b, b <> c -> f r !! channel_key b = r !! channel_key b) ->
  preserves (footprint c) (modify_recovery f).
Proof.
  intros Hf w. split; [|split; [reflexivity|exists []; simpl; now rewrite app_nil_r]].
  intros b Hb. simpl. auto.
Qed.

Lemma foot_start_scan_session c ty start params :
  preserves (footprint c) (modify_recovery (ScanRecovery.start_scan_session c ty start params)).
Proof.
  apply foot_modify_recovery. intros r b Hb. unfold ScanRecovery.start_scan_session.
  apply lookup_insert_ne. apply channel_key_ne. congruence.
Qed.

Lemma foot_complete_scan_session c : preserves (footprint c) (complete_scan_session c).
Proof.
  apply foot_modify_recovery. intros r b Hb. rewrite recovery_lookup_complete.
  apply decide_False. apply channel_key_ne. exact Hb.
Qed.

Lemma foot_update_scan_progress c mid p f :
  preserves (footprint c) (update_scan_progress c mid p f).
Proof.
  unfold update_scan_progress. apply foot_bind; [apply foot_emit|]. intros _.
  apply foot_modify_recovery. intros r b Hb. rewrite recovery_lookup_update.
  apply decide_False. apply channel_key_ne. exact Hb.
Qed.

Lemma foot_record_new_urls env c urls : preserves (footprint c) (record_new_urls env c urls).
Proof.
  unfold record_new_urls. destruct (bool_decide (urls = ∅)); [apply foot_ret|].
  intros w. split; [|split; [|exists []; simpl; now rewrite app_nil_r]].
  - intros b Hb. simpl. rewrite history_lookup_add.
    rewrite decide_False by (apply channel_key_ne; exact Hb). auto.
  - intros b. simpl. destruct (history_stats_add (now env) c urls (history w) b) as (-> & _).
    destruct (decide (c = b)); [apply union_subseteq_l|reflexivity].
Qed.

Create HintDb foot.
#[local] Hint Resolve foot_ret foot_raise foot_emit foot_send foot_get_recovery
  foot_get_history foot_is_active foot_write_file foot_set_active
  foot_start_scan_session foot_complete_scan_session foot_update_scan_progress
  foot_record_new_urls : foot.

Ltac footing :=
  repeat first
    [ solve [auto with foot nocore]
    | apply foot_bind; [|intros ?]
    | apply preserves_mapM; [apply footprint_refl|apply footprint_trans|intros ?]
    | apply preserves_foldM; [apply footprint_refl|apply footprint_trans|intros ? ?]
    | apply preserves_try; [apply footprint_trans| |intros ?|]
    | match goal with
      | |- preserves _ (let '(_, _) := ?x in _) => destruct x
      | |- preserves _ (if ?b then _ else _) => destruct b
      | |- preserves _ (match ?x with _ => _ end) => destruct x
      end ].

Lemma foot_download_media c env folder task :
  preserves (footprint c) (download_media env folder task).
Proof. unfold download_media. footing. Qed.
#[local] Hint Resolve foot_download_media : foot.

Lemma foot_process_download c env cmd selection images videos others :
  preserves (footprint c) (process_download env cmd selection images videos others).
Proof. unfold process_download. footing. Qed.
#[local] Hint Resolve foot_process_download : foot.

Lemma foot_handle_download_options c env cmd images videos others sizes :
  preserves (footprint c) (handle_download_options env cmd images videos others sizes).
Proof. unfold handle_download_options. footing. Qed.

Lemma foot_channel_history c env limit : preserves (footprint c) (channel_history env limit).
Proof. unfold channel_history. footing. Qed.
#[local] Hint Resolve foot_handle_download_options foot_channel_history : foot.

Lemma foot_get_messages_since_time c env since limit anchor :
  preserves (footprint c) (get_messages_since_time env since limit anchor).
Proof. unfold get_messages_since_time. footing. Qed.

Lemma foot_get_messages_from_point c env anchor limit :
  preserves (footprint c) (get_messages_from_point env anchor limit).
Proof. unfold get_messages_from_point. footing. Qed.

Lemma foot_analyze_messages c msgs scanned scan_all start :
  preserves (footprint c) (analyze_messages_with_recovery msgs scanned scan_all c start).
Proof.
  unfold analyze_messages_with_recovery, analysis_run, analyze_message,
    analyze_attachment.
  footing.
Qed.
#[local] Hint Resolve foot_get_messages_since_time foot_get_messages_from_point
  foot_analyze_messages : foot.

Lemma foot_perform_scan env cmd number scan_all scan_from_last :
  preserves (footprint (channel_id cmd)) (perform_scan env cmd number scan_all scan_from_last).
Proof. unfold perform_scan. footing. Qed.
#[local] Hint Resolve foot_perform_scan : foot.

Lemma foot_parse_part c args part : preserves (footprint c) (parse_part args part).
Proof. unfold parse_part. destruct args as [[? ?] ?]. footing. Qed.
#[local] Hint Resolve foot_parse_part : foot.

Lemma foot_scan_body env cmd parts :
  preserves (footprint (channel_id cmd)) (scan_body env cmd parts).
Proof. unfold scan_body. footing. Qed.
#[local] Hint Resolve foot_scan_body : foot.

Lemma foot_handle_scan env cmd parts :
  preserves (footprint (channel_id cmd)) (handle_scan env cmd parts).
Proof. unfold handle_scan. footing. Qed.

Lemma foot_read_entry c b : preserves (footprint c) (read_entry b).
Proof. unfold read_entry. footing. Qed.
#[local] Hint Resolve foot_read_entry : foot.

Lemma foot_resume_fetch env c e anchor :
  preserves (footprint c) (resume_fetch env c e anchor).
Proof. unfold resume_fetch. footing. Qed.
#[local] Hint Resolve foot_resume_fetch : foot.

Lemma foot_resume_scanning_process env cmd anchor :
  preserves (footprint (channel_id cmd)) (resume_scanning_process env cmd anchor).
Proof. unfold resume_scanning_process. footing. Qed.
#[local] Hint Resolve foot_resume_scanning_process : foot.

Lemma foot_handle_resume_scan env cmd :
  preserves (footprint (channel_id cmd)) (handle_resume_scan env cmd).
Proof. unfold handle_resume_scan. footing. Qed.

(** X17: a scan or a resume on one channel leaves every other channel
    alone: its checkpoint, its history record and its lock are as they
    were, whatever the command finds, fetches or downloads and however it
    ends. *)
Theorem commands_leave_other_channels (env : Env) (cmd : Command)
    (command_parts : list string) (b : N) (w : World) :
  b <> channel_id cmd ->
  let after_scan := (handle_scan env cmd command_parts w).2 in
  let after_resume := (handle_resume_scan env cmd w).2 in
  recovery_data after_scan !! channel_key b = recovery_data w !! channel_key b
  /\ history after_scan !! channel_key b = history w !! channel_key b
  /\ active_scans after_scan !! b = active_scans w !! b
  /\ recovery_data after_resume !! channel_key b = recovery_data w !! channel_key b
  /\ history after_resume !! channel_key b = history w !! channel_key b
  /\ active_scans after_resume !! b = active_scans w !! b.
Proof.
  intros Hb.
  destruct (foot_handle_scan env cmd command_parts w) as (F1 & _).
  destruct (foot_handle_resume_scan env cmd w) as (F2 & _).
  destruct (F1 b Hb) as (A1 & B1 & C1). destruct (F2 b Hb) as (A2 & B2 & C2).
  simpl. auto 10.
Qed.

Lemma commands_leave_other_channels_witness :
  let env := sample_env [sample_message 11 1 [sample_png]] in
  let w := world_with_entry (sample_entry 1 1 (Some 12%N)) in
  (8 <> channel_id sample_command)%N
  /\ recovery_data (handle_scan env sample_command ["scan"; "3"] w).2 !! channel_key 8
     = recovery_data w !! channel_key 8
  /\ active_scans (handle_resume_scan env sample_command w).2 !! 8%N
     = active_scans w !! 8%N.
Proof.
  intros env w.
  assert (H : (8 <> channel_id sample_command)%N) by discriminate.
  split; [exact H|].
  destruct (commands_leave_other_channels env sample_command ["scan"; "3"] 8%N w H)
    as (H1 & _ & _ & _ & _ & H6).
  split; [exact H1|exact H6].
Defined.

(** X18: no scan and no resume ever takes a URL out of the history: the
    seen set of every channel after the command contains the seen set
    before it; and the trace of the bot is only extended. *)
Theorem commands_only_add_to_history (env : Env) (cmd : Command)
    (command_parts : list string) (b : N) (w : World) :
  ScanHistory.get_scanned_urls b (history w)
  ⊆ ScanHistory.get_scanned_urls b (history (handle_scan env cmd command_parts w).2)
  /\ ScanHistory.get_scanned_urls b (history w)
     ⊆ ScanHistory.get_scanned_urls b (history (handle_resume_scan env cmd w).2)
  /\ (exists t, trace (handle_scan env cmd command_parts w).2 = trace w ++ t)
  /\ (exists t, trace (handle_resume_scan env cmd w).2 = trace w ++ t).
Proof.
  destruct (foot_handle_scan env cmd command_parts w) as (_ & G1 & T1).
  destruct (foot_handle_resume_scan env cmd w) as (_ & G2 & T2).
  auto.
Qed.

(** ** Locks, rejections and completion *)

Lemma try_finally_run c body (notice : exn -> Notice) w :
  exists w2, try_except_finally body (fun e => send (notice e)) (set_active c false) w
             = (Ret tt, (set_active c false w2).2)
    /\ (body w = (Ret tt, w2)
        \/ exists e w1, body w = (Raise e, w1) /\ w2 = snoc_trace w1 (Sent (notice e))).
Proof.
  unfold try_except_finally. destruct (body w) as [[[]|e] w1] eqn:E.
  - exists w1. split; [reflexivity|]. now left.
  - exists (snoc_trace w1 (Sent (notice e))). split; [reflexivity|].
    right. exists e, w1. auto.
Qed.

Lemma handle_scan_cases env cmd parts w :
  let c := channel_id cmd in
  (is_admin cmd = false
   /\ handle_scan env cmd parts w = (Ret tt, snoc_trace w (Sent AdminOnly)))
  \/ (is_admin cmd = true /\ ~ unlocked c w
      /\ handle_scan env cmd parts w = (Ret tt, snoc_trace w (Sent ScanAlreadyActive)))
  \/ (is_admin cmd = true /\ unlocked c w /\ ~ settled c w
      /\ handle_scan env cmd parts w = (Ret tt, snoc_trace w (Sent UnresolvedRecovery)))
  \/ (is_admin cmd = true /\ unlocked c w /\ settled c w
      /\ exists w2,
           handle_scan env cmd parts w = (Ret tt, (set_active c false w2).2)
           /\ (scan_body env cmd parts (set_active c true w).2 = (Ret tt, w2)
               \/ exists e w1, scan_body env cmd parts (set_active c true w).2 = (Raise e, w1)
                               /\ w2 = snoc_trace w1 (Sent (ScanFailed e)))).
Proof.
  intros c. unfold unlocked, settled.
  assert (E : handle_scan env cmd parts w
              = if negb (is_admin cmd) then (Ret tt, snoc_trace w (Sent AdminOnly))
                else if default false (active_scans w !! c)
                then (Ret tt, snoc_trace w (Sent ScanAlreadyActive))
                else match ScanRecovery.get_interrupted_scan c (recovery_data w) with
                     | Some _ => (Ret tt, snoc_trace w (Sent UnresolvedRecovery))
                     | None => try_except_finally (scan_body env cmd parts)
                                 (fun e => send (ScanFailed e)) (set_active c false)
                                 (set_active c true w).2
                     end).
  { unfold handle_scan. fold c. destruct (is_admin cmd); [|reflexivity].
    cbn [negb]. unfold bind, is_active, get_recovery.
    destruct (default false (active_scans w !! c)); [reflexivity|].
    now destruct (ScanRecovery.get_interrupted_scan c (recovery_data w)). }
  rewrite E. clear E.
  destruct (is_admin cmd); cbn [negb]; [|left; auto].
  right. destruct (default false (active_scans w !! c)) eqn:Ea.
  { left. split; [reflexivity|]. split; [discriminate|reflexivity]. }
  right. destruct (ScanRecovery.get_interrupted_scan c (recovery_data w)) eqn:Er.
  { left. repeat (split; [reflexivity|]). split; [discriminate|reflexivity]. }
  right. repeat (split; [reflexivity|]).
  destruct (try_finally_run c (scan_body env cmd parts) ScanFailed (set_active c true w).2)
    as (w2 & Hrun & Hbody).
  exists w2. split; [exact Hrun|exact Hbody].
Qed.

Lemma handle_resume_cases env cmd w :
  let c := channel_id cmd in
  (is_admin cmd = false
   /\ handle_resume_scan env cmd w = (Ret tt, snoc_trace w (Sent AdminOnly)))
  \/ (is_admin cmd = true /\ settled c w
      /\ handle_resume_scan env cmd w = (Ret tt, snoc_trace w (Sent NoRecoveryToResume)))
  \/ (is_admin cmd = true /\ ~ settled c w /\ ~ unlocked c w
      /\ handle_resume_scan env cmd w = (Ret tt, snoc_trace w (Sent ScanAlreadyActive)))
  \/ (is_admin cmd = true /\ unlocked c w
      /\ exists e0 w2,
           ScanRecovery.get_interrupted_scan c (recovery_data w) = Some e0
           /\ handle_resume_scan env cmd w = (Ret tt, (set_active c false w2).2)
           /\ let body := (send Resuming ;;
                           resume_scanning_process env cmd (last_processed_message e0)) in
              (body (set_active c true w).2 = (Ret tt, w2)
               \/ exists e w1, body (set_active c true w).2 = (Raise e, w1)
                               /\ w2 = snoc_trace w1 (Sent (ResumeFailed e)))).
Proof.
  intros c. unfold unlocked, settled.
  assert (E : handle_resume_scan env cmd w
              = if negb (is_admin cmd) then (Ret tt, snoc_trace w (Sent AdminOnly))
                else match ScanRecovery.get_interrupted_scan c (recovery_data w) with
                     | None => (Ret tt, snoc_trace w (Sent NoRecoveryToResume))
                     | Some e0 =>
                         if default false (active_scans w !! c)
                         then (Ret tt, snoc_trace w (Sent ScanAlreadyActive))
                         else try_except_finally
                                (send Resuming ;;
                                 resume_scanning_process env cmd (last_processed_message e0))
                                (fun e => send (ResumeFailed e)) (set_active c false)
                                (set_active c true w).2
                     end).
  { unfold handle_resume_scan. fold c. destruct (is_admin cmd); [|reflexivity].
    cbn [negb]. unfold bind at 1 2 3, is_active, get_recovery.
    destruct (ScanRecovery.get_interrupted_scan c (recovery_data w)); [|reflexivity].
    now destruct (default false (active_scans w !! c)). }
  rewrite E. clear E.
  destruct (is_admin cmd); cbn [negb]; [|left; auto].
  right. destruct (ScanRecovery.get_interrupted_scan c (recovery_data w)) as [e0|] eqn:Er.
  2:{ left. auto. }
  right. destruct (default false (active_scans w !! c)) eqn:Ea.
  { left. repeat (split; [reflexivity|]). repeat split; discriminate. }
  right. repeat (split; [reflexivity|]).
  match goal with |- context [try_except_finally ?b _ _ _] =>
    destruct (try_finally_run c b ResumeFailed (set_active c true w).2)
      as (w2 & Hrun & Hbody) end.
  exists e0, w2. split; [reflexivity|]. split; [exact Hrun|exact Hbody].
Qed.

Lemma unlocked_snoc c w e : unlocked c (snoc_trace w e) <-> unlocked c w.
Proof. reflexivity. Qed.

Lemma unlocked_after_release c w : unlocked c (set_active c false w).2.
Proof. unfold unlocked. simpl. now rewrite lookup_insert_eq. Qed.

(** X19: the commands never raise, and they keep the lock discipline: a
    scan or a resume on a channel whose lock is free leaves it free when
    it returns, whether it was rejected, ran to its end or failed on the
    way; and a command that finds the lock taken leaves the bot as it was
    but for the one notice it sends. *)
Theorem commands_release_the_lock (env : Env) (cmd : Command)
    (command_parts : list string) (w : World) :
  let c := channel_id cmd in
  (handle_scan env cmd command_parts w).1 = Ret tt
  /\ (handle_resume_scan env cmd w).1 = Ret tt
  /\ (unlocked c w -> unlocked c (handle_scan env cmd command_parts w).2)
  /\ (unlocked c w -> unlocked c (handle_resume_scan env cmd w).2)
  /\ (~ unlocked c w -> exists n,
        handle_scan env cmd command_parts w = (Ret tt, snoc_trace w (Sent n)))
  /\ (~ unlocked c w -> exists n,
        handle_resume_scan env cmd w = (Ret tt, snoc_trace w (Sent n))).
Proof.
  intros c.
  destruct (handle_scan_cases env cmd command_parts w)
    as [(_ & S)|[(_ & _ & S)|[(_ & _ & _ & S)|(_ & Hu & _ & w2 & S & _)]]];
    destruct (handle_resume_cases env cmd w)
    as [(_ & R)|[(_ & _ & R)|[(_ & _ & _ & R)|(_ & Hu' & e0 & w3 & _ & R & _)]]];
    subst c; cbv zeta in *; rewrite S, R; cbn [fst snd];
    repeat split; eauto using unlocked_after_release;
    try (intros H; contradiction).
Qed.

(** X20: the ways a scan request is turned down, in the order they are
    tried: not an admin, the channel's lock taken, an interrupted scan
    waiting.  Each sends its own notice and nothing else happens: no lock
    taken, no checkpoint, no fetch.  The same for a resume request: not an
    admin, nothing to resume, the lock taken. *)
Theorem rejected_requests (env : Env) (cmd : Command)
    (command_parts : list string) (w : World) :
  let c := channel_id cmd in
  (is_admin cmd = false ->
     handle_scan env cmd command_parts w = (Ret tt, snoc_trace w (Sent AdminOnly))
     /\ handle_resume_scan env cmd w = (Ret tt, snoc_trace w (Sent AdminOnly)))
  /\ (is_admin cmd = true -> ~ unlocked c w ->
        handle_scan env cmd command_parts w
        = (Ret tt, snoc_trace w (Sent ScanAlreadyActive)))
  /\ (is_admin cmd = true -> unlocked c w -> ~ settled c w ->
        handle_scan env cmd command_parts w
        = (Ret tt, snoc_trace w (Sent UnresolvedRecovery)))
  /\ (is_admin cmd = true -> settled c w ->
        handle_resume_scan env cmd w
        = (Ret tt, snoc_trace w (Sent NoRecoveryToResume)))
  /\ (is_admin cmd = true -> ~ settled c w -> ~ unlocked c w ->
        handle_resume_scan env cmd w
        = (Ret tt, snoc_trace w (Sent ScanAlreadyActive))).
Proof.
  intros c.
  destruct (handle_scan_cases env cmd command_parts w)
    as [(A & S)|[(A & B & S)|[(A & B & C & S)|(A & B & C & _)]]];
    destruct (handle_resume_cases env cmd w)
    as [(A' & R)|[(A' & B' & R)|[(A' & B' & C' & R)|(A' & B' & e0 & w3 & E0 & _)]]];
    subst c; cbv zeta in *; unfold settled in *;
    repeat split; intros; try congruence; try contradiction; auto.
Qed.

(** ** Checkpoints are closed *)

Lemma settled_complete c r :
  ScanRecovery.get_interrupted_scan c (ScanRecovery.complete_scan_session c r) = None.
Proof.
  unfold ScanRecovery.get_interrupted_scan. rewrite recovery_lookup_complete.
  rewrite decide_True by reflexivity.
  now destruct (r !! channel_key c).
Qed.

Lemma settles_complete c : settles c (complete_scan_session c).
Proof. intros w. exists tt. split; [reflexivity|]. apply settled_complete. Qed.

Lemma settles_complete_send c n : settles c (complete_scan_session c ;; send n).
Proof. intros w. exists tt. split; [reflexivity|]. apply settled_complete. Qed.

Lemma settles_bind c {A B} (m : M A) (k : A -> M B) :
  returns m -> (forall a, settles c (k a)) -> settles c (bind m k).
Proof.
  intros Hm Hk w. unfold bind. destruct (Hm w) as [a Ha].
  destruct (m w) as [[a'|e] w1]; simpl in Ha; [|discriminate].
  apply Hk.
Qed.

Ltac settling :=
  repeat first
    [ apply settles_complete
    | apply settles_complete_send
    | apply settles_bind; [solve [returning]|intros ?]
    | match goal with
      | |- settles _ (let '(_, _) := ?x in _) => destruct x
      | |- settles _ (if ?b then _ else _) => destruct b
      | |- settles _ (match ?x with _ => _ end) => destruct x
      end ].

Lemma perform_scan_settles env cmd number scan_all scan_from_last w :
  scan_from_last && is_None (ScanHistory.get_last_scan_time (channel_id cmd) (history w))
  = false ->
  exists u, (perform_scan env cmd number scan_all scan_from_last w).1 = Ret u
            /\ settled (channel_id cmd) (perform_scan env cmd number scan_all scan_from_last w).2.
Proof.
  intros Hc.
  destruct (perform_scan env cmd number scan_all scan_from_last w) as [r w'] eqn:E.
  cbn [fst snd].
  unfold perform_scan in E. unfold bind at 1, get_history at 1 in E.
  cbv zeta in E.
  destruct scan_from_last; cbn [andb] in Hc;
    [destruct (ScanHistory.get_last_scan_time (channel_id cmd) (history w));
       [|discriminate]|];
    cbn [andb is_None] in E;
    (match type of E with ?m w = _ =>
       assert (Hm : settles (channel_id cmd) m); [|destruct (Hm w) as (u & H1 & H2)] end;
     [|rewrite E in H1, H2; exists u; split; [exact H1|exact H2]]);
    (apply settles_bind; [returning|intros _]);
    (apply settles_bind; [returning|intros _]);
    (apply settles_bind; [returning|intros mh]);
    (destruct (nonempty mh); [|settling]);
    (apply settles_bind; [returning|intros [[[images videos] others] new_urls]]);
    settling.
Qed.

Lemma scan_body_settles env cmd parts w :
  settled (channel_id cmd) w -> settled (channel_id cmd) (scan_body env cmd parts w).2.
Proof.
  intros Hw. unfold scan_body.
  destruct (parse_run (tail parts) (None, false, false) w) as (r & E & _).
  unfold bind at 1. rewrite E. destruct r as [[[number scan_all] scan_from_last]|e];
    [|exact Hw].
  unfold bind at 1, get_history at 1.
  destruct (scan_from_last
            && is_None (ScanHistory.get_last_scan_time (channel_id cmd) (history w)))
    eqn:Hc.
  { exact Hw. }
  unfold bind at 1. cbn [modify_recovery].
  match goal with |- context [perform_scan ?e ?c ?n ?a ?f ?w0] =>
    destruct (perform_scan_settles e c n a f w0 Hc) as (u & _ & Hs) end.
  exact Hs.
Qed.

(** X21: a scan never leaves a checkpoint open and never closes another
    run's: the channel has no interrupted scan after [handle_scan]
    exactly when it had none before.  An accepted scan closes the
    checkpoint it opens on every path (nothing to scan, no media, the
    download prompt timing out, arguments that fail to parse); a rejected
    one leaves the store alone. *)
Theorem scan_closes_its_checkpoint (env : Env) (cmd : Command)
    (command_parts : list string) (w : World) :
  settled (channel_id cmd) (handle_scan env cmd command_parts w).2
  <-> settled (channel_id cmd) w.
Proof.
  destruct (handle_scan_cases env cmd command_parts w)
    as [(_ & S)|[(_ & _ & S)|[(_ & _ & _ & S)|(_ & _ & Hs & w2 & S & Hb)]]];
    cbv zeta in *; rewrite S; cbn [snd]; try reflexivity.
  split; [intros _; exact Hs|intros _].
  assert (Hs' : settled (channel_id cmd) (set_active (channel_id cmd) true w).2) by exact Hs.
  apply (scan_body_settles env cmd command_parts) in Hs'.
  destruct Hb as [Hb|(e & w1 & Hb & ->)]; rewrite Hb in Hs'; exact Hs'.
Qed.

(** ** Resuming: checkpoints that can and cannot be read *)

Lemma bind_ret_run {A B} (m : M A) (k : A -> M B) w a w1 :
  m w = (Ret a, w1) -> bind m k w = k a w1.
Proof. intros H. unfold bind. now rewrite H. Qed.

Lemma bind_raise_run {A B} (m : M A) (k : A -> M B) w e w1 :
  m w = (Raise e, w1) -> bind m k w = (Raise e, w1).
Proof. intros H. unfold bind. now rewrite H. Qed.

Lemma interrupted_lookup c r e :
  ScanRecovery.get_interrupted_scan c r = Some e ->
  r !! channel_key c = Some e /\ status e = in_progress.
Proof.
  unfold ScanRecovery.get_interrupted_scan.
  destruct (r !! channel_key c) as [e0|]; [|discriminate].
  destruct (status e0) eqn:Es; [|discriminate].
  intros [= ->]. auto.
Qed.

Lemma read_entry_run c e w :
  recovery_data w !! channel_key c = Some e -> read_entry c w = (Ret e, w).
Proof. intros H. unfold read_entry, bind, get_recovery. now rewrite H. Qed.

Lemma resume_fetch_readable env c e anchor w :
  resumable e = true ->
  (exists w1, resume_fetch env c e anchor w = (Ret None, w1) /\ settled c w1)
  \/ (exists l limit,
        resume_fetch env c e anchor w = (Ret (Some l), snoc_trace w (Fetched limit))).
Proof.
  unfold resumable, resume_fetch.
  destruct (scan_type e).
  - destruct (sp_since_time (scan_params e)); [intros _|discriminate].
    right. eexists _, _. reflexivity.
  - destruct (sp_limit (scan_params e)) as [limit|]; [intros _|discriminate].
    destruct (limit <=? processed_count e)%nat.
    + left. eexists. split; [reflexivity|]. apply settled_complete.
    + right. eexists _, _. reflexivity.
Qed.

Lemma resume_fetch_unreadable env c e anchor w :
  resumable e = false ->
  resume_fetch env c e anchor w = (Raise (resume_error e), w).
Proof.
  unfold resumable, resume_fetch, resume_error.
  destruct (scan_type e).
  - now destruct (sp_since_time (scan_params e)).
  - now destruct (sp_limit (scan_params e)).
Qed.

Lemma analyze_messages_run msgs scanned scan_all c start w :
  exists r w', analyze_messages_with_recovery msgs scanned scan_all c start w = (Ret r, w')
               /\ dom (recovery_data w') = dom (recovery_data w).
Proof.
  destruct (analysis_run_trace msgs scanned scan_all c start w)
    as (a & w' & t & E & (_ & _ & _ & _ & Hd) & _).
  exists (an_images a, an_videos a, an_others a, an_new_urls a), w'.
  split; [|exact Hd].
  unfold analyze_messages_with_recovery. now rewrite (bind_ret_run _ _ _ _ _ E).
Qed.

Lemma resume_process_settles env cmd anchor e w :
  recovery_data w !! channel_key (channel_id cmd) = Some e ->
  resumable e = true ->
  exists u, (resume_scanning_process env cmd anchor w).1 = Ret u
            /\ settled (channel_id cmd) (resume_scanning_process env cmd anchor w).2.
Proof.
  intros Hl Hr.
  destruct (resume_scanning_process env cmd anchor w) as [r w'] eqn:E. cbn [fst snd].
  unfold resume_scanning_process in E.
  rewrite (bind_ret_run _ _ _ _ _ (read_entry_run _ _ _ Hl)) in E.
  unfold bind at 1, get_history at 1 in E.
  destruct (resume_fetch_readable env (channel_id cmd) e anchor w Hr)
    as [(w1 & F & Hs)|(l & limit & F)];
    rewrite (bind_ret_run _ _ _ _ _ F) in E.
  { injection E as <- <-. eauto. }
  set (w1 := snoc_trace w (Fetched limit)) in *.
  assert (Hl1 : recovery_data w1 !! channel_key (channel_id cmd) = Some e) by exact Hl.
  destruct (nonempty l).
  2:{ match type of E with ?m w1 = _ =>
        assert (Hm : settles (channel_id cmd) m) by settling;
        destruct (Hm w1) as (u & H1 & H2) end.
      rewrite E in H1, H2. eauto. }
  match type of E with bind (analyze_messages_with_recovery ?m ?s ?a ?c ?n) _ _ = _ =>
    destruct (analyze_messages_run m s a c n w1) as ([[[images videos] others] new_urls]
                                                     & w2 & A & Hd) end.
  rewrite (bind_ret_run _ _ _ _ _ A) in E. cbv beta iota zeta in E.
  assert (Hl2 : exists e', recovery_data w2 !! channel_key (channel_id cmd) = Some e').
  { apply (elem_of_dom (recovery_data w2)). rewrite Hd.
    apply (elem_of_dom (recovery_data w1)). eauto. }
  destruct Hl2 as [e' Hl2].
  rewrite (bind_ret_run _ _ _ _ _ (read_entry_run _ _ _ Hl2)) in E.
  match type of E with ?m w2 = _ =>
    assert (Hm : settles (channel_id cmd) m);
    [|destruct (Hm w2) as (u & H1 & H2); rewrite E in H1, H2; eauto] end.
  apply settles_bind; [returning|intros _].
  apply settles_bind; [returning|intros _].
  settling.
Qed.

(** X22: resuming a checkpoint that can be read closes it.  For an admin,
    with the channel's lock free and an interrupted scan whose checkpoint
    records what the resume reads (the since time of a time based scan,
    the numeric limit of a count based one), [handle_resume_scan] leaves
    the channel with no interrupted scan and with its lock free, on every
    path: the limit already reached, nothing new to fetch, no media, the
    download prompt timing out. *)
Theorem resume_closes_readable_checkpoint (env : Env) (cmd : Command)
    (e : RecoveryEntry) (w : World) :
  is_admin cmd = true ->
  unlocked (channel_id cmd) w ->
  ScanRecovery.get_interrupted_scan (channel_id cmd) (recovery_data w) = Some e ->
  resumable e = true ->
  settled (channel_id cmd) (handle_resume_scan env cmd w).2
  /\ unlocked (channel_id cmd) (handle_resume_scan env cmd w).2.
Proof.
  intros Ha Hu Hi Hr.
  destruct (handle_resume_cases env cmd w)
    as [(A & _)|[(_ & B & _)|[(_ & _ & B & _)|(_ & _ & e0 & w2 & E0 & R & Hb)]]];
    cbv zeta in *; [congruence|unfold settled in B; congruence|contradiction|].
  rewrite R. split; [|apply unlocked_after_release].
  assert (e0 = e) as -> by congruence.
  apply interrupted_lookup in Hi as [Hl _].
  destruct (resume_process_settles env cmd (last_processed_message e) e
              (snoc_trace (set_active (channel_id cmd) true w).2 (Sent Resuming)) Hl Hr)
    as (u & H1 & H2).
  rewrite (bind_ret_run (send Resuming) _ _ _ _ (emit_eq _ _)) in Hb.
  destruct Hb as [Hb|(x & w1 & Hb & _)]; rewrite Hb in H1, H2; [exact H2|discriminate].
Qed.

Lemma resume_closes_readable_checkpoint_witness :
  let env := sample_env [sample_message 11 1 [sample_png]] in
  let w := world_with_entry (sample_entry 1 1 (Some 12%N)) in
  settled 7 (handle_resume_scan env sample_command w).2
  /\ unlocked 7 (handle_resume_scan env sample_command w).2.
Proof.
  intros env w.
  apply (resume_closes_readable_checkpoint env sample_command
           (sample_entry 1 1 (Some 12%N)) w); reflexivity.
Defined.

(** X23: a checkpoint the resume cannot read blocks the channel.  A count
    based checkpoint with no numeric limit is what [scan --all] without a
    number writes, whatever progress is recorded in it afterwards.  With
    such a checkpoint interrupted, [handle_resume_scan] fails on the read
    ([TypeError]; [KeyError] for a time based one without its since
    time): it posts the two notices, frees the lock and leaves the
    checkpoint as it was, so that resuming again fails the same way and
    every later scan is turned down as unresolved. *)
Theorem unreadable_checkpoint_blocks_channel (env : Env) (cmd : Command)
    (e : RecoveryEntry) (command_parts : list string) (w : World) :
  is_admin cmd = true ->
  unlocked (channel_id cmd) w ->
  ScanRecovery.get_interrupted_scan (channel_id cmd) (recovery_data w) = Some e ->
  resumable e = false ->
  let c := channel_id cmd in
  let w' := after_failed_resume c (resume_error e) w in
  handle_resume_scan env cmd w = (Ret tt, w')
  /\ handle_resume_scan env cmd w'
     = (Ret tt, after_failed_resume c (resume_error e) w')
  /\ handle_scan env cmd command_parts w'
     = (Ret tt, snoc_trace w' (Sent UnresolvedRecovery))
  /\ scan_body env cmd ["scan"; "--all"] w
     = (modify_recovery (scan_all_session c (now env)) ;;
        perform_scan env cmd None true false) w
  /\ forall start r mid p f,
       exists e', ScanRecovery.get_interrupted_scan c
                    (ScanRecovery.update_scan_progress c mid p f
                       (scan_all_session c start r)) = Some e'
                  /\ resumable e' = false.
Proof.
  intros Ha Hu Hi Hr c w'. subst c.
  assert (Hfail : forall w0, unlocked (channel_id cmd) w0 ->
            ScanRecovery.get_interrupted_scan (channel_id cmd) (recovery_data w0) = Some e ->
            handle_resume_scan env cmd w0
            = (Ret tt, after_failed_resume (channel_id cmd) (resume_error e) w0)).
  { intros w0 Hu0 Hi0.
    destruct (handle_resume_cases env cmd w0)
      as [(A & _)|[(_ & B & _)|[(_ & _ & B & _)|(_ & _ & e0 & w2 & E0 & R & Hb)]]];
      cbv zeta in *; [congruence|unfold settled in B; congruence|contradiction|].
    rewrite R. assert (e0 = e) as -> by congruence.
    apply interrupted_lookup in Hi0 as [Hl _].
    rewrite (bind_ret_run (send Resuming) _ _ _ _ (emit_eq _ _)) in Hb.
    set (w1 := snoc_trace (set_active (channel_id cmd) true w0).2 (Sent Resuming)) in *.
    assert (Hb' : resume_scanning_process env cmd (last_processed_message e) w1
                  = (Raise (resume_error e), w1)).
    { unfold resume_scanning_process.
      rewrite (bind_ret_run _ _ _ _ _ (read_entry_run (channel_id cmd) e w1 Hl)).
      unfold bind at 1, get_history at 1.
      now rewrite (bind_raise_run _ _ _ _ _
                     (resume_fetch_unreadable env (channel_id cmd) e _ w1 Hr)). }
    rewrite Hb' in Hb. destruct Hb as [Hb|(x & w3 & [= <- <-] & ->)]; [discriminate|].
    f_equal. unfold after_failed_resume, w1. simpl. f_equal.
    - apply insert_insert_eq.
    - now rewrite <- app_assoc. }
  split; [exact (Hfail w Hu Hi)|].
  assert (Hu' : unlocked (channel_id cmd) w').
  { unfold unlocked, w'. simpl. now rewrite lookup_insert_eq. }
  split; [exact (Hfail w' Hu' Hi)|].
  split.
  { destruct (handle_scan_cases env cmd command_parts w')
      as [(A & _)|[(_ & B & _)|[(_ & _ & _ & S)|(_ & _ & B & _)]]];
      cbv zeta in *;
      [congruence|contradiction|exact S|unfold settled in B; simpl in B; congruence]. }
  split; [reflexivity|].
  intros start r mid p f.
  unfold ScanRecovery.get_interrupted_scan, ScanRecovery.update_scan_progress,
    scan_all_session, ScanRecovery.start_scan_session.
  rewrite lookup_insert_eq, lookup_insert_eq. eexists. split; reflexivity.
Qed.

Lemma unreadable_checkpoint_blocks_channel_witness :
  let env := sample_env [sample_message 11 1 [sample_png]] in
  let w := with_recovery empty_world (scan_all_session 7 (sample_time 9 0 0) ∅) in
  trace (handle_resume_scan env sample_command w).2
  = [Sent Resuming; Sent (ResumeFailed TypeError)]
  /\ trace (handle_scan env sample_command ["scan"; "3"]
              (handle_resume_scan env sample_command w).2).2
     = [Sent Resuming; Sent (ResumeFailed TypeError); Sent UnresolvedRecovery].
Proof.
  intros env w.
  destruct (unreadable_checkpoint_blocks_channel env sample_command
              {| scan_type := number_based; start_time := sample_time 9 0 0;
                 scan_params := {| sp_limit := None; sp_scan_all := true;
                                   sp_since_time := None |};
                 status := in_progress; last_processed_message := None;
                 processed_count := 0; found_media := 0 |}
              ["scan"; "3"] w)
    as (H1 & _ & H3 & _); try reflexivity.
  rewrite H1. cbn [snd]. rewrite H3. split; reflexivity.
Defined.

(** ** The arguments of a scan *)

Lemma digit_not_flag part flag :
  isdigit part = true -> isdigit flag = false -> String.eqb part flag = false.
Proof.
  intros Hp Hf. destruct (String.eqb_spec part flag) as [->|]; [congruence|reflexivity].
Qed.

Lemma last_cons_default {A} (x : A) l :
  last (x :: l) = Some (default x (last l)).
Proof.
  revert x. induction l as [|y l IH]; intros x; [reflexivity|].
  rewrite last_cons_cons, IH. simpl. now destruct (last l).
Qed.

Lemma numeric_args_cons part parts :
  numeric_args (part :: parts)
  = match (if isdigit part then int_of_string part else None) with
    | Some n => n :: numeric_args parts
    | None => numeric_args parts
    end.
Proof. reflexivity. Qed.

Lemma parse_args_run parts : forall args w,
  foldM parse_part args parts w
  = (if existsb unparsable parts then Raise ValueError
     else Ret (parsed_from args parts), w).
Proof.
  induction parts as [|part parts IH]; intros [[number scan_all] scan_from_last] w.
  { simpl. unfold parsed_from. simpl. now rewrite !orb_false_r. }
  cbn [foldM existsb]. unfold bind, parse_part, unparsable at 1.
  destruct (isdigit part) eqn:Hd; cbn [andb].
  - destruct (int_of_string part) as [n|] eqn:Hi; cbn [is_None orb]; [|reflexivity].
    unfold ret. rewrite IH. destruct (existsb unparsable parts); [reflexivity|].
    do 2 f_equal. unfold parsed_from, has_flag. rewrite numeric_args_cons, Hd, Hi.
    cbn [existsb fst snd].
    rewrite !(digit_not_flag part) by (exact Hd || reflexivity). cbn [orb].
    rewrite last_cons_default. now destruct (last (numeric_args parts)).
  - cbn [orb]. assert (Hn : numeric_args (part :: parts) = numeric_args parts).
    { now rewrite numeric_args_cons, Hd. }
    destruct (String.eqb part "--all") eqn:Ea; [|destruct (String.eqb part "--new") eqn:En];
      unfold ret; rewrite IH; (destruct (existsb unparsable parts); [reflexivity|]);
      do 2 f_equal; unfold parsed_from, has_flag; rewrite Hn; cbn [existsb fst snd].
    + rewrite Ea. apply String.eqb_eq in Ea. subst part. cbn [String.eqb orb].
      simpl. now rewrite orb_true_r.
    + now rewrite Ea, En, orb_true_r.
    + now rewrite Ea, En.
Qed.

Lemma parsed_number_bound args parts n :
  (forall k, args.1.1 = Some k -> (k <= 500)%nat) ->
  (parsed_from args parts).1.1 = Some n -> (n <= 500)%nat.
Proof.
  intros Ha. unfold parsed_from. cbn [fst].
  destruct (last (numeric_args parts)); [|apply Ha].
  intros [= <-]. lia.
Qed.

(** X24: the argument loop of [scan] in closed form.  The arguments are
    read without any effect on the bot.  When none of them is a string
    that [isdigit] accepts and [int] rejects, the result is: the last
    number among them, capped at 500 (no number: none); the [--all] flag
    if it occurs anywhere; the [--new] flag if it occurs anywhere; every
    other word is ignored.  Otherwise the loop raises [ValueError], as
    for the superscript two.  The number is never above 500. *)
Theorem scan_arguments (parts : list string) (w : World) :
  foldM parse_part (None, false, false) parts w
  = (if existsb unparsable parts then Raise ValueError else Ret (parsed_args parts), w)
  /\ parsed_args parts
     = ((fun n => n `min` 500) <$> last (numeric_args parts),
        has_flag "--all" parts, has_flag "--new" parts)
  /\ (forall n, (parsed_args parts).1.1 = Some n -> (n <= 500)%nat)
  /\ unparsable superscript_two = true.
Proof.
  split; [apply parse_args_run|]. split.
  { unfold parsed_args, parsed_from. cbn [fst snd orb].
    now destruct (last (numeric_args parts)). }
  split; [intros n; apply parsed_number_bound; discriminate|].
  reflexivity.
Qed.

(** ** The pages a scan requests *)

Lemma same_fetches_refl w : same_fetches w w.
Proof. reflexivity. Qed.

Lemma same_fetches_trans w1 w2 w3 :
  same_fetches w1 w2 -> same_fetches w2 w3 -> same_fetches w1 w3.
Proof. unfold same_fetches. congruence. Qed.

Lemma fetches_snoc t e : fetches (t ++ [e]) = fetches t ++ from_option (fun l => [l]) [] (fetch_limit e).
Proof. unfold fetches. rewrite omap_app. simpl. now destruct (fetch_limit e). Qed.

Lemma quiet_emit e : fetch_limit e = None -> preserves same_fetches (emit e).
Proof.
  intros He w. rewrite emit_eq. unfold same_fetches. simpl.
  rewrite fetches_snoc, He. simpl. apply app_nil_r.
Qed.

Lemma quiet_send n : preserves same_fetches (send n).
Proof. now apply quiet_emit. Qed.

Lemma quiet_bind {A B} (m : M A) (k : A -> M B) :
  preserves same_fetches m -> (forall a, preserves same_fetches (k a)) ->
  preserves same_fetches (bind m k).
Proof. apply preserves_bind, same_fetches_trans. Qed.

Lemma quiet_ret {A} (a : A) : preserves same_fetches (ret a).
Proof. apply preserves_ret, same_fetches_refl. Qed.

Lemma quiet_modify_recovery f : preserves same_fetches (modify_recovery f).
Proof. intros w. reflexivity. Qed.

Lemma quiet_modify_history f : preserves same_fetches (modify_history f).
Proof. intros w. reflexivity. Qed.

Lemma quiet_write_file p c : preserves same_fetches (write_file p c).
Proof. intros w. reflexivity. Qed.

Create HintDb quiet.
#[local] Hint Resolve quiet_ret quiet_send quiet_modify_recovery quiet_modify_history
  quiet_write_file : quiet.

Ltac quieting :=
  repeat first
    [ solve [auto with quiet nocore]
    | apply quiet_emit; reflexivity
    | apply quiet_bind; [|intros ?]
    | apply preserves_mapM; [apply same_fetches_refl|apply same_fetches_trans|intros ?]
    | apply preserves_foldM; [apply same_fetches_refl|apply same_fetches_trans|intros ? ?]
    | match goal with
      | |- preserves _ (let '(_, _) := ?x in _) => destruct x
      | |- preserves _ (if ?b then _ else _) => destruct b
      | |- preserves _ (match ?x with _ => _ end) => destruct x
      end ].

Lemma quiet_analyze_messages msgs scanned scan_all c start :
  preserves same_fetches (analyze_messages_with_recovery msgs scanned scan_all c start).
Proof.
  unfold analyze_messages_with_recovery, analysis_run, analyze_message,
    analyze_attachment, update_scan_progress.
  quieting.
Qed.

Lemma quiet_handle_download_options env cmd images videos others sizes :
  preserves same_fetches (handle_download_options env cmd images videos others sizes).
Proof.
  unfold handle_download_options, process_download, download_media. quieting.
Qed.

Lemma quiet_record_new_urls env c urls : preserves same_fetches (record_new_urls env c urls).
Proof. unfold record_new_urls. quieting. Qed.

Lemma quiet_complete_scan_session c : preserves same_fetches (complete_scan_session c).
Proof. apply quiet_modify_recovery. Qed.
#[local] Hint Resolve quiet_analyze_messages quiet_handle_download_options
  quiet_record_new_urls quiet_complete_scan_session : quiet.

Lemma perform_scan_fetches env cmd number scan_all scan_from_last w :
  scan_from_last && is_None (ScanHistory.get_last_scan_time (channel_id cmd) (history w))
  = false ->
  fetches (trace (perform_scan env cmd number scan_all scan_from_last w).2)
  = fetches (trace w)
    ++ [if scan_from_last then Some (max_messages number * 2)%nat else number].
Proof.
  intros Hc.
  destruct (perform_scan env cmd number scan_all scan_from_last w) as [r w'] eqn:E.
  cbn [fst snd].
  unfold perform_scan in E. unfold bind at 1, get_history at 1 in E.
  cbv zeta in E.
  destruct scan_from_last; cbn [andb] in Hc;
    [destruct (ScanHistory.get_last_scan_time (channel_id cmd) (history w));
       [|discriminate]|];
    cbn [andb is_None] in E;
    unfold bind at 1, ret at 1 in E;
    rewrite (bind_ret_run (send Scanning) _ _ _ _ (emit_eq _ _)) in E;
    unfold bind at 1 in E;
    match type of E with
    | context [get_messages_since_time ?e ?t ?n ?a ?w0] =>
        change (get_messages_since_time e t n a w0)
          with (Ret (since_time_loop t n a
                       (take (max_messages n * 2) (channel_messages e)) (is_None a) [] 0),
                snoc_trace w0 (Fetched (Some (max_messages n * 2)%nat))) in E
    | context [channel_history ?e ?n ?w0] =>
        change (channel_history e n w0)
          with (Ret (match n with
                     | Some k => take k (channel_messages e)
                     | None => channel_messages e
                     end), snoc_trace w0 (Fetched n)) in E
    end;
    cbv beta iota in E;
    (match type of E with ?m ?w0 = _ =>
       assert (Hm : preserves same_fetches m);
       [|specialize (Hm w0); rewrite E in Hm; cbn [snd] in Hm;
         rewrite Hm; simpl; rewrite !fetches_snoc; simpl;
         now rewrite app_nil_r] end);
    quieting.
Qed.

Lemma scan_body_fetches env cmd parts w :
  let args := parsed_args (tail parts) in
  fetches (trace (scan_body env cmd parts w).2)
  = fetches (trace w)
    ++ (if existsb unparsable (tail parts) then []
        else if args.2
                && is_None (ScanHistory.get_last_scan_time (channel_id cmd) (history w))
        then []
        else [page_limit args]).
Proof.
  intros args.
  destruct (scan_body env cmd parts w) as [r w'] eqn:E. cbn [snd].
  unfold scan_body in E. unfold bind at 1 in E. rewrite parse_args_run in E.
  fold (parsed_args (tail parts)) in E. fold args in E.
  destruct (existsb unparsable (tail parts)).
  { injection E as <- <-. now rewrite app_nil_r. }
  destruct args as [[number scan_all] scan_from_last]. cbv zeta in E. cbn [snd fst].
  unfold bind at 1, get_history at 1 in E.
  destruct (scan_from_last
            && is_None (ScanHistory.get_last_scan_time (channel_id cmd) (history w)))
    eqn:Hc.
  { change (send NoHistoryAvailable w)
      with (Ret tt, snoc_trace w (Sent NoHistoryAvailable)) in E.
    injection E as <- <-. simpl. rewrite fetches_snoc. simpl.
    now rewrite !app_nil_r. }
  unfold bind at 1 in E. cbn [modify_recovery] in E.
  match type of E with perform_scan ?e ?c ?n ?a ?f ?w0 = _ =>
    pose proof (perform_scan_fetches e c n a f w0 Hc) as F end.
  rewrite E in F. cbn [snd trace] in F. rewrite F. f_equal. unfold page_limit.
  destruct scan_from_last, scan_all; reflexivity.
Qed.

Lemma page_limit_bound parts n :
  page_limit (parsed_args parts) = Some n -> (n <= 1000)%nat.
Proof.
  unfold page_limit.
  destruct (parsed_args parts) as [[number scan_all] scan_from_last] eqn:E.
  assert (Hn : forall k, number = Some k -> (k <= 500)%nat).
  { intros k ->. apply (parsed_number_bound (None, false, false) parts k);
      [discriminate|]. fold (parsed_args parts). now rewrite E. }
  destruct scan_from_last.
  - intros [= <-]. destruct number as [[|k]|]; cbn [max_messages]; [lia| |lia].
    specialize (Hn _ eq_refl). lia.
  - destruct (negb scan_all && is_None number); [intros [= <-]; lia|].
    intros ->. specialize (Hn _ eq_refl). lia.
Qed.

(** X25: a scan requests at most one page of the channel.  A request
    that is turned down, whose arguments do not parse, or that asks for
    [--new] with no earlier scan, requests none; any other scan requests
    exactly one, with the limit its arguments give: twice the cap for
    [--new], the number itself otherwise, 5 when neither a number nor a
    flag is given.  That limit is never above 1000, and it is absent,
    the whole channel being read, exactly for [--all] with neither a
    number nor [--new]. *)
Theorem scan_requests_one_page (env : Env) (cmd : Command)
    (command_parts : list string) (w : World) :
  let args := parsed_args (tail command_parts) in
  let requested :=
    if is_admin cmd && negb (default false (active_scans w !! channel_id cmd))
       && is_None (ScanRecovery.get_interrupted_scan (channel_id cmd) (recovery_data w))
       && negb (existsb unparsable (tail command_parts))
       && negb (args.2 && is_None (ScanHistory.get_last_scan_time (channel_id cmd)
                                     (history w)))
    then [page_limit args] else [] in
  fetches (trace (handle_scan env cmd command_parts w).2)
  = fetches (trace w) ++ requested
  /\ (forall n, page_limit args = Some n -> (n <= 1000)%nat)
  /\ (page_limit args = None
      <-> has_flag "--all" (tail command_parts) = true
          /\ has_flag "--new" (tail command_parts) = false
          /\ numeric_args (tail command_parts) = []).
Proof.
  intros args requested. split; [|split].
  - subst requested.
    destruct (handle_scan_cases env cmd command_parts w)
      as [(A & S)|[(A & B & S)|[(A & B & C & S)|(A & B & C & w2 & S & Hb)]]];
      cbv zeta in *; rewrite S; cbn [snd]; rewrite A; cbn [andb].
    + simpl. rewrite fetches_snoc. simpl. now rewrite !app_nil_r.
    + unfold unlocked in B.
      destruct (default false (active_scans w !! channel_id cmd)); [|congruence].
      simpl. rewrite fetches_snoc. simpl. now rewrite !app_nil_r.
    + unfold unlocked in B. rewrite B. unfold settled in C.
      destruct (ScanRecovery.get_interrupted_scan (channel_id cmd) (recovery_data w));
        [|congruence].
      simpl. rewrite fetches_snoc. simpl. now rewrite !app_nil_r.
    + unfold unlocked in B. rewrite B. unfold settled in C. rewrite C.
      cbn [is_None andb negb].
      set (w0 := (set_active (channel_id cmd) true w).2) in *.
      pose proof (scan_body_fetches env cmd command_parts w0) as F.
      cbv zeta in F. fold args in F.
      change (history w0) with (history w) in F.
      change (trace w0) with (trace w) in F.
      assert (Hw2 : fetches (trace (set_active (channel_id cmd) false w2).2)
                    = fetches (trace (scan_body env cmd command_parts w0).2)).
      { destruct Hb as [Hb|(e & w1 & Hb & ->)]; rewrite Hb; [reflexivity|].
        simpl. rewrite fetches_snoc. simpl. now rewrite app_nil_r. }
      rewrite Hw2, F. f_equal.
      destruct (existsb unparsable (tail command_parts)); [reflexivity|].
      cbn [negb]. now destruct (_ && _).
  - intros n. apply page_limit_bound.
  - subst args. unfold page_limit, parsed_args, parsed_from. cbn [fst snd orb].
    destruct (has_flag "--new" (tail command_parts)).
    { split; [discriminate|intros (_ & ? & _); discriminate]. }
    destruct (has_flag "--all" (tail command_parts)); cbn [negb andb].
    + destruct (numeric_args (tail command_parts)) as [|n l] eqn:En.
      * simpl. split; auto.
      * rewrite last_cons_default. split; [discriminate|intros (_ & _ & ?); discriminate].
    + destruct (last (numeric_args (tail command_parts))); cbn [is_None];
        (split; [discriminate|intros (? & _); discriminate]).
Qed.

(** ** The checkpoint at the end of the analysis *)

Lemma progress_only_refl c w : progress_only c w w.
Proof. unfold progress_only. destruct (_ !! _); auto. Qed.

Lemma progress_only_trans c w1 w2 w3 :
  progress_only c w1 w2 -> progress_only c w2 w3 -> progress_only c w1 w3.
Proof.
  unfold progress_only. destruct (recovery_data w1 !! channel_key c) as [e|] eqn:E1.
  - intros [H12|(mid & p & f & H12)]; rewrite H12.
    + rewrite E1. auto.
    + rewrite lookup_insert_eq. intros [H23|(mid' & p' & f' & H23)]; rewrite H23.
      * right. eauto.
      * right. exists mid', p', f'. now rewrite insert_insert_eq.
  - intros H12. rewrite H12, E1. auto.
Qed.

Lemma progress_emit c e : preserves (progress_only c) (emit e).
Proof. intros w. unfold progress_only. simpl. destruct (_ !! _); auto. Qed.

Lemma progress_update c mid p f :
  preserves (progress_only c) (update_scan_progress c mid p f).
Proof.
  intros w. unfold progress_only. simpl. unfold ScanRecovery.update_scan_progress.
  destruct (recovery_data w !! channel_key c); [|reflexivity].
  right. eauto.
Qed.

Lemma progress_messages scanned scan_all c msgs a :
  preserves (progress_only c) (foldM (analyze_message scanned scan_all c) a msgs).
Proof.
  revert a. apply preserves_foldM;
    [apply progress_only_refl|apply progress_only_trans|].
  intros a m. unfold analyze_message, analyze_attachment.
  repeat first
    [ apply progress_emit
    | apply progress_update
    | apply preserves_ret, progress_only_refl
    | apply preserves_bind; [apply progress_only_trans| |intros ?]
    | apply preserves_foldM;
        [apply progress_only_refl|apply progress_only_trans|intros ? ?]
    | match goal with
      | |- preserves _ (if ?b then _ else _) => destruct b
      end ].
Qed.

(** X26: what the analysis leaves in the bot.  A run over [msgs] changes
    nothing but the log and the checkpoint of its own channel.  If the
    channel has a checkpoint, it ends as it was at the start but for the
    progress fields: the id of the last message of [msgs], the processed
    count [start + length msgs], and as [found_media] the number of files
    this run found, which starts from zero again on a resume while the
    processed count carries on.  If the channel has none, none is made. *)
Theorem analysis_leaves_checkpoint (msgs : list Message) (scanned : gset string)
    (scan_all : bool) (c : N) (start : nat) (w : World) :
  let w' := (analysis_run msgs scanned scan_all c start w).2 in
  recovery_data w'
  = final_checkpoint c msgs start
      (List.length (found_urls scanned scan_all msgs)) (recovery_data w)
  /\ history w' = history w
  /\ active_scans w' = active_scans w
  /\ files w' = files w.
Proof.
  intros w'.
  destruct (analysis_run_trace msgs scanned scan_all c start w)
    as (a0 & w0 & t & E0 & (_ & Hh & Ha & Hf & _) & _).
  assert (Hw0 : w' = w0) by (unfold w'; now rewrite E0).
  split; [|rewrite Hw0; auto].
  subst w'. clear E0 Hh Ha Hf Hw0 a0 w0 t.
  unfold analysis_run.
  destruct (messages_locals scanned scan_all c msgs (start_analysis start) w)
    as (w1 & Hrun & _).
  pose proof (progress_messages scanned scan_all c msgs (start_analysis start) w) as P.
  rewrite Hrun in P. cbn [snd] in P.
  rewrite (bind_ret_run _ _ _ _ _ Hrun).
  destruct (messages_outputs scanned scan_all msgs (start_analysis start))
    as (_ & H2 & _ & H4).
  cbv zeta in H2, H4. rewrite H2, H4. cbn [start_analysis an_found_media an_processed_count].
  rewrite Nat.add_0_l.
  unfold bind, update_scan_progress, bind. rewrite emit_eq. cbn [modify_recovery ret snd].
  cbn [recovery_data snoc_trace].
  unfold final_checkpoint, ScanRecovery.update_scan_progress, progress_only in *.
  destruct (recovery_data w !! channel_key c) as [e|] eqn:El.
  - destruct P as [->|(mid & p & f & ->)].
    + now rewrite El.
    + rewrite lookup_insert_eq. now rewrite insert_insert_eq.
  - rewrite P. now rewrite El.
Qed.

(** ** The download prompt and the download folder *)

Lemma existsb_selection s options :
  existsb (selection_eqb s) options = true <-> In s options.
Proof.
  rewrite existsb_exists. split.
  - intros (x & Hx & E). destruct s, x; try discriminate; exact Hx.
  - intros H. exists s. split; [exact H|now destruct s].
Qed.

(** X27: the download prompt.  A category is offered exactly when its
    files have bytes, [all] exactly when at least two categories are
    offered, and nothing is offered twice.  When every total is zero the
    handler does nothing at all: media of zero bytes are reported but
    never offered.  Otherwise it posts the options; an answer counts only
    if it is one of them, and without such an answer the handler ends
    with the timeout notice and downloads nothing. *)
Theorem download_prompt (env : Env) (cmd : Command)
    (images videos others : gmap string string) (sizes : N * N * N) (w : World) :
  let options := download_options sizes in
  let run := handle_download_options env cmd images videos others sizes w in
  (In SelImages options <-> (0 < sizes.1.1)%N)
  /\ (In SelVideos options <-> (0 < sizes.1.2)%N)
  /\ (In SelOthers options <-> (0 < sizes.2)%N)
  /\ (In SelAll options <-> (2 <= categories_with_bytes sizes)%nat)
  /\ NoDup options
  /\ (forall s, react_message env options = Some s <-> reaction env = Some s /\ In s options)
  /\ (sizes = (0, 0, 0)%N -> run = (Ret tt, w))
  /\ (sizes <> (0, 0, 0)%N -> react_message env options = None ->
      run = (Ret tt, snoc_trace (snoc_trace w (Sent (DownloadOptions options)))
                       (Sent DownloadTimedOut))
      /\ files run.2 = files w).
Proof.
  intros options run. subst options run.
  destruct sizes as [[i v] o]. cbn [fst snd].
  assert (Hi : (0 <? i)%N = true <-> (0 < i)%N) by apply N.ltb_lt.
  assert (Hv : (0 <? v)%N = true <-> (0 < v)%N) by apply N.ltb_lt.
  assert (Ho : (0 <? o)%N = true <-> (0 < o)%N) by apply N.ltb_lt.
  assert (Hz : (i, v, o) = (0, 0, 0)%N
               <-> (0 <? i)%N = false /\ (0 <? v)%N = false /\ (0 <? o)%N = false).
  { rewrite !N.ltb_ge. split; [intros [= -> -> ->]; repeat split; lia|].
    intros (? & ? & ?). repeat f_equal; lia. }
  unfold handle_download_options, react_message, download_options, categories_with_bytes.
  split; [|split; [|split; [|split; [|split; [|split; [|split]]]]]].
  - rewrite <- Hi. destruct (0 <? i)%N, (0 <? v)%N, (0 <? o)%N; simpl; intuition congruence.
  - rewrite <- Hv. destruct (0 <? i)%N, (0 <? v)%N, (0 <? o)%N; simpl; intuition congruence.
  - rewrite <- Ho. destruct (0 <? i)%N, (0 <? v)%N, (0 <? o)%N; simpl; intuition congruence.
  - destruct (0 <? i)%N, (0 <? v)%N, (0 <? o)%N; simpl;
      (split; [intros H; try lia; intuition congruence|intros H; try lia; auto 6]).
  - destruct (0 <? i)%N, (0 <? v)%N, (0 <? o)%N; simpl;
      repeat (constructor;
              [let H := fresh in
               intros H;
               repeat (apply elem_of_cons in H as [H|H]; [discriminate H|]);
               apply elem_of_nil in H; exact H|]);
      constructor.
  - intros s. destruct (reaction env) as [s'|]; [|split; [discriminate|intros [? _]; discriminate]].
    destruct (existsb (selection_eqb s') _) eqn:E.
    + apply existsb_selection in E. split; [intros [= <-]; auto|intros [[= <-] _]; reflexivity].
    + split; [discriminate|]. intros [[= <-] H]. apply existsb_selection in H. congruence.
  - intros H. apply Hz in H as (-> & -> & ->). reflexivity.
  - intros Hn Hr.
    assert (Hne : nonempty ((if (1 <? List.length
                                   ((if (0 <? i)%N then [SelImages] else [])
                                    ++ (if (0 <? v)%N then [SelVideos] else [])
                                    ++ (if (0 <? o)%N then [SelOthers] else [])))%nat
                             then ((if (0 <? i)%N then [SelImages] else [])
                                   ++ (if (0 <? v)%N then [SelVideos] else [])
                                   ++ (if (0 <? o)%N then [SelOthers] else [])) ++ [SelAll]
                             else (if (0 <? i)%N then [SelImages] else [])
                                  ++ (if (0 <? v)%N then [SelVideos] else [])
                                  ++ (if (0 <? o)%N then [SelOthers] else []))) = true).
    { destruct (0 <? i)%N eqn:Ei, (0 <? v)%N eqn:Ev, (0 <? o)%N eqn:Eo; try reflexivity.
      exfalso. apply Hn, Hz. auto. }
    cbv zeta. rewrite Hne. unfold bind at 1, send at 1. rewrite emit_eq.
    cbv zeta in Hr. rewrite Hr. split; reflexivity.
Qed.

Lemma download_prompt_witness :
  let env := sample_env [] in
  handle_download_options env sample_command ∅ ∅ ∅ (0, 5, 0)%N empty_world
  = (Ret tt, snoc_trace (snoc_trace empty_world (Sent (DownloadOptions [SelVideos])))
               (Sent DownloadTimedOut)).
Proof.
  intros env.
  destruct (download_prompt env sample_command ∅ ∅ ∅ (0, 5, 0)%N empty_world)
    as (_ & _ & _ & _ & _ & _ & _ & H).
  apply H; [discriminate|reflexivity].
Defined.

Lemma format_date_chars dt : Forall (fun c => safe_alphabet c = true) (chars (format_date dt)).
Proof.
  assert (Hz : forall width n,
            Forall (fun c => safe_alphabet c = true) (chars (zfill width n))).
  { intros width n. destruct (zfill_digits width n) as (Hd & _).
    eapply Forall_impl; [exact Hd|]. intros c Hc. unfold safe_alphabet, isalnum.
    unfold is_decimal in Hc. rewrite Hc. reflexivity. }
  unfold format_date. rewrite !chars_app.
  repeat (apply Forall_app; split); try apply Hz; repeat constructor.
Qed.

(** X28: the download folder is a direct child of [downloads].  Whatever
    the server and the channel are called, the folder is [downloads/]
    followed by one name written in the safe alphabet (letters, digits,
    [-], [_], [.]), which holds no path separator; and the name contains
    an underscore, so it is neither [.] nor [..]. *)
Theorem download_folder_is_flat (env : Env) (server channel : string) :
  exists name,
    create_folder env server channel = "downloads/" +:+ name
    /\ Forall (fun c => safe_alphabet c = true) (chars name)
    /\ ~ In slash (chars name)
    /\ In underscore (chars name).
Proof.
  exists (safe_string server +:+ "_" +:+ safe_string channel +:+ "_"
          +:+ format_date (now env)).
  split; [reflexivity|].
  assert (Hall : Forall (fun c => safe_alphabet c = true)
                   (chars (safe_string server +:+ "_" +:+ safe_string channel +:+ "_"
                           +:+ format_date (now env)))).
  { rewrite !chars_app.
    repeat (apply Forall_app; split);
      auto using format_date_chars, safe_string_safe; repeat constructor. }
  split; [exact Hall|]. split.
  - intros Hin. rewrite Forall_forall in Hall. apply list_elem_of_In, Hall in Hin.
    discriminate.
  - rewrite !chars_app. apply in_or_app. right. apply in_or_app. left. now left.
Qed.

(** ** The bytes of a report *)

Lemma reached_urls_attachments msgs :
  reached_urls msgs = map att_url (reached_attachments msgs).
Proof.
  unfold reached_urls, reached_attachments.
  induction msgs as [|m msgs IH]; [reflexivity|]. cbn [flat_map].
  rewrite map_app, IH. now destruct (_ && _).
Qed.

Lemma sizes_over_attachments images videos others msgs : forall totals,
  fold_left
    (fun totals msg =>
       if nonempty (msg_attachments msg) && negb (author_bot (msg_author msg))
       then fold_left (add_size images videos others) (msg_attachments msg) totals
       else totals)
    msgs totals
  = fold_left (add_size images videos others) (reached_attachments msgs) totals.
Proof.
  unfold reached_attachments.
  induction msgs as [|m msgs IH]; intros totals; [reflexivity|].
  cbn [fold_left flat_map]. rewrite fold_left_app, IH.
  now destruct (_ && _).
Qed.

Lemma triple_eq {A B C} (a a' : A) (b b' : B) (c c' : C) :
  a = a' -> b = b' -> c = c' -> (a, b, c) = (a', b', c').
Proof. congruence. Qed.

Lemma add_sizes_bytes images videos others (pi pv po : Attachment -> bool) atts :
  Forall (fun a => has_key (att_url a) images = pi a
                   /\ has_key (att_url a) videos = pv a
                   /\ has_key (att_url a) others = po a
                   /\ (pi a = true -> pv a = false /\ po a = false)
                   /\ (pv a = true -> po a = false)) atts ->
  forall ti tv to,
    fold_left (add_size images videos others) atts (ti, tv, to)
    = ((ti + bytes_of pi atts)%N, (tv + bytes_of pv atts)%N, (to + bytes_of po atts)%N).
Proof.
  induction 1 as [|a atts (Hi & Hv & Ho & Hiv & Hvo) _ IH]; intros ti tv to.
  { simpl. now rewrite !N.add_0_r. }
  cbn [fold_left bytes_of fold_right]. unfold add_size at 2. rewrite Hi, Hv, Ho.
  fold (bytes_of pi atts) (bytes_of pv atts) (bytes_of po atts).
  destruct (pi a) eqn:Ei.
  - destruct (Hiv eq_refl) as [-> ->]. rewrite IH. (apply triple_eq; lia).
  - destruct (pv a) eqn:Ev.
    + rewrite (Hvo eq_refl). rewrite IH. (apply triple_eq; lia).
    + destruct (po a); rewrite IH; (apply triple_eq; lia).
Qed.

(** X29: the bytes a report shows.  Over the messages of a run and the
    buckets that run filled, the three totals are the bytes of the
    attachments the run found, by category: attachments of messages not
    written by a bot, not skipped, classified Image, Video or Other.
    Every occurrence is counted, so a URL attached twice adds its size
    twice, though it is one file of its bucket. *)
Theorem report_bytes (msgs : list Message) (scanned : gset string)
    (scan_all : bool) (c : N) (start : nat) (w : World) :
  exists a,
    (analysis_run msgs scanned scan_all c start w).1 = Ret a
    /\ calculate_media_sizes msgs (an_images a) (an_videos a) (an_others a)
       = (bytes_of (found_as scanned scan_all Image) (reached_attachments msgs),
          bytes_of (found_as scanned scan_all Video) (reached_attachments msgs),
          bytes_of (found_as scanned scan_all Other) (reached_attachments msgs))
    /\ (size (an_images a) + size (an_videos a) + size (an_others a)
        <= List.length (reached_attachments msgs))%nat.
Proof.
  exists (analysis_result scanned scan_all start msgs).
  split; [apply analysis_run_result|].
  set (a := analysis_result scanned scan_all start msgs).
  pose proof (analysis_buckets_sorted scanned scan_all start msgs) as Hs. fold a in Hs.
  assert (Hnew : forall att, In att (reached_attachments msgs) ->
            (att_url att ∈ an_new_urls a <-> kept scanned scan_all (att_url att) = true)).
  { intros att Hin.
    destruct (messages_outputs scanned scan_all msgs (start_analysis start)) as (H1 & _).
    cbv zeta in H1. unfold a, analysis_result. rewrite H1. simpl.
    rewrite (left_id_L ∅ (∪)), elem_of_list_to_set.
    unfold found_urls. rewrite list_elem_of_In, filter_In, reached_urls_attachments.
    split; [tauto|]. intros Hk. split; [|exact Hk]. now apply in_map. }
  split.
  - unfold calculate_media_sizes. rewrite sizes_over_attachments.
    rewrite (add_sizes_bytes _ _ _ (found_as scanned scan_all Image)
               (found_as scanned scan_all Video) (found_as scanned scan_all Other)).
    { now rewrite !N.add_0_l. }
    apply List.Forall_forall. intros att Hin.
    specialize (Hnew att Hin). destruct (Hs (att_url att)) as (Hi & Hv & Ho).
    unfold has_key, found_as.
    assert (Hb : forall (P : Prop) `{Decision P} (b : bool),
              (P <-> b = true) -> bool_decide P = b).
    { intros P ? b Hb. destruct b; [apply bool_decide_eq_true, Hb; reflexivity|].
      apply bool_decide_eq_false. intros HP. apply Hb in HP. discriminate. }
    rewrite Hnew in Hi, Hv, Ho.
    split; [|split; [|split; [|split]]].
    + apply Hb. rewrite Hi, andb_true_iff.
      destruct (classify (att_url att)); simpl; intuition congruence.
    + apply Hb. rewrite Hv, andb_true_iff.
      destruct (classify (att_url att)); simpl; intuition congruence.
    + apply Hb. rewrite Ho, andb_true_iff.
      destruct (classify (att_url att)); simpl; intuition congruence.
    + destruct (kept scanned scan_all (att_url att)), (classify (att_url att));
        simpl; intros; try discriminate; auto.
    + destruct (kept scanned scan_all (att_url att)), (classify (att_url att));
        simpl; intros; try discriminate; auto.
  - assert (Hdisj : forall (b1 b2 : gmap string string),
              dom b1 ## dom b2 ->
              (size b1 + size b2 = size (dom b1 ∪ dom b2))%nat).
    { intros b1 b2 Hd. rewrite size_union by exact Hd. now rewrite !size_dom. }
    assert (Hsub : dom (an_images a) ∪ dom (an_videos a) ∪ dom (an_others a)
                   ⊆ (list_to_set (reached_urls msgs) : gset string)).
    { intros url Hu. apply elem_of_list_to_set.
      assert (Hin : url ∈ an_new_urls a).
      { destruct (Hs url) as (Hi & Hv & Ho).
        rewrite !elem_of_union, !elem_of_dom in Hu.
        destruct Hu as [[Hu|Hu]|Hu]; [apply Hi in Hu|apply Hv in Hu|apply Ho in Hu];
          tauto. }
      destruct (messages_outputs scanned scan_all msgs (start_analysis start)) as (H1 & _).
      cbv zeta in H1. unfold a, analysis_result in Hin. rewrite H1 in Hin. simpl in Hin.
      rewrite (left_id_L ∅ (∪)), elem_of_list_to_set in Hin.
      unfold found_urls in Hin. rewrite list_elem_of_In, filter_In in Hin.
      apply list_elem_of_In. tauto. }
    assert (D1 : dom (an_images a) ## dom (an_videos a)).
    { intros url H1 H2. apply elem_of_dom in H1, H2.
      destruct (Hs url) as (Hi & Hv & _). apply Hi in H1. apply Hv in H2.
      destruct H1 as [_ H1], H2 as [_ H2]. congruence. }
    assert (D2 : dom (an_images a) ∪ dom (an_videos a) ## dom (an_others a)).
    { intros url H1 H2. apply elem_of_dom in H2.
      destruct (Hs url) as (Hi & Hv & Ho). apply Ho in H2. destruct H2 as [_ H2].
      apply elem_of_union in H1 as [H1|H1]; apply elem_of_dom in H1;
        [apply Hi in H1|apply Hv in H1]; destruct H1 as [_ H1]; congruence. }
    rewrite <- !size_dom, <- size_union by exact D1.
    rewrite <- size_union by exact D2.
    etransitivity; [apply subseteq_size, Hsub|].
    rewrite reached_urls_attachments.
    etransitivity; [apply size_list_to_set_le|]. now rewrite length_map.
Qed.
